(** * gonano: wallet engine and proof-of-work generator

    A shallow embedding of the Go packages [pow] and [wallet] of gonano,
    with the properties of its specification stated over the embedding.

    - unbounded integers ([*big.Int], [uint64], [uint32]) are [Z], with the
      wrap-around of the fixed-width types written out;
    - byte slices are [list byte]; a slice that the code compares with [nil]
      is an [option (list byte)], [None] being the nil slice;
    - Go maps are stdpp [gmap]s, pointers to accounts are locations in a heap;
    - a call that can fail returns a [result]; a run-time panic is the error
      [EPanic]. *)

From Stdlib Require Import ZArith Lia List Bool.
From Stdlib Require Import Strings.String Strings.Byte.
From stdpp Require Import base option list gmap strings.

Import ListNotations.
Local Open Scope Z_scope.

(** ** Bytes and the [encoding/binary] byte orders *)

Module Bytes.

Definition byte_of_Z (z : Z) : byte :=
  match Byte.of_N (Z.to_N (z mod 256)) with
  | Some b => b
  | None => x00
  end.

Definition Z_of_byte (b : byte) : Z := Z.of_N (Byte.to_N b).

(** [uint64] arithmetic wraps modulo 2^64. *)
Definition wrap64 (z : Z) : Z := z mod 2 ^ 64.

(** [uint32] arithmetic wraps modulo 2^32. *)
Definition wrap32 (z : Z) : Z := z mod 2 ^ 32.

(** The value of a byte string read with the least significant byte first. *)
Fixpoint le_value (bs : list byte) : Z :=
  match bs with
  | [] => 0
  | b :: bs' => Z_of_byte b + 256 * le_value bs'
  end.

(** [n] bytes of [x], least significant first. *)
Fixpoint le_bytes (n : nat) (x : Z) : list byte :=
  match n with
  | O => []
  | S n' => byte_of_Z x :: le_bytes n' (Z.shiftr x 8)
  end.

(** [binary.LittleEndian.PutUint64]. *)
Definition LittleEndian_PutUint64 (x : Z) : list byte := le_bytes 8 x.

(** [binary.BigEndian.PutUint64]: [b[0] = byte(v >> 56)], ..., [b[7] = byte(v)]. *)
Definition BigEndian_PutUint64 (x : Z) : list byte := rev (le_bytes 8 x).

(** [binary.LittleEndian.Uint64]: reads [b[0..7]]; panics on a shorter slice. *)
Definition LittleEndian_Uint64 (b : list byte) : option Z :=
  if (length b <? 8)%nat then None else Some (le_value (firstn 8 b)).

(** [binary.BigEndian.Uint64]: reads [b[0..7]]; panics on a shorter slice. *)
Definition BigEndian_Uint64 (b : list byte) : option Z :=
  if (length b <? 8)%nat then None else Some (le_value (rev (firstn 8 b))).

(** The in-place reversal loop of [pow.Generate]:
    [for i, j := 0, len-1; i < j; i, j = i+1, j-1 { swap }].
    [fuel] bounds the number of swaps; [length work / 2] is enough. *)
Fixpoint swap_loop (fuel : nat) (i j : nat) (work : list byte) : list byte :=
  match fuel with
  | O => work
  | S fuel' =>
      if (i <? j)%nat then
        match work !! i, work !! j with
        | Some bi, Some bj => swap_loop fuel' (S i) (Nat.pred j) (<[j := bi]> (<[i := bj]> work))
        | _, _ => work
        end
      else work
  end.

Definition reverse_in_place (work : list byte) : list byte :=
  swap_loop (length work / 2) 0 (Nat.pred (length work)) work.

End Bytes.

(** ** BLAKE2b (RFC 7693), as [golang.org/x/crypto/blake2b] computes it *)

Module Blake2b.
Import Bytes.

Definition IV : list Z :=
  [ 0x6a09e667f3bcc908; 0xbb67ae8584caa73b; 0x3c6ef372fe94f82b; 0xa54ff53a5f1d36f1;
    0x510e527fade682d1; 0x9b05688c2b3e6c1f; 0x1f83d9abfb41bd6b; 0x5be0cd19137e2179 ].

Definition SIGMA : list (list nat) :=
  [ [ 0; 1; 2; 3; 4; 5; 6; 7; 8; 9; 10; 11; 12; 13; 14; 15 ];
    [ 14; 10; 4; 8; 9; 15; 13; 6; 1; 12; 0; 2; 11; 7; 5; 3 ];
    [ 11; 8; 12; 0; 5; 2; 15; 13; 10; 14; 3; 6; 7; 1; 9; 4 ];
    [ 7; 9; 3; 1; 13; 12; 11; 14; 2; 6; 5; 10; 4; 0; 15; 8 ];
    [ 9; 0; 5; 7; 2; 4; 10; 15; 14; 1; 11; 12; 6; 8; 3; 13 ];
    [ 2; 12; 6; 10; 0; 11; 8; 3; 4; 13; 7; 5; 15; 14; 1; 9 ];
    [ 12; 5; 1; 15; 14; 13; 4; 10; 0; 7; 6; 3; 9; 2; 8; 11 ];
    [ 13; 11; 7; 14; 12; 1; 3; 9; 5; 0; 15; 4; 8; 6; 2; 10 ];
    [ 6; 15; 14; 9; 11; 3; 0; 8; 12; 2; 13; 7; 1; 4; 10; 5 ];
    [ 10; 2; 8; 4; 7; 6; 1; 5; 15; 11; 9; 14; 3; 12; 13; 0 ] ]%nat.

Definition rotr64 (x : Z) (n : Z) : Z :=
  Z.lor (Z.shiftr x n) (wrap64 (Z.shiftl x (64 - n))).

Definition word (v : list Z) (i : nat) : Z := nth i v 0.

(** The mixing function G on the working vector [v]. *)
Definition G (v : list Z) (a b c d : nat) (x y : Z) : list Z :=
  let va := wrap64 (word v a + word v b + x) in
  let vd := rotr64 (Z.lxor (word v d) va) 32 in
  let vc := wrap64 (word v c + vd) in
  let vb := rotr64 (Z.lxor (word v b) vc) 24 in
  let va := wrap64 (va + vb + y) in
  let vd := rotr64 (Z.lxor vd va) 16 in
  let vc := wrap64 (vc + vd) in
  let vb := rotr64 (Z.lxor vb vc) 63 in
  <[d := vd]> (<[c := vc]> (<[b := vb]> (<[a := va]> v))).

Definition round (m : list Z) (v : list Z) (r : nat) : list Z :=
  let s := nth (r mod 10) SIGMA [] in
  let ms (i : nat) := word m (nth i s O) in
  let v := G v 0 4 8 12 (ms 0%nat) (ms 1%nat) in
  let v := G v 1 5 9 13 (ms 2%nat) (ms 3%nat) in
  let v := G v 2 6 10 14 (ms 4%nat) (ms 5%nat) in
  let v := G v 3 7 11 15 (ms 6%nat) (ms 7%nat) in
  let v := G v 0 5 10 15 (ms 8%nat) (ms 9%nat) in
  let v := G v 1 6 11 12 (ms 10%nat) (ms 11%nat) in
  let v := G v 2 7 8 13 (ms 12%nat) (ms 13%nat) in
  G v 3 4 9 14 (ms 14%nat) (ms 15%nat).

(** The sixteen little-endian message words of a block, zero padded. *)
Fixpoint words_of (n : nat) (block : list byte) : list Z :=
  match n with
  | O => []
  | S n' => le_value (firstn 8 block) :: words_of n' (skipn 8 block)
  end.

(** The compression function F: [h] the chaining value, [t] the byte
    counter, [last] the finalisation flag. *)
Definition F (h : list Z) (block : list byte) (t : Z) (last : bool) : list Z :=
  let m := words_of 16 block in
  let v := h ++ IV in
  let v := <[12%nat := Z.lxor (word v 12) (wrap64 t)]> v in
  let v := <[13%nat := Z.lxor (word v 13) (wrap64 (Z.shiftr t 64))]> v in
  let v := if last then <[14%nat := Z.lxor (word v 14) 0xffffffffffffffff]> v else v in
  let v := fold_left (round m) (seq 0 12) v in
  map (fun i => Z.lxor (Z.lxor (word h i) (word v i)) (word v (i + 8))) (seq 0 8).

(** Absorbs all blocks but the last with [F _ _ _ false], then the last
    (possibly empty or partial, zero padded) with [F _ _ _ true]. *)
Fixpoint absorb (fuel : nat) (h : list Z) (t : Z) (msg : list byte) : list Z :=
  match fuel with
  | O => F h msg (t + Z.of_nat (length msg)) true
  | S fuel' =>
      if (128 <? length msg)%nat
      then absorb fuel' (F h (firstn 128 msg) (t + 128) false) (t + 128) (skipn 128 msg)
      else F h msg (t + Z.of_nat (length msg)) true
  end.

(** Unkeyed BLAKE2b with an [nn]-byte digest. *)
Definition sum (nn : nat) (msg : list byte) : list byte :=
  let h0 := <[0%nat := Z.lxor (word IV 0) (Z.lxor 0x01010000 (Z.of_nat nn))]> IV in
  let h := absorb (length msg) h0 0 msg in
  firstn nn (concat (map (le_bytes 8) h)).

(** [blake2b.New(8, nil)] followed by [Write]s of [msg] and [Sum(nil)]. *)
Definition sum8 (msg : list byte) : list byte := sum 8 msg.

End Blake2b.

(** ** Package [pow] *)

Module Pow.
Import Bytes.

(** [binary.LittleEndian.Uint64(hash[i].Sum(nil))] after [Write(work)] and
    [Write(data)]. *)
Definition hash_value (data work : list byte) : option Z :=
  LittleEndian_Uint64 (Blake2b.sum8 (work ++ data)).

(** The test of a worker: [... >= target].  The digest has 8 bytes, so the
    read never panics ([PowFacts.hash_value_total]). *)
Definition accepts (data : list byte) (target : Z) (work : list byte) : bool :=
  match hash_value data work with
  | Some v => target <=? v
  | None => false
  end.

(** The 8 bytes a worker hashes for its counter [x]:
    [binary.BigEndian.PutUint64(work, x)]. *)
Definition candidate (x : Z) : list byte := BigEndian_PutUint64 x.

(** *** The goroutines of [GenerateCPU]

    Each worker owns a counter [x] and a buffer [work]; [done] and the
    channel [ch] are shared.  The channel carries the workers' buffers by
    reference, so it is a queue of worker indices here.  A worker is either
    about to test the loop condition [!done], or about to run the loop body
    (followed by the post statement [x += n]), or has left the loop. *)

Inductive pc := AtCond | InBody | Exited.

Record worker := mkWorker { wx : Z; wpc : pc; wbuf : list byte }.

Record state := mkState {
  workers : list worker;
  done : bool;
  ch : list nat;
  ret : option (list byte)
}.

Inductive thread := Main | Worker (i : nat).

Section Search.
Variable data : list byte.
Variable target : Z.
(** [n = runtime.NumCPU()], [x0 = rand.Uint64()]. *)
Variable n : nat.
Variable x0 : Z.

Definition init : state :=
  {| workers := map (fun i => mkWorker (wrap64 (x0 + Z.of_nat i)) AtCond (repeat x00 8)) (seq 0 n);
     done := false; ch := []; ret := None |}.

Definition step_worker (st : state) (i : nat) : state :=
  match workers st !! i with
  | None => st
  | Some w =>
      match wpc w with
      | AtCond =>
          let w' := mkWorker (wx w) (if done st then Exited else InBody) (wbuf w) in
          mkState (<[i := w']> (workers st)) (done st) (ch st) (ret st)
      | InBody =>
          let work := candidate (wx w) in
          let w' := mkWorker (wrap64 (wx w + Z.of_nat n)) AtCond work in
          if accepts data target work
          then mkState (<[i := w']> (workers st)) true (ch st ++ [i]) (ret st)
          else mkState (<[i := w']> (workers st)) (done st) (ch st) (ret st)
      | Exited => st
      end
  end.

(** [return <-ch, nil]: blocks while the channel is empty. *)
Definition step_main (st : state) : state :=
  match ret st, ch st with
  | None, i :: rest =>
      mkState (workers st) (done st) rest (wbuf <$> workers st !! i)
  | _, _ => st
  end.

Definition step (st : state) (t : thread) : state :=
  match t with
  | Main => step_main st
  | Worker i => step_worker st i
  end.

(** The state after the threads have taken steps in the order [sched]. *)
Definition exec (sched : list thread) : state := fold_left step sched init.

(** [GenerateCPU(data, target)] under the interleaving [sched]: [None] while
    the receive is still blocked.  [blake2b.New(8, nil)] does not fail. *)
Definition GenerateCPU (sched : list thread) : option (list byte) :=
  ret (exec sched).

(** The counter of worker [i] in its iteration [k]: it starts from
    [x + uint64(i)] and advances by [uint64(n)]. *)
Definition counter (i k : nat) : Z :=
  wrap64 (x0 + Z.of_nat i + Z.of_nat k * Z.of_nat n).

(** A buffer that holds an accepted candidate of some worker. *)
Definition winning (buf : list byte) : Prop :=
  exists i k, (i < n)%nat /\ buf = candidate (counter i k) /\
              accepts data target buf = true.

(** The invariant of the race: a worker whose buffer is in the channel has
    set [done] and is not in the loop body, so it leaves the loop without
    writing to its buffer again; what the main goroutine received is an
    accepted candidate; every counter stays in its residue class. *)
Definition Inv (st : state) : Prop :=
  (forall i, i ∈ ch st ->
     exists w, workers st !! i = Some w /\ wpc w <> InBody /\ done st = true /\
               winning (wbuf w)) /\
  (forall r, ret st = Some r -> winning r) /\
  (forall i w, workers st !! i = Some w -> (i < n)%nat /\ exists k, wx w = counter i k).

(** Worker 0 at the loop condition with counter [x], nothing sent yet. *)
Definition alone (st : state) (x : Z) : Prop :=
  (exists w, workers st !! O = Some w /\ wx w = x /\ wpc w = AtCond) /\
  done st = false /\ ch st = [] /\ ret st = None.

End Search.

Inductive error := EPanic.

(** [Generate(data, difficulty)]: [binary.BigEndian.Uint64] panics on a
    difficulty shorter than 8 bytes. *)
Definition Generate (data difficulty : list byte) (n : nat) (x0 : Z)
    (sched : list thread) : option (error + list byte) :=
  match BigEndian_Uint64 difficulty with
  | None => Some (inl EPanic)
  | Some target =>
      match GenerateCPU data target n x0 sched with
      | None => None
      | Some work => Some (inr (reverse_in_place work))
      end
  end.

(** A run on one CPU: the worker tests the loop condition, runs the body
    once, and the main goroutine receives. *)
Definition one_round : list thread := [Worker O; Worker O; Main].

(** A 32-byte block hash and the difficulty [8000000000000000]. *)
Definition zero_data : list byte := repeat x00 32.
Definition half_difficulty : list byte := [x80; x00; x00; x00; x00; x00; x00; x00].

End Pow.

(** ** [encoding/hex] *)

Module Hex.
Import Bytes.

(** [reverseHexTable]: the value of a hexadecimal digit, [None] for any
    other byte. *)
Definition fromHexChar (c : byte) : option Z :=
  let v := Z_of_byte c in
  if (48 <=? v) && (v <=? 57) then Some (v - 48)
  else if (97 <=? v) && (v <=? 102) then Some (v - 97 + 10)
  else if (65 <=? v) && (v <=? 70) then Some (v - 65 + 10)
  else None.

(** The loop of [hex.Decode]: two digits give one byte; decoding stops at
    the first byte that is no digit, and at a trailing single digit. *)
Fixpoint decode (src : list byte) : list byte :=
  match src with
  | p :: q :: rest =>
      match fromHexChar p, fromHexChar q with
      | Some a, Some b => byte_of_Z (Z.lor (Z.shiftl a 4) b) :: decode rest
      | _, _ => []
      end
  | _ => []
  end.

(** [hex.DecodeString], as the wallet uses it: the bytes decoded before any
    error, the error itself being dropped ([difficulty, _ := ...]). *)
Definition DecodeString (s : string) : list byte :=
  decode (list_byte_of_string s).

End Hex.

(** ** Package [rpc]: the data exchanged with the ledger node *)

Module rpc.

(** [rpc.BlockHash] is a byte slice; [None] is the nil slice. *)
Definition BlockHash := option (list byte).

(** The bytes of a slice handed to a function that only reads it. *)
Definition bytes_of (h : BlockHash) : list byte := default [] h.

Module Block.
Record t := mk {
  Type_ : string;
  Account : string;
  Previous : BlockHash;
  Representative : string;
  Balance : Z;
  Link : BlockHash;
  Signature : list byte;
  Work : list byte
}.
End Block.

Module AccountInfo.
Record t := mk {
  Frontier : BlockHash;
  Representative : string;
  Balance : Z
}.
End AccountInfo.

Module AccountBalance.
Record t := mk {
  Balance : Z;
  Pending : Z
}.
End AccountBalance.

End rpc.

(** ** Package [wallet] *)

Module wallet.
Import Bytes rpc.

Inductive error :=
  | EInsufficientFunds      (** [errors.New("insufficient funds")] *)
  | ELedgerSupport          (** [errors.New("ledger support not available")] *)
  | EPanic                  (** a run-time panic (nil dereference) *)
  | EExternal (msg : string). (** an error returned by [util], [rpc], [pow] or the key derivation *)

Inductive result (A : Type) :=
  | Ok (a : A)
  | Err (e : error).
Arguments Ok {A} a.
Arguments Err {A} e.

(** What a collaborator answers: a value, or an error of its own. *)
Inductive ext (A : Type) :=
  | Fine (a : A)
  | Failed (msg : string).
Arguments Fine {A} a.
Arguments Failed {A} msg.

Definition of_ext {A} (r : ext A) : result A :=
  match r with
  | Fine a => Ok a
  | Failed msg => Err (EExternal msg)
  end.

(** A pointer to an [Account]. *)
Definition loc := nat.

Record Account := mkAccount {
  index : Z;
  key : list byte;
  pubkey : list byte;
  address : string;
  representative : string
}.

Inductive Impl := seedImpl | ledgerImpl.

Record Wallet := mkWallet {
  isBanano : bool;
  seed : list byte;
  isBip39 : bool;
  nextIndex : Z;
  accounts : gmap string loc;
  WorkDifficulty : string;
  ReceiveWorkDifficulty : string;
  impl : Impl
}.

(** [SendDestination]. *)
Record SendDestination := mkDestination {
  dAccount : string;
  dAmount : Z
}.

(** What an operation asks of its collaborators, in order. *)
Inductive event :=
  | EvAccountInfo (account : string)
  | EvAccountsBalances (accounts : list string)
  | EvAccountsFrontiers (accounts : list string)
  | EvWorkGenerate (data difficulty : list byte)
  | EvPowGenerate (data difficulty : list byte)
  | EvProcess (block : Block.t) (subtype : string).

(** The collaborators of the package that are not part of it: address
    coding ([util]), key derivation and signatures, the block hash and the
    node ([rpc]), and the outcome of the local proof-of-work search. *)
Record Env := mkEnv {
  AddressToPubkey : string -> ext (list byte);
  PubkeyToAddress : list byte -> ext string;
  PubkeyToBananoAddress : list byte -> ext string;
  deriveKey : list byte -> Z -> ext (list byte);
  deriveBip39Key : list byte -> Z -> ext (list byte);
  deriveKeypair : list byte -> list byte * list byte * option string;
  ed25519_Sign : list byte -> list byte -> list byte;
  Block_Hash : Block.t -> ext (list byte);
  RPC_AccountInfo : string -> ext AccountInfo.t;
  RPC_AccountsBalances : list string -> ext (gmap string AccountBalance.t);
  RPC_AccountsFrontiers : list string -> ext (gmap string BlockHash);
  RPC_Process : Block.t -> string -> ext BlockHash;
  RPCWork_WorkGenerate : list byte -> list byte -> ext (list byte);
  pow_Generate : list byte -> list byte -> ext (list byte)
}.

(** [newWallet(seed, isBanano)]. *)
Definition newWallet (seed : list byte) (isBanano : bool) : Wallet :=
  {| isBanano := isBanano; seed := seed; isBip39 := false; nextIndex := 0;
     accounts := ∅;
     WorkDifficulty := "fffffff800000000";
     ReceiveWorkDifficulty := "fffffe0000000000";
     impl := seedImpl |}.

(** The representative of a first receive block when none is known. *)
Definition defaultRepresentative : string :=
  "nano_3gonano8jnse4zm65jaiki9tk8ry4jtgc1smarinukho6fmbc45k3icsh6en".

(** [make(rpc.BlockHash, 32)]. *)
Definition zeroHash : BlockHash := Some (repeat x00 32).

Definition set_representative (a : Account) (r : string) : Account :=
  mkAccount (index a) (key a) (pubkey a) (address a) r.

Definition set_Signature (b : Block.t) (s : list byte) : Block.t :=
  Block.mk (Block.Type_ b) (Block.Account b) (Block.Previous b) (Block.Representative b)
    (Block.Balance b) (Block.Link b) s (Block.Work b).

Definition set_Work (b : Block.t) (wk : list byte) : Block.t :=
  Block.mk (Block.Type_ b) (Block.Account b) (Block.Previous b) (Block.Representative b)
    (Block.Balance b) (Block.Link b) (Block.Signature b) wk.

(** *** Operations of an account

    An operation runs on the account it is called on, the only thing it
    mutates, and records the requests it makes; an error leaves the
    mutations made before it in place. *)

Record St := mkSt { acct : Account; trace : list event }.

Definition M (A : Type) : Type := St -> St * result A.

Definition ret {A} (x : A) : M A := fun s => (s, Ok x).
Definition fail {A} (e : error) : M A := fun s => (s, Err e).
Definition bind {A B} (m : M A) (k : A -> M B) : M B :=
  fun s => match m s with
           | (s', Ok x) => k x s'
           | (s', Err e) => (s', Err e)
           end.
Definition lift {A} (r : result A) : M A := fun s => (s, r).
Definition call {A} (r : ext A) : M A := lift (of_ext r).
Definition get_account : M Account := fun s => (s, Ok (acct s)).
Definition put_representative (r : string) : M unit :=
  fun s => (mkSt (set_representative (acct s) r) (trace s), Ok tt).
Definition emit (e : event) : M unit :=
  fun s => (mkSt (acct s) (trace s ++ [e]), Ok tt).

Notation "x <- m ;; k" := (bind m (fun x => k))
  (at level 100, m at next level, right associativity).
Notation "m ;;; k" := (bind m (fun _ => k))
  (at level 100, right associativity).

Section Operations.
Variable env : Env.
Variable w : Wallet.

(** [impl.signBlock(a, block)] for the two implementations. *)
Definition signBlock (a : Account) (block : Block.t) : result Block.t :=
  match impl w with
  | seedImpl =>
      match Block_Hash env block with
      | Failed msg => Err (EExternal msg)
      | Fine hash => Ok (set_Signature block (ed25519_Sign env (key a) hash))
      end
  | ledgerImpl => Err ELedgerSupport
  end.

Definition AccountInfo_of (account : string) : M AccountInfo.t :=
  emit (EvAccountInfo account) ;;; call (RPC_AccountInfo env account).

Definition Process (block : Block.t) (subtype : string) : M BlockHash :=
  emit (EvProcess block subtype) ;;; call (RPC_Process env block subtype).

(** [if a.representative == "" { a.representative = r }]. *)
Definition cache_representative (r : string) : M unit :=
  a <- get_account ;;
  if decide (representative a = "") then put_representative r else ret tt.

(** The remote work service first, the local search when it fails. *)
Definition generate_with (difficulty : list byte) (data : list byte) : M (list byte) :=
  emit (EvWorkGenerate data difficulty) ;;;
  match RPCWork_WorkGenerate env data difficulty with
  | Fine work => ret work
  | Failed _ =>
      emit (EvPowGenerate data difficulty) ;;; call (pow_Generate env data difficulty)
  end.

Definition workGenerate (data : list byte) : M (list byte) :=
  generate_with (Hex.DecodeString (WorkDifficulty w)) data.

Definition workGenerateReceive (data : list byte) : M (list byte) :=
  generate_with (Hex.DecodeString (ReceiveWorkDifficulty w)) data.

(** [Account.SendBlock(account, amount)].  [info.Balance.Sub] subtracts in
    place, so the block carries the difference.  When signing fails Go
    returns the unsigned block next to the error; here the error alone. *)
Definition SendBlock (account : string) (amount : Z) : M Block.t :=
  link <- call (AddressToPubkey env account) ;;
  a <- get_account ;;
  info <- AccountInfo_of (address a) ;;
  cache_representative (AccountInfo.Representative info) ;;;
  let balance := AccountInfo.Balance info - amount in
  if balance <? 0 then fail EInsufficientFunds
  else
    a <- get_account ;;
    let block :=
      {| Block.Type_ := "state";
         Block.Account := address a;
         Block.Previous := AccountInfo.Frontier info;
         Block.Representative := representative a;
         Block.Balance := balance;
         Block.Link := Some link;
         Block.Signature := [];
         Block.Work := [] |} in
    lift (signBlock a block).

(** The loop of [Account.SendBlocks]: [frontier] and [balance] (the value
    of [info.Balance], updated in place) are carried from one destination to
    the next; [representative] is [info.Representative]. *)
Fixpoint SendBlocks_loop (representative_ : string) (destinations : list SendDestination)
    (frontier : BlockHash) (balance : Z) (blocks : list Block.t) : M (list Block.t) :=
  match destinations with
  | [] => ret blocks
  | destination :: rest =>
      link <- call (AddressToPubkey env (dAccount destination)) ;;
      cache_representative representative_ ;;;
      let balance := balance - dAmount destination in
      if balance <? 0 then fail EInsufficientFunds
      else
        a <- get_account ;;
        let block :=
          {| Block.Type_ := "state";
             Block.Account := address a;
             Block.Previous := frontier;
             Block.Representative := representative a;
             Block.Balance := balance;
             Block.Link := Some link;
             Block.Signature := [];
             Block.Work := [] |} in
        block <- lift (signBlock a block) ;;
        hash <- call (Block_Hash env block) ;;
        SendBlocks_loop representative_ rest (Some hash) balance (blocks ++ [block])
  end.

(** [Account.SendBlocks(destinations)]. *)
Definition SendBlocks (destinations : list SendDestination) : M (list Block.t) :=
  a <- get_account ;;
  info <- AccountInfo_of (address a) ;;
  SendBlocks_loop (AccountInfo.Representative info) destinations
    (AccountInfo.Frontier info) (AccountInfo.Balance info) [].

(** The block that [Account.receivePending(info, link)] builds, once the
    representative is settled. *)
Definition receiveBlock (a : Account) (info : AccountInfo.t) (link : BlockHash) : Block.t :=
  {| Block.Type_ := "state";
     Block.Account := address a;
     Block.Previous :=
       match AccountInfo.Frontier info with
       | None => zeroHash
       | Some f => Some f
       end;
     Block.Representative := representative a;
     Block.Balance := AccountInfo.Balance info;
     Block.Link := link;
     Block.Signature := [];
     Block.Work := [] |}.

(** [Account.receivePending(info, link)]. *)
Definition receivePending (info : AccountInfo.t) (link : BlockHash) : M BlockHash :=
  a <- get_account ;;
  let workHash :=
    match AccountInfo.Frontier info with
    | None => pubkey a
    | Some f => f
    end in
  (if decide (representative a = "") then
     put_representative (AccountInfo.Representative info) ;;;
     if decide (AccountInfo.Representative info = "")
     then put_representative defaultRepresentative
     else ret tt
   else ret tt) ;;;
  a <- get_account ;;
  block <- lift (signBlock a (receiveBlock a info link)) ;;
  work <- workGenerateReceive workHash ;;
  Process (set_Work block work) "receive".

(** [Account.SetRep(representative)]. *)
Definition SetRep (representative_ : string) : M unit :=
  _ <- call (AddressToPubkey env representative_) ;;
  put_representative representative_.

(** [Account.ChangeRep(representative)]. *)
Definition ChangeRep (representative_ : string) : M BlockHash :=
  a <- get_account ;;
  info <- AccountInfo_of (address a) ;;
  let block :=
    {| Block.Type_ := "state";
       Block.Account := address a;
       Block.Previous := AccountInfo.Frontier info;
       Block.Representative := representative_;
       Block.Balance := AccountInfo.Balance info;
       Block.Link := zeroHash;
       Block.Signature := [];
       Block.Work := [] |} in
  block <- lift (signBlock a block) ;;
  work <- workGenerate (bytes_of (AccountInfo.Frontier info)) ;;
  hash <- Process (set_Work block work) "change" ;;
  put_representative representative_ ;;;
  ret hash.

End Operations.

(** *** The registry of a wallet

    The wallet registers pointers to accounts: [heap] holds the accounts
    allocated so far, [accounts] maps an address to a location of [heap]. *)

Record World := mkWorld {
  heap : list Account;
  wal : Wallet;
  log : list event
}.

Definition set_nextIndex (w : Wallet) (i : Z) : Wallet :=
  mkWallet (isBanano w) (seed w) (isBip39 w) i (accounts w)
    (WorkDifficulty w) (ReceiveWorkDifficulty w) (impl w).

Definition set_accounts (w : Wallet) (m : gmap string loc) : Wallet :=
  mkWallet (isBanano w) (seed w) (isBip39 w) (nextIndex w) m
    (WorkDifficulty w) (ReceiveWorkDifficulty w) (impl w).

Section Registry.
Variable env : Env.

(** [impl.deriveAccount(a)]: the account as the call leaves it, and the
    error. *)
Definition deriveAccount (w : Wallet) (a : Account) : Account * option error :=
  match impl w with
  | seedImpl =>
      match (if isBip39 w then deriveBip39Key env (seed w) (index a)
             else deriveKey env (seed w) (index a)) with
      | Failed msg => (a, Some (EExternal msg))
      | Fine k =>
          let '(pub, priv, err) := deriveKeypair env k in
          (mkAccount (index a) priv pub (address a) (representative a), EExternal <$> err)
      end
  | ledgerImpl => (a, Some ELedgerSupport)
  end.

Definition pubkeyToAddress (w : Wallet) : list byte -> ext string :=
  if isBanano w then PubkeyToBananoAddress env else PubkeyToAddress env.

(** [Wallet.NewAccount(index)]: [None] for a nil [index].  The account is
    allocated before anything can fail.  [fuel] bounds the retries after an
    address that is already registered; the result is [None] when it runs
    out.  On an error Go returns the account as well; here the error alone. *)
Fixpoint NewAccount (fuel : nat) (index_ : option Z) (s : World)
    : option (World * result loc) :=
  match fuel with
  | O => None
  | S fuel' =>
      let w := wal s in
      let index2 := match index_ with Some i => i | None => nextIndex w end in
      let l := length (heap s) in
      let a := mkAccount index2 [] [] "" "" in
      match deriveAccount w a with
      | (a, Some e) => Some (mkWorld (heap s ++ [a]) w (log s), Err e)
      | (a, None) =>
          match pubkeyToAddress w (pubkey a) with
          | Failed msg => Some (mkWorld (heap s ++ [a]) w (log s), Err (EExternal msg))
          | Fine addr =>
              let a := mkAccount (index a) (key a) (pubkey a) addr (representative a) in
              let w := match index_ with
                       | None => set_nextIndex w (wrap32 (nextIndex w + 1))
                       | Some _ => w
                       end in
              match accounts w !! addr with
              | None =>
                  Some (mkWorld (heap s ++ [a]) (set_accounts w (<[addr := l]> (accounts w))) (log s),
                        Ok l)
              | Some _ =>
                  match index_ with
                  | None => NewAccount fuel' None (mkWorld (heap s ++ [a]) w (log s))
                  | Some _ => Some (mkWorld (heap s ++ [a]) w (log s), Ok l)
                  end
              end
          end
      end
  end.

(** [Wallet.GetAccount(address)]. *)
Definition GetAccount (s : World) (address_ : string) : option loc :=
  accounts (wal s) !! address_.

(** The first loop of [ScanForAccounts]: [k] more accounts are created and
    their addresses appended to the batch. *)
Fixpoint probe (fuel : nat) (k : nat) (batch : list string) (s : World)
    : option (World * result (list string)) :=
  match k with
  | O => Some (s, Ok batch)
  | S k' =>
      match NewAccount fuel None s with
      | None => None
      | Some (s', Err e) => Some (s', Err e)
      | Some (s', Ok l) =>
          match heap s' !! l with
          | None => Some (s', Err EPanic)
          | Some a => probe fuel k' (batch ++ [address a]) s'
          end
      end
  end.

(** The second loop of [ScanForAccounts], entered with [i = k - 1]; the
    result is the value of [i] when the loop is left ([-1] when it ran to its
    end).  A missing entry of [balances], of the registry or of the heap is a
    nil dereference. *)
Fixpoint scanDown (k : nat) (batch : list string)
    (balances : gmap string AccountBalance.t) (frontiers : gmap string BlockHash)
    (s : World) : World * result Z :=
  match k with
  | O => (s, Ok (-1))
  | S i =>
      match batch !! i with
      | None => (s, Err EPanic)
      | Some addr =>
          match balances !! addr with
          | None => (s, Err EPanic)
          | Some b =>
              if 0 <? AccountBalance.Pending b then (s, Ok (Z.of_nat i))
              else
                match frontiers !! addr with
                | Some (Some _) => (s, Ok (Z.of_nat i))
                | _ =>
                    match accounts (wal s) !! addr with
                    | None => (s, Err EPanic)
                    | Some l =>
                        match heap s !! l with
                        | None => (s, Err EPanic)
                        | Some a =>
                            let w := set_nextIndex (wal s) (index a) in
                            let w := set_accounts w (delete addr (accounts w)) in
                            scanDown i batch balances frontiers (mkWorld (heap s) w (log s))
                        end
                    end
                end
          end
      end
  end.

(** [Wallet.ScanForAccounts()].  [fuel] bounds the depth of the recursion
    and the retries of each [NewAccount]. *)
Fixpoint ScanForAccounts (fuel : nat) (s : World) : option (World * result unit) :=
  match fuel with
  | O => None
  | S fuel' =>
      match probe fuel' 10 [] s with
      | None => None
      | Some (s, Err e) => Some (s, Err e)
      | Some (s, Ok batch) =>
          let s := mkWorld (heap s) (wal s) (log s ++ [EvAccountsBalances batch]) in
          match RPC_AccountsBalances env batch with
          | Failed msg => Some (s, Err (EExternal msg))
          | Fine balances =>
              let s := mkWorld (heap s) (wal s) (log s ++ [EvAccountsFrontiers batch]) in
              match RPC_AccountsFrontiers env batch with
              | Failed msg => Some (s, Err (EExternal msg))
              | Fine frontiers =>
                  match scanDown 10 batch balances frontiers s with
                  | (s, Err e) => Some (s, Err e)
                  | (s, Ok i) =>
                      if i <? 5 then Some (s, Ok tt)
                      else ScanForAccounts fuel' s
                  end
              end
          end
      end
  end.

End Registry.
End wallet.

(** ** Specification vocabulary and a small ledger for examples *)

Module Spec.
Import Bytes rpc wallet.

(** The account after [if a.representative == "" { a.representative = r }]. *)
Definition cached (a : Account) (r : string) : Account :=
  if decide (representative a = "") then set_representative a r else a.

(** The send block for [link] on top of [frontier], before it is signed. *)
Definition sendBlock_of (a : Account) (frontier : BlockHash) (balance : Z)
    (link : list byte) : Block.t :=
  {| Block.Type_ := "state";
     Block.Account := address a;
     Block.Previous := frontier;
     Block.Representative := representative a;
     Block.Balance := balance;
     Block.Link := Some link;
     Block.Signature := [];
     Block.Work := [] |}.

(** A chain of send blocks built on [frontier] from the balance [balance]:
    each block points at what precedes it, takes the amount of its
    destination from the balance that precedes it, and stays at or above
    zero. *)
Fixpoint chained (env : Env) (frontier : BlockHash) (balance : Z)
    (destinations : list SendDestination) (blocks : list Block.t) : Prop :=
  match destinations, blocks with
  | [], [] => True
  | d :: ds, b :: bs =>
      Block.Previous b = frontier /\
      Block.Balance b = balance - dAmount d /\
      0 <= Block.Balance b /\
      exists h, Block_Hash env b = Fine h /\ chained env (Some h) (Block.Balance b) ds bs
  | _, _ => False
  end.

(** The representative of a receive block: the cached one, else the one the
    ledger reports, else the default. *)
Definition receiveRepresentative (a : Account) (info : AccountInfo.t) : string :=
  if decide (representative a = "") then
    if decide (AccountInfo.Representative info = "") then defaultRepresentative
    else AccountInfo.Representative info
  else representative a.

(** The account after [receivePending] has settled its representative. *)
Definition received (a : Account) (info : AccountInfo.t) : Account :=
  if decide (representative a = "")
  then set_representative a (receiveRepresentative a info)
  else a.

(** The block that [ChangeRep] builds, before it is signed. *)
Definition changeBlock (a : Account) (info : AccountInfo.t) (r : string) : Block.t :=
  {| Block.Type_ := "state";
     Block.Account := address a;
     Block.Previous := AccountInfo.Frontier info;
     Block.Representative := r;
     Block.Balance := AccountInfo.Balance info;
     Block.Link := zeroHash;
     Block.Signature := [];
     Block.Work := [] |}.

(** The address that a wallet derives for an index, when it can. *)
Definition addressOf (env : Env) (w : Wallet) (i : Z) : option string :=
  match deriveAccount env w (mkAccount i [] [] "" "") with
  | (a, None) =>
      match pubkeyToAddress env w (pubkey a) with
      | Fine addr => Some addr
      | Failed _ => None
      end
  | (_, Some _) => None
  end.

(** What a wallet derives from: everything but the counter and the
    registry. *)
Definition same_config (w' w : Wallet) : Prop :=
  isBanano w' = isBanano w /\ seed w' = seed w /\ isBip39 w' = isBip39 w /\
  impl w' = impl w /\ WorkDifficulty w' = WorkDifficulty w /\
  ReceiveWorkDifficulty w' = ReceiveWorkDifficulty w.

(** Every entry of the registry points at an account of the heap that
    carries the address of the entry, the one the wallet derives for its
    index. *)
Definition RegInv (env : Env) (s : World) : Prop :=
  forall addr l, accounts (wal s) !! addr = Some l ->
    exists a, heap s !! l = Some a /\ address a = addr /\
              addressOf env (wal s) (index a) = Some addr.

(** An account that the scan evicts: nothing to receive and no frontier. *)
Definition unused (balances : gmap string AccountBalance.t)
    (frontiers : gmap string BlockHash) (addr : string) : bool :=
  match balances !! addr with
  | None => false
  | Some b =>
      negb (0 <? AccountBalance.Pending b) &&
      match frontiers !! addr with
      | Some (Some _) => false
      | _ => true
      end
  end.

(** The worlds that calls of [NewAccount] lead to from an empty registry. *)
Inductive reachable (env : Env) : World -> Prop :=
  | reach_empty s : accounts (wal s) = ∅ -> reachable env s
  | reach_NewAccount s fuel index_ s' r :
      reachable env s ->
      NewAccount env fuel index_ s = Some (s', r) ->
      reachable env s'.

(** Every entry of the registry points at an account that carries the
    address it is registered under. *)
Definition registered (s : World) (addr : string) (a : Account) : Prop :=
  exists l, accounts (wal s) !! addr = Some l /\ heap s !! l = Some a.

Definition unique_registry (s : World) : Prop :=
  (forall addr l, accounts (wal s) !! addr = Some l ->
     exists a, heap s !! l = Some a /\ address a = addr) /\
  (forall addr1 addr2 a1 a2,
     registered s addr1 a1 -> registered s addr2 a2 ->
     address a1 = address a2 \/ index a1 = index a2 ->
     addr1 = addr2 /\ a1 = a2).

End Spec.

Module Scenario.
Import Bytes rpc wallet.

(** A toy address coding: an address is ["nano_"] (or ["ban_"]) followed by
    the bytes of the public key. *)
Definition addressToPubkey (s : string) : ext (list byte) :=
  if String.prefix "nano_" s
  then Fine (list_byte_of_string (String.substring 5 (String.length s - 5) s))
  else Failed "invalid address".

Definition pubkeyToAddress (pk : list byte) : ext string :=
  Fine ("nano_" ++ string_of_list_byte pk)%string.

Definition pubkeyToBananoAddress (pk : list byte) : ext string :=
  Fine ("ban_" ++ string_of_list_byte pk)%string.

(** A toy key derivation: the key is the seed followed by the index; the
    public key is the key. *)
Definition derive (seed_ : list byte) (i : Z) : ext (list byte) :=
  Fine (seed_ ++ le_bytes 4 i).

(** The block hash: BLAKE2b-256 over the public keys of the account and of
    the representative, the previous hash, the balance and the link. *)
Definition blockHash (b : Block.t) : ext (list byte) :=
  match addressToPubkey (Block.Account b), addressToPubkey (Block.Representative b) with
  | Fine acc, Fine rp =>
      Fine (Blake2b.sum 32 (acc ++ bytes_of (Block.Previous b) ++ rp
                            ++ rev (le_bytes 16 (Block.Balance b))
                            ++ bytes_of (Block.Link b)))
  | Failed msg, _ => Failed msg
  | _, Failed msg => Failed msg
  end.

Definition frontier0 : list byte := repeat x11 32.

(** The balances of a batch on a ledger where only the accounts of
    [pending] have something to receive. *)
Definition balances_of (pending batch : list string) : gmap string AccountBalance.t :=
  list_to_map
    (map (fun addr =>
            (addr, AccountBalance.mk 0 (if decide (addr ∈ pending) then 1 else 0)))
       batch).

(** A ledger on which every account has the confirmed balance 500, the
    frontier [frontier0] and the representative ["nano_rep"], and on which
    the accounts of [pending] have something to receive; there is no remote
    work service, and the local search answers eight zero bytes. *)
Definition ledger (pending : list string) : Env :=
  {| AddressToPubkey := addressToPubkey;
     PubkeyToAddress := pubkeyToAddress;
     PubkeyToBananoAddress := pubkeyToBananoAddress;
     deriveKey := derive;
     deriveBip39Key := derive;
     deriveKeypair := fun k => (k, k, None);
     ed25519_Sign := fun k h => k ++ h;
     Block_Hash := blockHash;
     RPC_AccountInfo := fun _ =>
       Fine (AccountInfo.mk (Some frontier0) "nano_rep" 500);
     RPC_AccountsBalances := fun batch => Fine (balances_of pending batch);
     RPC_AccountsFrontiers := fun _ => Fine ∅;
     RPC_Process := fun b _ =>
       match blockHash b with
       | Fine h => Fine (Some h)
       | Failed msg => Failed msg
       end;
     RPCWork_WorkGenerate := fun _ _ => Failed "no work service";
     pow_Generate := fun _ _ => Fine (repeat x00 8) |}.

Definition wallet0 : Wallet := newWallet [] false.

Definition ledgerWallet : Wallet :=
  mkWallet false [] false 0 ∅ "fffffff800000000" "fffffe0000000000" ledgerImpl.

(** The account of index 0 of [wallet0], as [NewAccount] derives it. *)
Definition account0 : Account :=
  mkAccount 0 (le_bytes 4 0) (le_bytes 4 0) ("nano_" ++ string_of_list_byte (le_bytes 4 0)) "".

Definition world0 : World := mkWorld [] wallet0 [].

(** The address that [wallet0] derives for an index. *)
Definition address_of (i : Z) : string :=
  ("nano_" ++ string_of_list_byte (le_bytes 4 i))%string.

(** The world that a call leaves, [s] itself when the call runs out of
    fuel. *)
Definition after {A} (r : option (World * A)) (s : World) : World :=
  match r with
  | Some (s', _) => s'
  | None => s
  end.

(** [world0] after [NewAccount(&1)], [NewAccount(nil)], [NewAccount(nil)]. *)
Definition world1 : World := after (NewAccount (ledger []) 1 (Some 1) world0) world0.
Definition world2 : World := after (NewAccount (ledger []) 1 None world1) world1.
Definition world3 : World := after (NewAccount (ledger []) 2 None world2) world2.

(** [world1] after a second [NewAccount(&1)]. *)
Definition world1' : World := after (NewAccount (ledger []) 1 (Some 1) world1) world1.

(** The batch of the first probe of [world0] and the world it leaves. *)
Definition batch0 : list string := map address_of [0; 1; 2; 3; 4; 5; 6; 7; 8; 9].
Definition probed (pending : list string) : World :=
  after (probe (ledger pending) 1 10 [] world0) world0.

(** The world after a whole scan of [world0]. *)
Definition scanned (pending : list string) (fuel : nat) : World :=
  after (ScanForAccounts (ledger pending) fuel world0) world0.

(** What the ledger says of an account that was never used, to which 1000
    are on their way from the block [source]. *)
Definition unopened : AccountInfo.t := AccountInfo.mk None "" 1000.
Definition source : BlockHash := Some (repeat x22 32).

(** Three sends that together take the whole balance of 500. *)
Definition three_sends : list SendDestination :=
  [ mkDestination "nano_d1" 100; mkDestination "nano_d2" 250; mkDestination "nano_d3" 150 ].

End Scenario.

(** ** Package [pow]: what the race costs *)

Module PowRace.
Import Bytes Pow.

(** A worker that can still reach the send of the loop body: it is in the
    body, or at the loop condition with [done] not yet set. *)
Definition can_send (done_ : bool) (w : worker) : bool :=
  match wpc w with
  | InBody => true
  | AtCond => negb done_
  | Exited => false
  end.

Fixpoint count_senders (done_ : bool) (ws : list worker) : nat :=
  match ws with
  | [] => O
  | w :: rest => ((if can_send done_ w then 1 else 0) + count_senders done_ rest)%nat
  end.

Definition senders (st : state) : nat := count_senders (done st) (workers st).

(** The buffers sent so far: those waiting in the channel and the one the
    main goroutine has received. *)
Definition sent (st : state) : nat :=
  (length (ch st) + match ret st with Some _ => 1 | None => 0 end)%nat.

(** The loop bodies (one hash each) that worker [i] runs while the threads
    take the steps [sched] from [st]. *)
Fixpoint hashes (data : list byte) (target : Z) (n : nat) (i : nat)
    (sched : list thread) (st : state) : nat :=
  match sched with
  | [] => O
  | t :: rest =>
      ((match t, wpc <$> workers st !! i with
        | Worker j, Some InBody => if decide (j = i) then 1 else 0
        | _, _ => 0
        end) + hashes data target n i rest (step data target n st t))%nat
  end.

(** Two workers on a zero block hash with the threshold 0, which every
    candidate meets: worker 1 has entered the loop body when worker 0 sends
    its first candidate and sets [done]. *)
Definition late : state :=
  exec zero_data 0 2 1 [Worker 1%nat; Worker O; Worker O].

End PowRace.

(** ** [encoding/hex], with its errors *)

Module HexChecked.
Import Bytes.

Inductive error :=
  | InvalidByteError (c : byte)
  | ErrLength.

(** [hex.Decode]: the bytes decoded and the error, as Go returns both.  A
    byte that is no digit is reported before a bad length. *)
Fixpoint decode (src : list byte) : list byte * option error :=
  match src with
  | [] => ([], None)
  | [p] =>
      match Hex.fromHexChar p with
      | None => ([], Some (InvalidByteError p))
      | Some _ => ([], Some ErrLength)
      end
  | p :: q :: rest =>
      match Hex.fromHexChar p, Hex.fromHexChar q with
      | None, _ => ([], Some (InvalidByteError p))
      | Some _, None => ([], Some (InvalidByteError q))
      | Some a, Some b =>
          let '(bs, e) := decode rest in
          (byte_of_Z (Z.lor (Z.shiftl a 4) b) :: bs, e)
      end
  end.

(** The text of the error; the byte of [InvalidByteError] is left out. *)
Definition message (e : error) : string :=
  match e with
  | InvalidByteError _ => "encoding/hex: invalid byte"
  | ErrLength => "encoding/hex: odd length hex string"
  end.

(** [hex.DecodeString]. *)
Definition DecodeString (s : string) : list byte * option error :=
  decode (list_byte_of_string s).

End HexChecked.

(** ** Package [wallet]: sending, receiving and the constructors *)

Module account.
Import Bytes rpc wallet.

(** [rpc.HashToPendingMap], as the loop of [receivePendings] ranges over it:
    the hashes of the pending blocks with their amounts, in the order of the
    iteration, which Go leaves open. *)
Definition HashToPendingMap := list (string * Z).

(** More of the node: the pending blocks of accounts ([count], [threshold]),
    the amount of a block, and the frontier and representative fields of the
    value that [AccountInfo] returns next to an error.  The trace does not
    record the requests for pending blocks and for block amounts. *)
Record Node := mkNode {
  RPC_AccountsPending : list string -> Z -> Z -> ext (gmap string HashToPendingMap);
  RPC_BlockInfo : BlockHash -> ext Z;
  AccountInfo_failed : string -> BlockHash * string
}.

Section Transfers.
Variable env : Env.
Variable node : Node.
Variable w : Wallet.

(** [Account.Send(account, amount)]. *)
Definition Send (account : string) (amount : Z) : M BlockHash :=
  block <- SendBlock env w account amount ;;
  work <- workGenerate env w (bytes_of (Block.Previous block)) ;;
  Process env (set_Work block work) "send".

(** [info, err := a.w.RPC.AccountInfo(a.address)] followed by
    [if err != nil { info.Balance = &rpc.RawAmount{} }]: the error is
    dropped. *)
Definition AccountInfo_or_zero (account : string) : M AccountInfo.t :=
  emit (EvAccountInfo account) ;;;
  ret (match RPC_AccountInfo env account with
       | Fine info => info
       | Failed _ =>
           let '(frontier, representative_) := AccountInfo_failed node account in
           AccountInfo.mk frontier representative_ 0
       end).

(** [info.Balance.Add(&info.Balance.Int, amount)]. *)
Definition credit (info : AccountInfo.t) (amount : Z) : AccountInfo.t :=
  AccountInfo.mk (AccountInfo.Frontier info) (AccountInfo.Representative info)
    (AccountInfo.Balance info + amount).

Definition set_Frontier (info : AccountInfo.t) (frontier : BlockHash) : AccountInfo.t :=
  AccountInfo.mk frontier (AccountInfo.Representative info) (AccountInfo.Balance info).

(** [Account.ReceivePending(link)]. *)
Definition ReceivePending (link : BlockHash) : M BlockHash :=
  a <- get_account ;;
  info <- AccountInfo_or_zero (address a) ;;
  amount <- call (RPC_BlockInfo node link) ;;
  receivePending env w (credit info amount) link.

(** The loop of [Account.receivePendings]. *)
Fixpoint receivePendings_loop (pendings : HashToPendingMap) (info : AccountInfo.t) : M unit :=
  match pendings with
  | [] => ret tt
  | (hash, amount) :: rest =>
      match HexChecked.DecodeString hash with
      | (_, Some e) => fail (EExternal (HexChecked.message e))
      | (link, None) =>
          let info := credit info amount in
          frontier <- receivePending env w info (Some link) ;;
          receivePendings_loop rest (set_Frontier info frontier)
      end
  end.

(** [Account.receivePendings(pendings)]. *)
Definition receivePendings (pendings : HashToPendingMap) : M unit :=
  match pendings with
  | [] => ret tt
  | _ =>
      a <- get_account ;;
      info <- AccountInfo_or_zero (address a) ;;
      receivePendings_loop pendings info
  end.

(** [pendings[a.address]]: the nil map when the account is missing. *)
Definition pendings_of (a : Account) (pendings : gmap string HashToPendingMap)
    : HashToPendingMap :=
  default [] (pendings !! address a).

(** [Account.ReceivePendings(threshold)]. *)
Definition ReceivePendings (threshold : Z) : M unit :=
  a <- get_account ;;
  pendings <- call (RPC_AccountsPending node [address a] (-1) threshold) ;;
  receivePendings (pendings_of a pendings).

(** [Account.ReceiveAndReturnPendings(threshold)]: Go returns the map and
    the error together. *)
Definition ReceiveAndReturnPendings (threshold : Z) (s : St)
    : St * (HashToPendingMap * option error) :=
  match RPC_AccountsPending node [address (acct s)] (-1) threshold with
  | Failed msg => (s, ([], Some (EExternal msg)))
  | Fine pendings =>
      let receivedPendings := pendings_of (acct s) pendings in
      match receivePendings receivedPendings s with
      | (s', Ok _) => (s', (receivedPendings, None))
      | (s', Err e) => (s', (receivedPendings, Some e))
      end
  end.

(** *** The goroutines of [SendMultiple]

    The producer generates the work of the blocks one after the other and
    sends each block on [blocksWithWorkChan], whose capacity is the number
    of destinations, so that the send does not block; on an error it blocks
    on the unbuffered [errChan] until the main goroutine receives.  The main
    goroutine selects between the two channels.  A turn of the loop of the
    producer is one step, and so is a turn of the loop of the main
    goroutine. *)

Inductive producer :=
  | Working (i : nat)        (** about to handle [blocks[i]], or to close the channel *)
  | Offering (e : error)     (** blocked on [errChan <- err] *)
  | Returned.

Record pipeline := mkPipeline {
  blocks : list Block.t;
  prod : producer;
  blocksWithWorkChan : list Block.t;
  closed : bool;
  hashes : list BlockHash;
  out : option (result (list BlockHash));
  store : St
}.

Inductive move :=
  | Produce        (** the producer runs one turn of its loop *)
  | TakeBlock      (** [select] takes [case block, ok := <-blocksWithWorkChan] *)
  | TakeError.     (** [select] takes [case err := <-errChan] *)

Definition step_producer (p : pipeline) : pipeline :=
  match prod p with
  | Working i =>
      match blocks p !! i with
      | None =>
          mkPipeline (blocks p) Returned (blocksWithWorkChan p) true (hashes p) (out p) (store p)
      | Some block =>
          match workGenerate env w (bytes_of (Block.Previous block)) (store p) with
          | (s, Err e) =>
              mkPipeline (blocks p) (Offering e) (blocksWithWorkChan p) (closed p)
                (hashes p) (out p) s
          | (s, Ok work) =>
              mkPipeline (<[i := set_Work block work]> (blocks p)) (Working (S i))
                (blocksWithWorkChan p ++ [set_Work block work]) (closed p)
                (hashes p) (out p) s
          end
      end
  | _ => p
  end.

Definition step_take_block (p : pipeline) : pipeline :=
  match out p, blocksWithWorkChan p with
  | None, block :: rest =>
      match Process env block "send" (store p) with
      | (s, Err e) =>
          mkPipeline (blocks p) (prod p) rest (closed p) (hashes p) (Some (Err e)) s
      | (s, Ok hash) =>
          mkPipeline (blocks p) (prod p) rest (closed p) (hashes p ++ [hash]) None s
      end
  | None, [] =>
      if closed p
      then mkPipeline (blocks p) (prod p) [] true (hashes p) (Some (Ok (hashes p))) (store p)
      else p
  | Some _, _ => p
  end.

Definition step_take_error (p : pipeline) : pipeline :=
  match out p, prod p with
  | None, Offering e =>
      mkPipeline (blocks p) Returned (blocksWithWorkChan p) (closed p) (hashes p)
        (Some (Err e)) (store p)
  | _, _ => p
  end.

Definition step (p : pipeline) (m : move) : pipeline :=
  match m with
  | Produce => step_producer p
  | TakeBlock => step_take_block p
  | TakeError => step_take_error p
  end.

(** The pipeline when the goroutine has just been started. *)
Definition start (blocks_ : list Block.t) (s : St) : pipeline :=
  mkPipeline blocks_ (Working O) [] false [] None s.

(** [Account.SendMultiple(destinations)] under the interleaving [sched]:
    the state of the pipeline after it; [out] is [None] while the main
    goroutine has not returned. *)
Definition SendMultiple (destinations : list SendDestination) (sched : list move)
    (s : St) : pipeline :=
  match SendBlocks env w destinations s with
  | (s', Err e) => mkPipeline [] Returned [] false [] (Some (Err e)) s'
  | (s', Ok blocks_) => fold_left step sched (start blocks_ s')
  end.

End Transfers.

(** The amounts of destinations, added up. *)
Definition total (destinations : list SendDestination) : Z :=
  foldr (fun d acc => dAmount d + acc) 0 destinations.

(** What [SendBlocks] says of the block of a destination. *)
Definition sent_to (env : Env) (a : Account) (d : SendDestination) (b : Block.t) : Prop :=
  Block.Type_ b = "state" /\
  Block.Account b = address a /\
  Block.Representative b = representative a /\
  (exists link, AddressToPubkey env (dAccount d) = Fine link /\ Block.Link b = Some link) /\
  Block.Work b = [] /\
  exists hash,
    Block_Hash env (set_Signature b []) = Fine hash /\
    Block.Signature b = ed25519_Sign env (key a) hash.

(** The blocks that a trace submits, in order, with their subtypes. *)
Definition submitted (tr : list event) : list (Block.t * string) :=
  omap (fun ev => match ev with
                  | EvProcess b subtype => Some (b, subtype)
                  | _ => None
                  end) tr.

(** The receive blocks of an account that pocket [pendings] one after the
    other on top of [frontier], from the balance [balance]: each block adds
    the amount of its pending block to the balance that precedes it, is
    linked to the decoded hash of the pending block, and builds on the hash
    that the node answered for the block before it. *)
Fixpoint drained (env : Env) (a : Account) (frontier : BlockHash) (balance : Z)
    (pendings : HashToPendingMap) (blocks_ : list Block.t) : Prop :=
  match pendings, blocks_ with
  | [], [] => True
  | (hash, amount) :: ps, b :: bs =>
      HexChecked.DecodeString hash = (bytes_of (Block.Link b), None) /\
      is_Some (Block.Link b) /\
      Block.Previous b = match frontier with None => zeroHash | Some f => Some f end /\
      Block.Balance b = balance + amount /\
      Block.Account b = address a /\
      Block.Representative b = representative a /\
      exists h, RPC_Process env b "receive" = Fine h /\
                drained env a h (balance + amount) ps bs
  | _, _ => False
  end.

(** What [receivePendings] takes for the state of the account: the answer
    of the ledger, or the value that a failed call leaves, with the balance
    set to zero. *)
Definition info_or_zero (env : Env) (node : Node) (account : string) : AccountInfo.t :=
  match RPC_AccountInfo env account with
  | Fine info => info
  | Failed _ =>
      AccountInfo.mk (fst (AccountInfo_failed node account))
        (snd (AccountInfo_failed node account)) 0
  end.

(** [b'] is [b] with work that [workGenerate] gave for its previous
    hash. *)
Definition worked (env : Env) (w : Wallet) (b b' : Block.t) : Prop :=
  exists work s1 s2,
    workGenerate env w (bytes_of (Block.Previous b)) s1 = (s2, Ok work) /\
    b' = set_Work b work.

(** The invariant of the pipeline of [SendMultiple] over the blocks
    [blocks0] of [SendBlocks], started on the account [a] with the trace
    [tr0]: the blocks submitted so far, followed by those waiting in the
    channel, are the first blocks of [blocks0], in order, each with its
    work; the hashes collected are the answers of the node for the blocks
    submitted; the channel is closed only after the last block. *)
Definition orderly (env : Env) (w : Wallet) (a : Account) (tr0 : list event)
    (blocks0 : list Block.t) (p : pipeline) : Prop :=
  exists (sent_ : list Block.t) (events : list event),
    let ready := sent_ ++ blocksWithWorkChan p in
    acct (store p) = a /\
    trace (store p) = tr0 ++ events /\
    submitted events = map (fun b => (b, "send")) sent_ /\
    Forall2 (worked env w) (take (length ready) blocks0) ready /\
    blocks p = ready ++ drop (length ready) blocks0 /\
    (length ready <= length blocks0)%nat /\
    match prod p with
    | Working i => i = length ready /\ closed p = false
    | Offering _ => closed p = false
    | Returned => True
    end /\
    (closed p = true -> length ready = length blocks0) /\
    match out p with
    | None => Forall2 (fun b h => RPC_Process env b "send" = Fine h) sent_ (hashes p)
    | Some (Ok hs) =>
        Forall2 (fun b h => RPC_Process env b "send" = Fine h) sent_ hs /\
        length sent_ = length blocks0
    | Some (Err _) => True
    end.

(** The schedule that lets the producer run to its end, then the main
    goroutine take what is in the channel, then the error if one is
    offered. *)
Definition producer_first (n : nat) : list move :=
  repeat Produce (S n) ++ repeat TakeBlock (S n) ++ [TakeError].

End account.


Module registry.
Import Bytes rpc wallet.

Definition set_isBip39 (w : Wallet) (b : bool) : Wallet :=
  mkWallet (isBanano w) (seed w) b (nextIndex w) (accounts w)
    (WorkDifficulty w) (ReceiveWorkDifficulty w) (impl w).

Definition set_impl (w : Wallet) (i : Impl) : Wallet :=
  mkWallet (isBanano w) (seed w) (isBip39 w) (nextIndex w) (accounts w)
    (WorkDifficulty w) (ReceiveWorkDifficulty w) i.

(** [NewWallet(seed)], [NewBananoWallet(seed)]. *)
Definition NewWallet (seed_ : list byte) : Wallet := newWallet seed_ false.
Definition NewBananoWallet (seed_ : list byte) : Wallet := newWallet seed_ true.

Section Bip39.
(** [newBip39Seed(mnemonic, password)]. *)
Variable newBip39Seed : string -> string -> ext (list byte).

Definition NewBip39Wallet (mnemonic password : string) : result Wallet :=
  match newBip39Seed mnemonic password with
  | Failed msg => Err (EExternal msg)
  | Fine seed_ => Ok (set_isBip39 (newWallet seed_ false) true)
  end.

Definition NewBip39BananoWallet (mnemonic password : string) : result Wallet :=
  match newBip39Seed mnemonic password with
  | Failed msg => Err (EExternal msg)
  | Fine seed_ => Ok (set_isBip39 (newWallet seed_ true) true)
  end.

End Bip39.

(** [NewLedgerWallet()]: the seed is the nil slice. *)
Definition NewLedgerWallet : Wallet := set_impl (newWallet [] false) ledgerImpl.

(** [Wallet.GetAccounts()]: the registered pointers, in the order of
    [map_to_list]; Go leaves the order open. *)
Definition GetAccounts (s : World) : list loc :=
  (map_to_list (accounts (wal s))).*2.

(** A wallet that was just made, with nothing allocated and nothing asked. *)
Definition fresh (w : Wallet) : World := mkWorld [] w [].

(** An operation of the account at [l], run in the world: the account is
    read from the heap and written back, the requests go to the log. *)
Definition at_account {A} (l : loc) (m : M A) (s : World) : World * result A :=
  match heap s !! l with
  | None => (s, Err EPanic)
  | Some a =>
      let '(st, r) := m (mkSt a (log s)) in
      (mkWorld (<[l := acct st]> (heap s)) (wal s) (trace st), r)
  end.

Section Receive.
Variable env : Env.
Variable node : account.Node.

(** The second loop of [Wallet.ReceivePendings], over the answer of the
    node in the order [listed] of the iteration; [copy] is
    [accountsMapCopy].  A missing account is a nil receiver, on which
    [receivePendings] returns when there is nothing to receive and panics
    otherwise. *)
Fixpoint receive_listed (listed : list (string * account.HashToPendingMap))
    (copy : gmap string loc) (s : World) : World * result unit :=
  match listed with
  | [] => (s, Ok tt)
  | (account_, pendings) :: rest =>
      match copy !! account_ with
      | None =>
          match pendings with
          | [] => receive_listed rest copy s
          | _ => (s, Err EPanic)
          end
      | Some l =>
          match at_account l (account.receivePendings env node (wal s) pendings) s with
          | (s', Ok _) => receive_listed rest copy s'
          | (s', Err e) => (s', Err e)
          end
      end
  end.

(** [Wallet.ReceivePendings(threshold)]: [keys] is the order in which the
    first loop visits the registry, [order] the order in which the second
    visits the answer of the node; Go leaves both open. *)
Definition ReceivePendings (threshold : Z) (keys : list string)
    (order : gmap string account.HashToPendingMap -> list (string * account.HashToPendingMap))
    (s : World) : World * result unit :=
  match account.RPC_AccountsPending node keys (-1) threshold with
  | Failed msg => (s, Err (EExternal msg))
  | Fine pendings => receive_listed (order pendings) (accounts (wal s)) s
  end.

End Receive.

End registry.

Module Examples.
Import Bytes rpc wallet account.

(** A node that lists two pending blocks of 10 and 20 for the account of
    index 0 of [Scenario.wallet0], knows blocks of the amount 1000, and
    leaves the zero value when [AccountInfo] fails. *)
Definition two_pendings : HashToPendingMap := [("aa", 10); ("bb", 20)].

Definition listed : gmap string HashToPendingMap :=
  {[ address Scenario.account0 := two_pendings ]}.

Definition node0 : Node :=
  {| RPC_AccountsPending := fun _ _ _ => Fine listed;
     RPC_BlockInfo := fun _ => Fine 1000;
     AccountInfo_failed := fun _ => (None, "") |}.

(** [Scenario.ledger] with a ledger that does not know any account. *)
Definition unknown (env : Env) : Env :=
  mkEnv (AddressToPubkey env) (PubkeyToAddress env) (PubkeyToBananoAddress env)
    (deriveKey env) (deriveBip39Key env) (deriveKeypair env) (ed25519_Sign env)
    (Block_Hash env) (fun _ => Failed "Account not found")
    (RPC_AccountsBalances env) (RPC_AccountsFrontiers env) (RPC_Process env)
    (RPCWork_WorkGenerate env) (pow_Generate env).

(** [Scenario.ledger] with a local search that only finds work for the
    frontier [Scenario.frontier0], and a node that accepts blocks or not. *)
Definition fussy (accepting : bool) : Env :=
  let env := Scenario.ledger [] in
  mkEnv (AddressToPubkey env) (PubkeyToAddress env) (PubkeyToBananoAddress env)
    (deriveKey env) (deriveBip39Key env) (deriveKeypair env) (ed25519_Sign env)
    (Block_Hash env) (RPC_AccountInfo env)
    (RPC_AccountsBalances env) (RPC_AccountsFrontiers env)
    (fun b subtype => if accepting then RPC_Process env b subtype else Failed "rejected")
    (RPCWork_WorkGenerate env)
    (fun data _ =>
       if decide (Z_of_byte <$> data = Z_of_byte <$> Scenario.frontier0)
       then Fine (repeat x00 8)
       else Failed "no work found").

Definition two_sends : list SendDestination :=
  [ mkDestination "nano_d1" 100; mkDestination "nano_d2" 250 ].

(** The state and the blocks that [SendBlocks] leaves for [two_sends]. *)
Definition two_blocks : St * list Block.t :=
  match SendBlocks (fussy true) Scenario.wallet0 two_sends (mkSt Scenario.account0 []) with
  | (s, Ok blocks_) => (s, blocks_)
  | (s, Err _) => (s, [])
  end.

Definition no_block : Block.t := Block.mk "" "" None "" 0 None [] [].
Definition first_block : Block.t := nth 0 (snd two_blocks) no_block.
Definition second_block : Block.t := nth 1 (snd two_blocks) no_block.

(** [Scenario.ledger] with a node that does not answer. *)
Definition offline : Env :=
  let env := Scenario.ledger [] in
  mkEnv (AddressToPubkey env) (PubkeyToAddress env) (PubkeyToBananoAddress env)
    (deriveKey env) (deriveBip39Key env) (deriveKeypair env) (ed25519_Sign env)
    (Block_Hash env) (RPC_AccountInfo env)
    (fun _ => Failed "connection refused") (RPC_AccountsFrontiers env) (RPC_Process env)
    (RPCWork_WorkGenerate env) (pow_Generate env).

(** The world that the first probe of [Scenario.world0] leaves there. *)
Definition probed_offline : World :=
  Scenario.after (probe offline 1 10 [] Scenario.world0) Scenario.world0.

(** The world after a scan of [Scenario.world0] on a ledger where the
    account of index 3 has something to receive. *)
Definition scanned3 : World := Scenario.scanned [Scenario.address_of 3] 2.

(** [Scenario.world2] after the wallet has pocketed what [node0] lists. *)
Definition pocketed : World :=
  fst (registry.ReceivePendings (Scenario.ledger []) node0 0
         [Scenario.address_of 1; Scenario.address_of 0] map_to_list Scenario.world2).

End Examples.

(** * Properties *)

(** ** Byte orders and the hash *)

Module BytesFacts.
Import Bytes.

Lemma le_bytes_length n x : length (le_bytes n x) = n.
Proof.
  revert x. induction n as [|n IH]; intros x; simpl; [reflexivity|].
  now rewrite IH.
Qed.

Lemma BigEndian_PutUint64_length x : length (BigEndian_PutUint64 x) = 8%nat.
Proof. unfold BigEndian_PutUint64. now rewrite length_rev, le_bytes_length. Qed.

Lemma rev_BigEndian_PutUint64 x :
  rev (BigEndian_PutUint64 x) = LittleEndian_PutUint64 x.
Proof. unfold BigEndian_PutUint64, LittleEndian_PutUint64. apply rev_involutive. Qed.

Lemma Z_of_byte_range b : 0 <= Z_of_byte b < 256.
Proof. destruct b; unfold Z_of_byte; simpl; lia. Qed.

Lemma le_value_range bs : 0 <= le_value bs < 256 ^ Z.of_nat (length bs).
Proof.
  induction bs as [|b bs IH]; [simpl; lia|].
  cbn [le_value length]. rewrite Nat2Z.inj_succ, Z.pow_succ_r by lia.
  pose proof (Z_of_byte_range b). lia.
Qed.

(** The swap loop of [Generate] reverses the slice: with [pre] and [post]
    already in place, it reverses what lies between them. *)
Lemma insert_middle {A} (l1 l2 : list A) (x y : A) :
  <[length l1 := y]> (l1 ++ x :: l2) = l1 ++ y :: l2.
Proof. induction l1 as [|a l1 IH]; cbn; [reflexivity|]. f_equal. exact IH. Qed.

Lemma lookup_middle {A} (l1 l2 : list A) (x : A) :
  (l1 ++ x :: l2) !! length l1 = Some x.
Proof. induction l1 as [|a l1 IH]; cbn; [reflexivity|exact IH]. Qed.

Lemma swap_loop_rev fuel : forall (mid pre post : list byte),
  (length mid / 2 <= fuel)%nat ->
  swap_loop fuel (length pre) (Nat.pred (length pre + length mid)) (pre ++ mid ++ post)
  = pre ++ rev mid ++ post.
Proof.
  induction fuel as [|fuel IH]; intros mid pre post Hfuel.
  - destruct mid as [|x [|y mid]]; [reflexivity|reflexivity|].
    exfalso. cbn [length] in Hfuel.
    assert (1 <= S (S (length mid)) / 2)%nat by (apply Nat.div_le_lower_bound; lia). lia.
  - cbn [swap_loop].
    destruct mid as [|x mid].
    { cbn [length app rev]. rewrite Nat.add_0_r.
      assert (E : (length pre <? Nat.pred (length pre))%nat = false)
        by (apply Nat.ltb_ge; lia).
      now rewrite E. }
    destruct (exists_last (l := x :: mid)) as (m & y & Hm); [discriminate|].
    destruct m as [|x' mid'].
    { (* a single element *)
      cbn in Hm. injection Hm as <- ->. cbn [length rev app].
      replace (Nat.pred (length pre + 1)) with (length pre) by lia.
      now rewrite Nat.ltb_irrefl. }
    cbn in Hm. injection Hm as <- ->.
    assert (Hj : Nat.pred (length pre + length (x :: mid' ++ [y]))
                 = length (pre ++ x :: mid')).
    { rewrite !length_app. cbn [length]. rewrite length_app. cbn. lia. }
    rewrite Hj.
    assert (Hlt : (length pre <? length (pre ++ x :: mid'))%nat = true).
    { apply Nat.ltb_lt. rewrite length_app. cbn. lia. }
    rewrite Hlt.
    change ((x :: mid' ++ [y]) ++ post) with (x :: (mid' ++ [y]) ++ post).
    rewrite lookup_middle.
    replace (pre ++ x :: (mid' ++ [y]) ++ post)
      with ((pre ++ x :: mid') ++ y :: post)
      by (now rewrite <- !app_assoc).
    rewrite lookup_middle.
    replace ((pre ++ x :: mid') ++ y :: post)
      with (pre ++ x :: (mid' ++ y :: post))
      by (now rewrite <- !app_assoc).
    rewrite insert_middle.
    replace (pre ++ y :: mid' ++ y :: post)
      with ((pre ++ y :: mid') ++ y :: post)
      by (now rewrite <- !app_assoc).
    replace (length (pre ++ x :: mid')) with (length (pre ++ y :: mid'))
      by (rewrite !length_app; reflexivity).
    rewrite insert_middle.
    replace ((pre ++ y :: mid') ++ x :: post)
      with ((pre ++ [y]) ++ mid' ++ (x :: post))
      by (now rewrite <- !app_assoc).
    replace (S (length pre)) with (length (pre ++ [y]))
      by (rewrite length_app; cbn; lia).
    replace (Nat.pred (length (pre ++ y :: mid')))
      with (Nat.pred (length (pre ++ [y]) + length mid'))
      by (rewrite !length_app; cbn; lia).
    rewrite IH.
    + cbn [rev]. rewrite rev_app_distr. cbn. now rewrite <- !app_assoc.
    + assert (Hlen : length (x :: mid' ++ [y]) = (length mid' + 1 * 2)%nat)
        by (cbn [length]; rewrite length_app; cbn [length]; lia).
      rewrite Hlen, Nat.div_add in Hfuel by lia. lia.
Qed.

(** [Generate] returns the buffer of [GenerateCPU] in reverse order. *)
Lemma reverse_in_place_rev (work : list byte) : reverse_in_place work = rev work.
Proof.
  unfold reverse_in_place.
  pose proof (swap_loop_rev (length work / 2) work [] [] (Nat.le_refl _)) as H.
  cbn in H. now rewrite !app_nil_r in H.
Qed.

Lemma LittleEndian_Uint64_8 (b : list byte) :
  length b = 8%nat ->
  exists v, LittleEndian_Uint64 b = Some v /\ 0 <= v < 2 ^ 64.
Proof.
  intros H. unfold LittleEndian_Uint64. rewrite H. simpl.
  eexists; split; [reflexivity|].
  pose proof (le_value_range (firstn 8 b)) as R.
  rewrite firstn_all2 in * by lia. rewrite H in R.
  change (256 ^ Z.of_nat 8) with (2 ^ 64) in R. exact R.
Qed.

End BytesFacts.

Module Blake2bFacts.
Import Bytes Blake2b BytesFacts.

Lemma F_length h block t last : length (F h block t last) = 8%nat.
Proof. unfold F. now rewrite length_map, length_seq. Qed.

Lemma absorb_length fuel h t msg : length (absorb fuel h t msg) = 8%nat.
Proof.
  revert h t msg. induction fuel as [|fuel IH]; intros h t msg; cbn [absorb].
  - apply F_length.
  - destruct (128 <? length msg)%nat; [apply IH | apply F_length].
Qed.

Lemma concat_le_bytes_length (h : list Z) :
  length (concat (map (le_bytes 8) h)) = (8 * length h)%nat.
Proof.
  induction h as [|x h IH]; [reflexivity|].
  cbn [map concat]. rewrite length_app, le_bytes_length, IH. simpl. lia.
Qed.

Lemma sum8_length msg : length (sum8 msg) = 8%nat.
Proof.
  unfold sum8, sum. rewrite length_firstn, concat_le_bytes_length, absorb_length.
  reflexivity.
Qed.

(** The digests of the RFC's test message, full size and 8 bytes. *)
Example sum64_abc :
  sum 64 (list_byte_of_string "abc") =
  map byte_of_Z
    [ 0xba; 0x80; 0xa5; 0x3f; 0x98; 0x1c; 0x4d; 0x0d; 0x6a; 0x27; 0x97; 0xb6; 0x9f; 0x12; 0xf6; 0xe9;
      0x4c; 0x21; 0x2f; 0x14; 0x68; 0x5a; 0xc4; 0xb7; 0x4b; 0x12; 0xbb; 0x6f; 0xdb; 0xff; 0xa2; 0xd1;
      0x7d; 0x87; 0xc5; 0x39; 0x2a; 0xab; 0x79; 0x2d; 0xc2; 0x52; 0xd5; 0xde; 0x45; 0x33; 0xcc; 0x95;
      0x18; 0xd3; 0x8a; 0xa8; 0xdb; 0xf1; 0x92; 0x5a; 0xb9; 0x23; 0x86; 0xed; 0xd4; 0x00; 0x99; 0x23 ].
Proof. vm_compute. reflexivity. Qed.

Example sum8_abc :
  sum8 (list_byte_of_string "abc") =
  map byte_of_Z [ 0xd8; 0xbb; 0x14; 0xd8; 0x33; 0xd5; 0x95; 0x59 ].
Proof. vm_compute. reflexivity. Qed.

End Blake2bFacts.

(** ** Proof of work *)

Module PowFacts.
Import Bytes Pow BytesFacts Blake2bFacts.

#[local] Arguments candidate : simpl never.
#[local] Arguments accepts : simpl never.
#[local] Arguments wrap64 : simpl never.

Lemma candidate_length x : length (candidate x) = 8%nat.
Proof. apply BigEndian_PutUint64_length. Qed.

(** The hash has 8 bytes, so reading it never panics. *)
Lemma hash_value_total data work :
  exists v, hash_value data work = Some v /\ 0 <= v < 2 ^ 64.
Proof. unfold hash_value. apply LittleEndian_Uint64_8, sum8_length. Qed.

Lemma accepts_spec data target work :
  accepts data target work = true <->
  exists v, hash_value data work = Some v /\ target <= v.
Proof.
  unfold accepts. destruct (hash_value data work) as [v|]; split.
  - intros H. exists v. split; [reflexivity|lia].
  - intros (v' & [= <-] & H). lia.
  - discriminate.
  - intros (v' & [=] & _).
Qed.

Lemma wrap64_range z : 0 <= wrap64 z < 2 ^ 64.
Proof. unfold wrap64. apply Z.mod_pos_bound. lia. Qed.

Lemma wrap64_add_l a b : wrap64 (wrap64 a + b) = wrap64 (a + b).
Proof. unfold wrap64. apply Zplus_mod_idemp_l. Qed.

Lemma wrap64_small z : 0 <= z < 2 ^ 64 -> wrap64 z = z.
Proof. unfold wrap64. apply Z.mod_small. Qed.

Section Invariant.
Variable data : list byte.
Variable target : Z.
Variable n : nat.
Variable x0 : Z.

Local Abbreviation counter := (Pow.counter n x0).
Local Abbreviation winning := (Pow.winning data target n x0).
Local Abbreviation Inv := (Pow.Inv data target n x0).

Lemma counter_range i k : 0 <= counter i k < 2 ^ 64.
Proof. apply wrap64_range. Qed.

Lemma counter_next i k : wrap64 (counter i k + Z.of_nat n) = counter i (S k).
Proof. unfold counter. rewrite wrap64_add_l. f_equal. lia. Qed.

Lemma Inv_init : Inv (init n x0).
Proof.
  split; [|split].
  - intros i Hi. cbn in Hi. inversion Hi.
  - intros r Hr. discriminate.
  - intros i w H. cbn in H.
    apply list_lookup_fmap_Some in H as (k & -> & Hk).
    apply lookup_seq in Hk as [-> Hlt]. cbn. split; [exact Hlt|].
    exists O. unfold counter. f_equal. lia.
Qed.

Lemma Inv_step_worker st j : Inv st -> Inv (step_worker data target n st j).
Proof.
  intros HI. pose proof HI as (Hch & Hret & Hx). unfold step_worker.
  destruct (workers st !! j) as [w|] eqn:Hj; [|exact HI].
  pose proof (lookup_lt_Some _ _ _ Hj) as Hlt.
  destruct (Hx j w Hj) as (Hjn & kj & Hkj).
  destruct (wpc w) eqn:Hpc.
  - (* the loop condition *)
    split; [|split]; cbn.
    + intros i Hi. destruct (Hch i Hi) as (wi & Hwi & Hnb & Hd & Hwin).
      destruct (decide (i = j)) as [->|Hne].
      * rewrite list_lookup_insert_eq by exact Hlt.
        eexists; split; [reflexivity|]. cbn.
        rewrite Hd. rewrite Hj in Hwi. injection Hwi as <-.
        split; [discriminate | split; [reflexivity | exact Hwin]].
      * rewrite list_lookup_insert_ne by congruence. eauto.
    + exact Hret.
    + intros i wi Hi. destruct (decide (i = j)) as [->|Hne].
      * rewrite list_lookup_insert_eq in Hi by exact Hlt. injection Hi as <-. cbn. eauto.
      * rewrite list_lookup_insert_ne in Hi by congruence. eauto.
  - (* the loop body *)
    assert (Hnotin : j ∉ ch st).
    { intros Hin. destruct (Hch j Hin) as (wj & Hwj & Hnb & _).
      rewrite Hj in Hwj. injection Hwj as <-. congruence. }
    assert (Hxs : forall i wi,
      (<[j := mkWorker (wrap64 (wx w + Z.of_nat n)) AtCond (candidate (wx w))]> (workers st)) !! i
        = Some wi -> (i < n)%nat /\ exists k, wx wi = counter i k).
    { intros i wi Hi. destruct (decide (i = j)) as [->|Hne].
      - rewrite list_lookup_insert_eq in Hi by exact Hlt. injection Hi as <-. cbn.
        split; [exact Hjn|]. exists (S kj). rewrite Hkj. apply counter_next.
      - rewrite list_lookup_insert_ne in Hi by congruence. eauto. }
    destruct (accepts data target (candidate (wx w))) eqn:Hacc;
      (split; [|split]); cbn; try exact Hret; try exact Hxs.
    + intros i Hi. apply elem_of_app in Hi as [Hi|Hi].
      * destruct (Hch i Hi) as (wi & Hwi & Hnb & Hd & Hwin).
        assert (i <> j) by (intros ->; contradiction).
        rewrite list_lookup_insert_ne by congruence. eauto.
      * apply list_elem_of_singleton in Hi as ->.
        rewrite list_lookup_insert_eq by exact Hlt.
        eexists; split; [reflexivity|]. cbn.
        split; [discriminate | split; [reflexivity|]].
        exists j, kj. rewrite <- Hkj. split; [exact Hjn|]. split; [reflexivity|exact Hacc].
    + intros i Hi. destruct (Hch i Hi) as (wi & Hwi & Hnb & Hd & Hwin).
      assert (i <> j) by (intros ->; contradiction).
      rewrite list_lookup_insert_ne by congruence. eauto.
  - exact HI.
Qed.

Lemma Inv_step_main st : Inv st -> Inv (step_main st).
Proof.
  intros HI. pose proof HI as (Hch & Hret & Hx). unfold step_main.
  destruct (ret st) eqn:Hr; [exact HI|].
  destruct (ch st) as [|i rest] eqn:Hc; [exact HI|].
  split; [|split]; cbn.
  - intros k Hk. apply Hch. now right.
  - intros r Hret'. destruct (Hch i) as (wi & Hwi & _ & _ & Hwin); [now left|].
    rewrite Hwi in Hret'. cbn in Hret'. injection Hret' as <-. exact Hwin.
  - exact Hx.
Qed.

Lemma Inv_step st t : Inv st -> Inv (step data target n st t).
Proof. destruct t; [apply Inv_step_main | apply Inv_step_worker]. Qed.

Lemma Inv_fold sched st : Inv st -> Inv (fold_left (step data target n) sched st).
Proof.
  revert st. induction sched as [|t sched IH]; intros st H; [exact H|].
  cbn. apply IH, Inv_step, H.
Qed.

Lemma Inv_exec sched : Inv (exec data target n x0 sched).
Proof. apply Inv_fold, Inv_init. Qed.

(** Whatever the interleaving, what [GenerateCPU] returns is an accepted
    candidate. *)
Lemma GenerateCPU_winning sched work :
  GenerateCPU data target n x0 sched = Some work -> winning work.
Proof. intros H. destruct (Inv_exec sched) as (_ & Hret & _). now apply Hret. Qed.

(** *** The search returns once a worker reaches an accepted candidate *)

Lemma alone_init : (0 < n)%nat -> alone (init n x0) (counter 0 0).
Proof.
  intros Hn. split; [|repeat split].
  destruct n as [|m]; [lia|]. cbn. eexists; split; [reflexivity|]. cbn.
  split; [|reflexivity]. unfold counter. f_equal. lia.
Qed.

Lemma alone_hit st x :
  alone st x -> accepts data target (candidate x) = true ->
  ret (fold_left (step data target n) [Worker O; Worker O; Main] st) = Some (candidate x).
Proof.
  intros ((w & Hw & <- & Hpc) & Hd & Hc & Hr) Hacc.
  pose proof (lookup_lt_Some _ _ _ Hw) as Hlt.
  cbn. unfold step_worker at 2. rewrite Hw, Hpc, Hd.
  unfold step_worker. cbn. rewrite list_lookup_insert_eq by exact Hlt. cbn.
  rewrite Hacc. unfold step_main. cbn. rewrite Hr, Hc. cbn.
  rewrite list_lookup_insert_eq by (rewrite length_insert; exact Hlt).
  reflexivity.
Qed.

Lemma alone_miss st x :
  alone st x -> accepts data target (candidate x) = false ->
  alone (fold_left (step data target n) [Worker O; Worker O] st) (wrap64 (x + Z.of_nat n)).
Proof.
  intros ((w & Hw & <- & Hpc) & Hd & Hc & Hr) Hacc.
  pose proof (lookup_lt_Some _ _ _ Hw) as Hlt.
  cbn. unfold step_worker at 2. rewrite Hw, Hpc, Hd.
  unfold step_worker. cbn. rewrite list_lookup_insert_eq by exact Hlt. cbn.
  rewrite Hacc. split; [|repeat split; assumption]. cbn.
  rewrite list_lookup_insert_eq by (rewrite length_insert; exact Hlt).
  eexists; split; [reflexivity|]. split; reflexivity.
Qed.

Lemma worker0_finds k : forall st j,
  alone st (counter 0 j) ->
  accepts data target (candidate (counter 0 (j + k))) = true ->
  exists sched work, ret (fold_left (step data target n) sched st) = Some work.
Proof.
  induction k as [|k IH]; intros st j Hal Hacc.
  - replace (j + 0)%nat with j in Hacc by lia.
    exists [Worker O; Worker O; Main], (candidate (counter 0 j)).
    now apply alone_hit.
  - destruct (accepts data target (candidate (counter 0 j))) eqn:Hnow.
    + exists [Worker O; Worker O; Main], (candidate (counter 0 j)).
      now apply alone_hit.
    + pose proof (alone_miss _ _ Hal Hnow) as Hal'. rewrite counter_next in Hal'.
      destruct (IH _ (S j) Hal') as (sched & work & Hret).
      { replace (S j + k)%nat with (j + S k)%nat by lia. exact Hacc. }
      exists ([Worker O; Worker O] ++ sched), work.
      rewrite fold_left_app. exact Hret.
Qed.

(** If some iteration of worker 0 meets the target, there is an
    interleaving under which [GenerateCPU] returns. *)
Lemma GenerateCPU_returns k :
  (0 < n)%nat ->
  accepts data target (candidate (counter 0 k)) = true ->
  exists sched work, GenerateCPU data target n x0 sched = Some work.
Proof.
  intros Hn Hacc. unfold GenerateCPU, exec.
  apply (worker0_finds k _ O); [now apply alone_init | exact Hacc].
Qed.

End Invariant.

Lemma Generate_inv data difficulty n x0 sched work :
  Generate data difficulty n x0 sched = Some (inr work) ->
  exists target buf,
    BigEndian_Uint64 difficulty = Some target /\
    GenerateCPU data target n x0 sched = Some buf /\
    work = rev buf /\ Pow.winning data target n x0 buf.
Proof.
  unfold Generate. intros H.
  destruct (BigEndian_Uint64 difficulty) as [target|]; [|discriminate].
  destruct (GenerateCPU data target n x0 sched) as [buf|] eqn:Hcpu; [|discriminate].
  injection H as <-.
  pose proof (GenerateCPU_winning _ _ _ _ _ _ Hcpu) as Hwin.
  exists target, buf. split; [reflexivity|]. split; [exact Hcpu|]. split; [|exact Hwin].
  destruct Hwin as (i & k & _ & -> & _).
  apply reverse_in_place_rev.
Qed.

(** C3, as amended.  Whatever the number of workers, the random start and
    the interleaving, the work that [Generate(data, difficulty)] returns,
    read in reverse byte order, passes the acceptance test: these reversed
    bytes followed by [data] hash (BLAKE2b, 8-byte digest) to a value that,
    read little-endian, is at least the threshold, the big-endian value of
    [difficulty]. *)
Theorem Generate_reversed_work_accepted data difficulty n x0 sched work :
  Generate data difficulty n x0 sched = Some (inr work) ->
  exists target v,
    BigEndian_Uint64 difficulty = Some target /\
    hash_value data (rev work) = Some v /\ target <= v.
Proof.
  intros H. destruct (Generate_inv _ _ _ _ _ _ H) as (target & buf & Ht & _ & -> & Hwin).
  destruct Hwin as (i & k & _ & -> & Hacc).
  apply accepts_spec in Hacc as (v & Hv & Hle).
  exists target, v. rewrite rev_involutive. auto.
Qed.

Lemma Generate_reversed_work_accepted_witness :
  exists target v,
    BigEndian_Uint64 half_difficulty = Some target /\
    hash_value zero_data (rev (LittleEndian_PutUint64 2)) = Some v /\ target <= v.
Proof.
  apply (Generate_reversed_work_accepted zero_data half_difficulty 1 2 one_round).
  vm_compute. reflexivity.
Defined.

(** C3 as stated fails: with one worker starting from 2 on a zero block
    hash and the threshold [0x8000000000000000], [Generate] returns
    [02 00 00 00 00 00 00 00], and these bytes followed by the data hash to
    [0x51416d21d6b581dc], below the threshold. *)
Lemma Generate_work_as_returned_rejected :
  Generate zero_data half_difficulty 1 2 one_round = Some (inr (LittleEndian_PutUint64 2)) /\
  BigEndian_Uint64 half_difficulty = Some 0x8000000000000000 /\
  hash_value zero_data (LittleEndian_PutUint64 2) = Some 0x51416d21d6b581dc /\
  accepts zero_data 0x8000000000000000 (LittleEndian_PutUint64 2) = false.
Proof. vm_compute. repeat split. Qed.

(** If some iteration of worker 0 meets the threshold, [Generate] returns
    under the interleaving that lets this worker run. *)
Lemma Generate_returns data difficulty target n x0 k :
  (0 < n)%nat ->
  BigEndian_Uint64 difficulty = Some target ->
  accepts data target (candidate (Pow.counter n x0 0 k)) = true ->
  exists sched work, Generate data difficulty n x0 sched = Some (inr work).
Proof.
  intros Hn Ht Hacc.
  destruct (GenerateCPU_returns data target n x0 k Hn Hacc) as (sched & buf & Hcpu).
  exists sched, (reverse_in_place buf). unfold Generate. now rewrite Ht, Hcpu.
Qed.




End PowFacts.

(** ** Send blocks *)

Module AccountFacts.
Import Bytes rpc wallet Spec.

#[local] Arguments cache_representative : simpl never.
#[local] Arguments signBlock : simpl never.

Lemma signBlock_fields env w a b b' :
  signBlock env w a b = Ok b' ->
  exists sig, b' = set_Signature b sig.
Proof.
  unfold signBlock. destruct (impl w); [|discriminate].
  destruct (Block_Hash env b) as [h|msg]; [|discriminate].
  intros [= <-]. eauto.
Qed.

Lemma cached_fields a r :
  index (cached a r) = index a /\ key (cached a r) = key a /\
  pubkey (cached a r) = pubkey a /\ address (cached a r) = address a.
Proof. unfold cached. destruct (decide _); repeat split. Qed.

Lemma cached_representative a r :
  representative (cached a r) = if decide (representative a = "") then r else representative a.
Proof. unfold cached. destruct (decide _); reflexivity. Qed.

Lemma cache_representative_run r a tr :
  cache_representative r (mkSt a tr) = (mkSt (cached a r) tr, Ok tt).
Proof.
  unfold cache_representative, bind, get_account, cached. cbn.
  destruct (decide (representative a = "")); reflexivity.
Qed.

(** [SendBlock], step by step. *)
Lemma SendBlock_run env w account amount a tr :
  SendBlock env w account amount (mkSt a tr) =
  match AddressToPubkey env account with
  | Failed msg => (mkSt a tr, Err (EExternal msg))
  | Fine link =>
      let tr' := tr ++ [EvAccountInfo (address a)] in
      match RPC_AccountInfo env (address a) with
      | Failed msg => (mkSt a tr', Err (EExternal msg))
      | Fine info =>
          let a' := cached a (AccountInfo.Representative info) in
          if AccountInfo.Balance info - amount <? 0
          then (mkSt a' tr', Err EInsufficientFunds)
          else (mkSt a' tr',
                signBlock env w a'
                  (sendBlock_of a' (AccountInfo.Frontier info)
                     (AccountInfo.Balance info - amount) link))
      end
  end.
Proof.
  unfold SendBlock, bind, call, lift, AccountInfo_of, emit, get_account. cbn.
  destruct (AddressToPubkey env account) as [link|msg]; cbn; [|reflexivity].
  destruct (RPC_AccountInfo env (address a)) as [info|msg]; cbn; [|reflexivity].
  rewrite cache_representative_run.
  destruct (AccountInfo.Balance info - amount <? 0); reflexivity.
Qed.




Lemma cached_idem a r : cached (cached a r) r = cached a r.
Proof.
  unfold cached. destruct (decide (representative a = "")) as [He|Hne].
  - cbn. destruct (decide (r = "")) as [->|Hr]; [reflexivity|].
    destruct a; reflexivity.
  - destruct (decide (representative a = "")); [contradiction|reflexivity].
Qed.

(** One turn of the loop of [SendBlocks]. *)
Lemma SendBlocks_loop_cons env w r d rest frontier balance acc a tr :
  SendBlocks_loop env w r (d :: rest) frontier balance acc (mkSt a tr) =
  match AddressToPubkey env (dAccount d) with
  | Failed msg => (mkSt a tr, Err (EExternal msg))
  | Fine link =>
      let a' := cached a r in
      if balance - dAmount d <? 0 then (mkSt a' tr, Err EInsufficientFunds)
      else
        match signBlock env w a' (sendBlock_of a' frontier (balance - dAmount d) link) with
        | Err e => (mkSt a' tr, Err e)
        | Ok block =>
            match Block_Hash env block with
            | Failed msg => (mkSt a' tr, Err (EExternal msg))
            | Fine hash =>
                SendBlocks_loop env w r rest (Some hash) (balance - dAmount d)
                  (acc ++ [block]) (mkSt a' tr)
            end
        end
  end.
Proof.
  cbn [SendBlocks_loop]. unfold bind at 1. unfold call, lift.
  destruct (AddressToPubkey env (dAccount d)) as [link|msg]; cbn [of_ext]; [|reflexivity].
  unfold bind at 1. rewrite cache_representative_run. cbv zeta.
  destruct (balance - dAmount d <? 0); [reflexivity|].
  unfold bind at 1. unfold get_account at 1. cbn [acct].
  unfold bind at 1. fold (sendBlock_of (cached a r) frontier (balance - dAmount d) link).
  destruct (signBlock env w (cached a r) _) as [block|e]; [|reflexivity].
  unfold bind at 1. destruct (Block_Hash env block) as [h|msg]; reflexivity.
Qed.

Lemma signBlock_not_insufficient env w a b :
  signBlock env w a b <> Err EInsufficientFunds.
Proof.
  unfold signBlock. destruct (impl w); [|discriminate].
  destruct (Block_Hash env b); discriminate.
Qed.

(** The loop leaves the trace alone; when it ends with the
    insufficient-funds error the account is the one cached at its first
    turn. *)
Lemma SendBlocks_loop_insufficient env w r dests : forall frontier balance acc a tr s',
  SendBlocks_loop env w r dests frontier balance acc (mkSt a tr) = (s', Err EInsufficientFunds) ->
  s' = mkSt (cached a r) tr.
Proof.
  induction dests as [|d rest IH]; intros frontier balance acc a tr s' H.
  - discriminate.
  - rewrite SendBlocks_loop_cons in H.
    destruct (AddressToPubkey env (dAccount d)) as [link|msg]; [|discriminate].
    cbv zeta in H. destruct (balance - dAmount d <? 0); [now injection H as <-|].
    destruct (signBlock env w _ _) as [block|e] eqn:Hs.
    + destruct (Block_Hash env block) as [h|msg]; [|discriminate].
      apply IH in H. now rewrite cached_idem in H.
    + injection H as <- ->. now apply signBlock_not_insufficient in Hs.
Qed.

(** The blocks of a successful loop extend [acc] by a chain. *)
Lemma SendBlocks_loop_chain env w r dests : forall frontier balance acc a tr s' blocks,
  SendBlocks_loop env w r dests frontier balance acc (mkSt a tr) = (s', Ok blocks) ->
  trace s' = tr /\
  exists new, blocks = acc ++ new /\ chained env frontier balance dests new.
Proof.
  induction dests as [|d rest IH]; intros frontier balance acc a tr s' blocks H.
  - injection H as <- <-. split; [reflexivity|]. exists []. now rewrite app_nil_r.
  - rewrite SendBlocks_loop_cons in H.
    destruct (AddressToPubkey env (dAccount d)) as [link|msg]; [|discriminate].
    cbv zeta in H. destruct (balance - dAmount d <? 0) eqn:Hneg; [discriminate|].
    apply Z.ltb_ge in Hneg.
    destruct (signBlock env w _ _) as [block|e] eqn:Hs; [|discriminate].
    destruct (Block_Hash env block) as [h|msg] eqn:Hh; [|discriminate].
    apply IH in H as (Htr & new & -> & Hchain). split; [exact Htr|].
    exists (block :: new). split; [now rewrite <- app_assoc|].
    apply signBlock_fields in Hs as (sig & ->). cbn [chained].
    cbn in *. repeat split; try lia. eauto.
Qed.

Lemma SendBlocks_run env w dests a tr :
  SendBlocks env w dests (mkSt a tr) =
  let tr' := tr ++ [EvAccountInfo (address a)] in
  match RPC_AccountInfo env (address a) with
  | Failed msg => (mkSt a tr', Err (EExternal msg))
  | Fine info =>
      SendBlocks_loop env w (AccountInfo.Representative info) dests
        (AccountInfo.Frontier info) (AccountInfo.Balance info) [] (mkSt a tr')
  end.
Proof.
  unfold SendBlocks, bind, get_account, AccountInfo_of, emit, call, lift. cbn.
  destruct (RPC_AccountInfo env (address a)); reflexivity.
Qed.

(** *** What a chain says about its blocks, by position *)

Lemma chained_length env frontier balance dests blocks :
  chained env frontier balance dests blocks -> length blocks = length dests.
Proof.
  revert frontier balance blocks.
  induction dests as [|d ds IH]; intros frontier balance [|b bs] H; cbn in *;
    try contradiction; try reflexivity.
  destruct H as (_ & _ & _ & h & _ & H). f_equal. eauto.
Qed.

Lemma chained_nonneg env frontier balance dests blocks b :
  chained env frontier balance dests blocks -> b ∈ blocks -> 0 <= Block.Balance b.
Proof.
  revert frontier balance blocks.
  induction dests as [|d ds IH]; intros frontier balance [|b0 bs] H Hin; cbn in *;
    try contradiction; try (now inversion Hin).
  destruct H as (_ & _ & Hpos & h & _ & H).
  apply elem_of_cons in Hin as [->|Hin]; [exact Hpos|eauto].
Qed.

Lemma chained_next env frontier balance dests blocks i b b' d :
  chained env frontier balance dests blocks ->
  blocks !! i = Some b -> blocks !! S i = Some b' -> dests !! S i = Some d ->
  (exists h, Block_Hash env b = Fine h /\ Block.Previous b' = Some h) /\
  Block.Balance b' = Block.Balance b - dAmount d.
Proof.
  revert frontier balance dests blocks.
  induction i as [|i IH]; intros frontier balance [|d0 ds] [|b0 bs] H Hb Hb' Hd;
    cbn in *; try contradiction; try discriminate.
  - injection Hb as ->. destruct H as (_ & _ & _ & h & Hh & H).
    destruct ds as [|d1 ds], bs as [|b1 bs]; cbn in *; try contradiction; try discriminate.
    injection Hb' as ->. injection Hd as ->. destruct H as (Hprev & Hbal & _).
    split; [eauto | exact Hbal].
  - destruct H as (_ & _ & _ & h & _ & H). eapply IH; eauto.
Qed.

Lemma chained_head env frontier balance dests blocks b d :
  chained env frontier balance dests blocks ->
  blocks !! O = Some b -> dests !! O = Some d ->
  Block.Previous b = frontier /\ Block.Balance b = balance - dAmount d.
Proof.
  destruct dests as [|d0 ds], blocks as [|b0 bs]; cbn; try contradiction; try discriminate.
  intros (Hp & Hb & _) [= ->] [= ->]. auto.
Qed.

(** C2.  The blocks that [SendBlocks(destinations)] returns are as many as
    the destinations; the ledger is asked for the account once, before the
    first block; the first block has the frontier of that answer as its
    previous field, every later block the hash of the block built just
    before it; the balance of each block is the balance that precedes it (the
    confirmed balance for the first block) less the amount of its
    destination, and is never negative. *)
Theorem SendBlocks_chain env w a tr dests s' blocks :
  SendBlocks env w dests (mkSt a tr) = (s', Ok blocks) ->
  exists info,
    RPC_AccountInfo env (address a) = Fine info /\
    trace s' = tr ++ [EvAccountInfo (address a)] /\
    length blocks = length dests /\
    (forall b d, blocks !! O = Some b -> dests !! O = Some d ->
       Block.Previous b = AccountInfo.Frontier info /\
       Block.Balance b = AccountInfo.Balance info - dAmount d) /\
    (forall i b b' d,
       blocks !! i = Some b -> blocks !! S i = Some b' -> dests !! S i = Some d ->
       (exists h, Block_Hash env b = Fine h /\ Block.Previous b' = Some h) /\
       Block.Balance b' = Block.Balance b - dAmount d) /\
    (forall b, b ∈ blocks -> 0 <= Block.Balance b).
Proof.
  intros H. rewrite SendBlocks_run in H. cbv zeta in H.
  destruct (RPC_AccountInfo env (address a)) as [info|msg]; [|discriminate].
  apply SendBlocks_loop_chain in H as (Htr & new & -> & Hchain). cbn [app] in *.
  exists info. split; [reflexivity|]. split; [exact Htr|].
  split; [eapply chained_length; eauto|].
  split; [intros; eapply chained_head; eauto|].
  split; [intros; eapply chained_next; eauto|].
  intros; eapply chained_nonneg; eauto.
Qed.

Lemma SendBlocks_chain_witness :
  exists s' blocks info,
    SendBlocks (Scenario.ledger []) Scenario.wallet0 Scenario.three_sends
      (mkSt Scenario.account0 []) = (s', Ok blocks) /\
    map Block.Balance blocks = [400; 150; 0] /\
    RPC_AccountInfo (Scenario.ledger []) (address Scenario.account0) = Fine info /\
    trace s' = [EvAccountInfo (address Scenario.account0)] /\
    length blocks = 3%nat /\
    (forall b d, blocks !! O = Some b -> Scenario.three_sends !! O = Some d ->
       Block.Previous b = AccountInfo.Frontier info /\
       Block.Balance b = AccountInfo.Balance info - dAmount d) /\
    (forall i b b' d,
       blocks !! i = Some b -> blocks !! S i = Some b' ->
       Scenario.three_sends !! S i = Some d ->
       (exists h, Block_Hash (Scenario.ledger []) b = Fine h /\ Block.Previous b' = Some h) /\
       Block.Balance b' = Block.Balance b - dAmount d) /\
    (forall b, b ∈ blocks -> 0 <= Block.Balance b).
Proof.
  assert (exists s' blocks,
            SendBlocks (Scenario.ledger []) Scenario.wallet0 Scenario.three_sends
              (mkSt Scenario.account0 []) = (s', Ok blocks) /\
            map Block.Balance blocks = [400; 150; 0]) as (s' & blocks & Hrun & Hbal).
  { vm_compute. eexists _, _. split; reflexivity. }
  destruct (SendBlocks_chain _ _ _ _ _ _ _ Hrun) as (info & H).
  exists s', blocks, info. split; [exact Hrun|]. split; [exact Hbal | exact H].
Defined.



End AccountFacts.

(** ** Receive and change blocks *)

Module BlockFacts.
Import Bytes rpc wallet Spec AccountFacts.

#[local] Arguments signBlock : simpl never.
#[local] Arguments generate_with : simpl never.

Lemma generate_with_run env difficulty data a tr :
  generate_with env difficulty data (mkSt a tr) =
  match RPCWork_WorkGenerate env data difficulty with
  | Fine work => (mkSt a (tr ++ [EvWorkGenerate data difficulty]), Ok work)
  | Failed _ =>
      (mkSt a (tr ++ [EvWorkGenerate data difficulty; EvPowGenerate data difficulty]),
       of_ext (pow_Generate env data difficulty))
  end.
Proof.
  unfold generate_with, bind, emit, call, lift, ret. cbn.
  destruct (RPCWork_WorkGenerate env data difficulty); [reflexivity|].
  cbn. rewrite <- app_assoc. reflexivity.
Qed.

(** What the work generation adds to the trace. *)
Lemma generate_with_trace env difficulty data a tr s r :
  generate_with env difficulty data (mkSt a tr) = (s, r) ->
  acct s = a /\
  exists events,
    trace s = tr ++ EvWorkGenerate data difficulty :: events /\
    forall ev, ev ∈ events -> ev = EvPowGenerate data difficulty.
Proof.
  rewrite generate_with_run.
  destruct (RPCWork_WorkGenerate env data difficulty); intros [= <- <-]; cbn;
    (split; [reflexivity|]).
  - exists []. split; [reflexivity|]. intros ev Hev. inversion Hev.
  - exists [EvPowGenerate data difficulty]. split; [reflexivity|].
    intros ev Hev. now apply list_elem_of_singleton in Hev.
Qed.

Lemma Process_run env block subtype a tr :
  Process env block subtype (mkSt a tr) =
  (mkSt a (tr ++ [EvProcess block subtype]), of_ext (RPC_Process env block subtype)).
Proof. reflexivity. Qed.

(** [receivePending], step by step. *)
Lemma receivePending_run env w info link a tr :
  receivePending env w info link (mkSt a tr) =
  let a' := received a info in
  let workHash := match AccountInfo.Frontier info with
                  | None => pubkey a
                  | Some f => f
                  end in
  match signBlock env w a' (receiveBlock a' info link) with
  | Err e => (mkSt a' tr, Err e)
  | Ok signed =>
      match generate_with env (Hex.DecodeString (ReceiveWorkDifficulty w)) workHash
              (mkSt a' tr) with
      | (s1, Err e) => (s1, Err e)
      | (s1, Ok work) => Process env (set_Work signed work) "receive" s1
      end
  end.
Proof.
  unfold receivePending, workGenerateReceive, received, receiveRepresentative.
  unfold bind at 1. unfold get_account at 1. cbn [acct].
  unfold bind at 1.
  destruct (decide (representative a = "")) as [He|Hne].
  - destruct (decide (AccountInfo.Representative info = "")) as [Hi|Hi];
      unfold bind, put_representative, get_account, lift, ret; cbn;
      destruct (signBlock env w _ _); reflexivity.
  - unfold bind, get_account, lift, ret. cbn.
    destruct (signBlock env w _ _); reflexivity.
Qed.

Lemma received_representative a info :
  representative (received a info) = receiveRepresentative a info.
Proof.
  unfold received, receiveRepresentative.
  destruct (decide (representative a = "")); reflexivity.
Qed.

Lemma received_fields a info :
  pubkey (received a info) = pubkey a /\ address (received a info) = address a.
Proof. unfold received. destruct (decide _); split; reflexivity. Qed.



(** [ChangeRep], step by step. *)
Lemma ChangeRep_run env w r a tr :
  ChangeRep env w r (mkSt a tr) =
  let tr1 := tr ++ [EvAccountInfo (address a)] in
  match RPC_AccountInfo env (address a) with
  | Failed msg => (mkSt a tr1, Err (EExternal msg))
  | Fine info =>
      match signBlock env w a (changeBlock a info r) with
      | Err e => (mkSt a tr1, Err e)
      | Ok signed =>
          match generate_with env (Hex.DecodeString (WorkDifficulty w))
                  (bytes_of (AccountInfo.Frontier info)) (mkSt a tr1) with
          | (s1, Err e) => (s1, Err e)
          | (s1, Ok work) =>
              let b := set_Work signed work in
              let tr2 := trace s1 ++ [EvProcess b "change"] in
              match RPC_Process env b "change" with
              | Failed msg => (mkSt (acct s1) tr2, Err (EExternal msg))
              | Fine h => (mkSt (set_representative (acct s1) r) tr2, Ok h)
              end
          end
      end
  end.
Proof.
  unfold ChangeRep, workGenerate, AccountInfo_of.
  unfold bind at 1. unfold get_account at 1. cbn [acct].
  unfold bind at 1. unfold bind at 1. unfold emit at 1. cbn [acct trace].
  unfold call at 1. unfold lift at 1.
  destruct (RPC_AccountInfo env (address a)) as [info|msg]; cbn [of_ext]; [|reflexivity].
  fold (changeBlock a info r).
  unfold bind at 1. unfold lift at 1.
  destruct (signBlock env w a (changeBlock a info r)) as [signed|e]; [|reflexivity].
  unfold bind at 1.
  destruct (generate_with env _ _ _) as [s1 [work|e]]; [|reflexivity].
  unfold bind at 1. destruct s1 as [a1 tr1]. rewrite Process_run. cbn [acct trace].
  destruct (RPC_Process env (set_Work signed work) "change") as [h|msg]; reflexivity.
Qed.


End BlockFacts.

(** ** The registry *)

Module RegistryFacts.
Import Bytes rpc wallet Spec.

Lemma same_config_refl w : same_config w w.
Proof. repeat split. Qed.

Lemma same_config_trans w1 w2 w3 :
  same_config w1 w2 -> same_config w2 w3 -> same_config w1 w3.
Proof. unfold same_config. intuition congruence. Qed.

Lemma deriveAccount_config env w' w a :
  same_config w' w -> deriveAccount env w' a = deriveAccount env w a.
Proof.
  intros (_ & Hs & Hb & Hi & _). unfold deriveAccount. now rewrite Hs, Hb, Hi.
Qed.

Lemma addressOf_config env w' w i :
  same_config w' w -> addressOf env w' i = addressOf env w i.
Proof.
  intros H. unfold addressOf. rewrite (deriveAccount_config _ _ _ _ H).
  unfold pubkeyToAddress. destruct H as (-> & _). reflexivity.
Qed.

Lemma deriveAccount_index env w a a' err :
  deriveAccount env w a = (a', err) -> index a' = index a.
Proof.
  unfold deriveAccount. destruct (impl w).
  - destruct (if isBip39 w then _ else _) as [k|msg]; [|now intros [= <- _]].
    destruct (deriveKeypair env k) as [[pub priv] e]. now intros [= <- _].
  - now intros [= <- _].
Qed.

(** What one call of [NewAccount] does to the world. *)
Lemma NewAccount_spec env fuel : forall index_ s s' r,
  NewAccount env fuel index_ s = Some (s', r) ->
  (exists extra, heap s' = heap s ++ extra) /\
  log s' = log s /\
  same_config (wal s') (wal s) /\
  (is_Some index_ -> nextIndex (wal s') = nextIndex (wal s)) /\
  match r with
  | Err _ => accounts (wal s') = accounts (wal s)
  | Ok l =>
      exists a,
        heap s' !! l = Some a /\
        (length (heap s) <= l)%nat /\
        addressOf env (wal s) (index a) = Some (address a) /\
        (forall i, index_ = Some i -> index a = i) /\
        ((accounts (wal s) !! address a = None /\
          accounts (wal s') = <[address a := l]> (accounts (wal s))) \/
         (is_Some index_ /\ is_Some (accounts (wal s) !! address a) /\
          wal s' = wal s /\ heap s' = heap s ++ [a] /\ l = length (heap s)))
  end.
Proof.
  induction fuel as [|fuel IH]; intros index_ s s' r H; [discriminate|].
  cbn [NewAccount] in H.
  set (i := match index_ with Some i => i | None => nextIndex (wal s) end) in *.
  destruct (deriveAccount env (wal s) (mkAccount i [] [] "" "")) as [a0 [e|]] eqn:Hd.
  { injection H as <- <-. cbn.
    split; [now exists [a0]|]. split; [reflexivity|].
    split; [apply same_config_refl|]. split; reflexivity. }
  pose proof (deriveAccount_index _ _ _ _ _ Hd) as Hidx. cbn in Hidx.
  destruct (pubkeyToAddress env (wal s) (pubkey a0)) as [addr|msg] eqn:Hp.
  2:{ injection H as <- <-. cbn.
      split; [now exists [a0]|]. split; [reflexivity|].
      split; [apply same_config_refl|]. split; reflexivity. }
  set (a := mkAccount (index a0) (key a0) (pubkey a0) addr (representative a0)) in *.
  assert (Haddr : addressOf env (wal s) (index a) = Some (address a)).
  { unfold addressOf. cbn [index a]. rewrite Hidx, Hd, Hp. reflexivity. }
  assert (Hnew : (heap s ++ [a]) !! length (heap s) = Some a).
  { now rewrite lookup_app_r, Nat.sub_diag by lia. }
  destruct index_ as [i0|]; cbn [i] in *.
  - (* an explicit index *)
    destruct (accounts (wal s) !! addr) as [l0|] eqn:Hl.
    + injection H as <- <-. cbn [heap wal log].
      split; [now exists [a]|]. split; [reflexivity|].
      split; [apply same_config_refl|]. split; [reflexivity|].
      exists a. split; [exact Hnew|]. split; [lia|]. split; [exact Haddr|].
      split; [now intros ? [= <-]|].
      right. cbn [address a]. rewrite Hl. repeat split; eauto.
    + injection H as <- <-. cbn [heap wal log].
      split; [now exists [a]|]. split; [reflexivity|].
      split; [repeat split|]. split; [reflexivity|].
      exists a. split; [exact Hnew|]. split; [lia|]. split; [exact Haddr|].
      split; [now intros ? [= <-]|].
      left. split; [exact Hl|reflexivity].
  - (* the next index *)
    cbn [accounts set_nextIndex] in H.
    destruct (accounts (wal s) !! addr) as [l0|] eqn:Hl.
    + apply IH in H as ((extra & Hheap) & Hlog & Hcfg & _ & Hr).
      cbn [heap wal log] in *.
      split; [exists ([a] ++ extra); now rewrite Hheap, <- app_assoc|].
      split; [exact Hlog|]. split; [exact Hcfg|]. split; [intros [? [=]]|].
      destruct r as [l|e]; [|exact Hr].
      destruct Hr as (a1 & Ha1 & Hlen & Hao & _ & Hcase).
      exists a1. split; [exact Ha1|]. rewrite length_app in Hlen. cbn in Hlen.
      split; [lia|]. split; [exact Hao|]. split; [discriminate|].
      destruct Hcase as [Hfresh|([? [=]] & _)]. left. exact Hfresh.
    + injection H as <- <-. cbn [heap wal log].
      split; [now exists [a]|]. split; [reflexivity|].
      split; [repeat split|]. split; [intros [? [=]]|].
      exists a. split; [exact Hnew|]. split; [lia|]. split; [exact Haddr|].
      split; [discriminate|].
      left. split; [exact Hl|reflexivity].
Qed.

Lemma RegInv_NewAccount env fuel index_ s s' r :
  NewAccount env fuel index_ s = Some (s', r) -> RegInv env s -> RegInv env s'.
Proof.
  intros H Hinv. apply NewAccount_spec in H as ((extra & Hheap) & _ & Hcfg & _ & Hr).
  assert (Hold : forall addr l, accounts (wal s) !! addr = Some l ->
            exists a, heap s' !! l = Some a /\ address a = addr /\
                      addressOf env (wal s') (index a) = Some addr).
  { intros addr l Hl. destruct (Hinv addr l Hl) as (a & Ha & Haddr & Hof).
    exists a. rewrite Hheap, (addressOf_config _ _ _ _ Hcfg).
    split; [now apply lookup_app_l_Some|]. split; assumption. }
  destruct r as [l|e].
  - destruct Hr as (a & Ha & _ & Hof & _ & [[Hfresh Hacc]|(_ & _ & Hw & _)]).
    + intros addr l' Hl'. rewrite Hacc in Hl'.
      destruct (decide (address a = addr)) as [<-|Hne].
      * rewrite lookup_insert_eq in Hl'. injection Hl' as <-.
        exists a. rewrite (addressOf_config _ _ _ _ Hcfg). auto.
      * rewrite lookup_insert_ne in Hl' by exact Hne. now apply Hold.
    + intros addr l' Hl'. rewrite Hw in Hl'. now apply Hold.
  - intros addr l' Hl'. rewrite Hr in Hl'. now apply Hold.
Qed.

Lemma RegInv_unique env s : RegInv env s -> unique_registry s.
Proof.
  intros Hinv. split.
  - intros addr l Hl. destruct (Hinv addr l Hl) as (a & Ha & Haddr & _). eauto.
  - intros addr1 addr2 a1 a2 (l1 & Hl1 & Ha1) (l2 & Hl2 & Ha2) Hsame.
    destruct (Hinv _ _ Hl1) as (a1' & Ha1' & Haddr1 & Hof1).
    destruct (Hinv _ _ Hl2) as (a2' & Ha2' & Haddr2 & Hof2).
    rewrite Ha1 in Ha1'. injection Ha1' as <-.
    rewrite Ha2 in Ha2'. injection Ha2' as <-.
    assert (addr1 = addr2) as <-.
    { destruct Hsame as [Hsame|Hsame]; [congruence|].
      rewrite Hsame in Hof1. congruence. }
    split; [reflexivity|]. congruence.
Qed.

Lemma reachable_RegInv env s : reachable env s -> RegInv env s.
Proof.
  induction 1 as [s Hempty|s fuel index_ s' r _ IH Hcall].
  - intros addr l Hl. rewrite Hempty in Hl. discriminate.
  - eapply RegInv_NewAccount; eauto.
Qed.

(** C8.  After any sequence of [NewAccount] calls on a wallet whose
    registry was empty, every entry of the registry points at an account
    that carries the address it is registered under, and two entries whose
    accounts have the same address or the same derivation index are one and
    the same entry. *)
Theorem registry_unique env s : reachable env s -> unique_registry s.
Proof. intros H. apply (RegInv_unique env), reachable_RegInv, H. Qed.

Lemma registry_unique_witness :
  NewAccount (Scenario.ledger []) 1 (Some 1) Scenario.world0 = Some (Scenario.world1, Ok 0%nat) /\
  NewAccount (Scenario.ledger []) 1 None Scenario.world1 = Some (Scenario.world2, Ok 1%nat) /\
  NewAccount (Scenario.ledger []) 2 None Scenario.world2 = Some (Scenario.world3, Ok 3%nat) /\
  map index (heap Scenario.world3) = [1; 0; 1; 2] /\
  size (accounts (wal Scenario.world3)) = 3%nat /\
  unique_registry Scenario.world3.
Proof.
  assert (H1 : NewAccount (Scenario.ledger []) 1 (Some 1) Scenario.world0
               = Some (Scenario.world1, Ok 0%nat)) by (vm_compute; reflexivity).
  assert (H2 : NewAccount (Scenario.ledger []) 1 None Scenario.world1
               = Some (Scenario.world2, Ok 1%nat)) by (vm_compute; reflexivity).
  assert (H3 : NewAccount (Scenario.ledger []) 2 None Scenario.world2
               = Some (Scenario.world3, Ok 3%nat)) by (vm_compute; reflexivity).
  split; [exact H1|]. split; [exact H2|]. split; [exact H3|].
  split; [vm_compute; reflexivity|]. split; [vm_compute; reflexivity|].
  apply (registry_unique (Scenario.ledger [])).
  eapply reach_NewAccount; [|exact H3].
  eapply reach_NewAccount; [|exact H2].
  eapply reach_NewAccount; [|exact H1].
  apply reach_empty. reflexivity.
Defined.

(** With an explicit index [NewAccount] never calls itself: it returns
    whatever the fuel. *)
Lemma NewAccount_explicit_returns env fuel i s :
  exists s' r, NewAccount env (S fuel) (Some i) s = Some (s', r).
Proof.
  cbn [NewAccount].
  destruct (deriveAccount env (wal s) (mkAccount i [] [] "" "")) as [a0 [e|]]; [eauto|].
  destruct (pubkeyToAddress env (wal s) (pubkey a0)) as [addr|msg]; [|eauto].
  destruct (accounts (wal s) !! addr); eauto.
Qed.

(** With no index, it returns at once when the address of [nextIndex] is
    free, and moves [nextIndex] by one, modulo 2^32. *)
Lemma NewAccount_next_free env fuel s addr :
  addressOf env (wal s) (nextIndex (wal s)) = Some addr ->
  accounts (wal s) !! addr = None ->
  exists s',
    NewAccount env (S fuel) None s = Some (s', Ok (length (heap s))) /\
    nextIndex (wal s') = wrap32 (nextIndex (wal s) + 1) /\
    accounts (wal s') = <[addr := length (heap s)]> (accounts (wal s)).
Proof.
  intros Hof Hfree. cbn [NewAccount]. unfold addressOf in Hof.
  destruct (deriveAccount env (wal s) (mkAccount (nextIndex (wal s)) [] [] "" ""))
    as [a0 [e|]]; [discriminate|].
  destruct (pubkeyToAddress env (wal s) (pubkey a0)) as [addr'|msg]; [|discriminate].
  injection Hof as ->. cbn [accounts set_nextIndex]. rewrite Hfree.
  eexists. split; [reflexivity|]. split; reflexivity.
Qed.

(** C9.  [NewAccount] with an explicit index never moves [nextIndex]; when
    the address derived for the index is already registered, it returns,
    without an error, a pointer to a newly allocated account with this index
    and address and an empty representative, which is not the registered
    pointer (it was not allocated before the call), and leaves the wallet
    (registry and [nextIndex]) and the registered account as they were. *)
Theorem NewAccount_explicit_index env fuel i s s' r :
  NewAccount env fuel (Some i) s = Some (s', r) ->
  nextIndex (wal s') = nextIndex (wal s) /\
  forall (addr : string) (l0 : loc),
    addressOf env (wal s) i = Some addr ->
    accounts (wal s) !! addr = Some l0 ->
    exists a,
      r = Ok (length (heap s)) /\
      s' = mkWorld (heap s ++ [a]) (wal s) (log s) /\
      heap s !! length (heap s) = None /\
      heap s' !! length (heap s) = Some a /\
      index a = i /\ address a = addr /\ representative a = "" /\
      forall a0, heap s !! l0 = Some a0 ->
        length (heap s) <> l0 /\ heap s' !! l0 = Some a0.
Proof.
  intros H. split.
  { apply NewAccount_spec in H as (_ & _ & _ & Hn & _). apply Hn. eauto. }
  intros addr l0 Hof Hl0.
  destruct fuel as [|fuel]; [discriminate|]. cbn [NewAccount] in H.
  unfold addressOf in Hof.
  destruct (deriveAccount env (wal s) (mkAccount i [] [] "" "")) as [a0 [e|]] eqn:Hd;
    [discriminate|].
  destruct (pubkeyToAddress env (wal s) (pubkey a0)) as [addr'|msg]; [|discriminate].
  injection Hof as ->. rewrite Hl0 in H. injection H as <- <-.
  pose proof (deriveAccount_index _ _ _ _ _ Hd) as Hidx. cbn in Hidx.
  assert (Hrep : representative a0 = "").
  { revert Hd. unfold deriveAccount. destruct (impl (wal s)); [|discriminate].
    destruct (if isBip39 (wal s) then _ else _) as [k|msg]; [|discriminate].
    destruct (deriveKeypair env k) as [[pub priv] err]. now intros [= <- _]. }
  eexists. split; [reflexivity|]. split; [destruct s; reflexivity|]. cbn [heap].
  split; [now apply lookup_ge_None_2|].
  split; [now rewrite lookup_app_r, Nat.sub_diag by lia|].
  cbn. split; [exact Hidx|]. split; [reflexivity|]. split; [exact Hrep|].
  intros old Hold. pose proof (lookup_lt_Some _ _ _ Hold) as Hlt.
  split; [lia|]. now apply lookup_app_l_Some.
Qed.

Lemma NewAccount_explicit_index_witness :
  NewAccount (Scenario.ledger []) 1 (Some 1) Scenario.world0 = Some (Scenario.world1, Ok 0%nat) /\
  NewAccount (Scenario.ledger []) 1 (Some 1) Scenario.world1 = Some (Scenario.world1', Ok 1%nat) /\
  wal Scenario.world1' = wal Scenario.world1 /\
  accounts (wal Scenario.world1') !! Scenario.address_of 1 = Some 0%nat /\
  address <$> heap Scenario.world1' !! 0%nat = Some (Scenario.address_of 1) /\
  address <$> heap Scenario.world1' !! 1%nat = Some (Scenario.address_of 1) /\
  nextIndex (wal Scenario.world1') = 0.
Proof.
  assert (H1 : NewAccount (Scenario.ledger []) 1 (Some 1) Scenario.world0
               = Some (Scenario.world1, Ok 0%nat)) by (vm_compute; reflexivity).
  assert (H2 : NewAccount (Scenario.ledger []) 1 (Some 1) Scenario.world1
               = Some (Scenario.world1', Ok 1%nat)) by (vm_compute; reflexivity).
  split; [exact H1|]. split; [exact H2|].
  destruct (NewAccount_explicit_index _ _ _ _ _ _ H2) as [Hnext _].
  split; [vm_compute; reflexivity|]. split; [vm_compute; reflexivity|].
  split; [vm_compute; reflexivity|]. split; [vm_compute; reflexivity|].
  rewrite Hnext. vm_compute. reflexivity.
Defined.

End RegistryFacts.

(** ** The gap scan *)

Module ScanFacts.
Import Bytes rpc wallet Spec RegistryFacts.

(** [NewAccount(nil)] returns an account only after it has registered it,
    under an address that was free. *)
Lemma NewAccount_next env fuel s s' (l : loc) :
  NewAccount env fuel None s = Some (s', Ok l) ->
  (exists extra, heap s' = heap s ++ extra) /\
  log s' = log s /\
  same_config (wal s') (wal s) /\
  exists a,
    heap s' !! l = Some a /\
    accounts (wal s) !! address a = None /\
    accounts (wal s') = <[address a := l]> (accounts (wal s)).
Proof.
  intros H. apply NewAccount_spec in H as (Hheap & Hlog & Hcfg & _ & a & Ha & _ & _ & _ & Hc).
  split; [exact Hheap|]. split; [exact Hlog|]. split; [exact Hcfg|].
  exists a. split; [exact Ha|].
  destruct Hc as [Hc|([? [=]] & _)]. exact Hc.
Qed.

(** The batch of a probe: [k] new addresses, all different, all free before
    the probe and registered after it. *)
Lemma probe_spec env fuel k : forall batch0 s s1 batch,
  probe env fuel k batch0 s = Some (s1, Ok batch) ->
  exists new,
    batch = batch0 ++ new /\ length new = k /\ NoDup new /\
    (exists extra, heap s1 = heap s ++ extra) /\
    log s1 = log s /\
    same_config (wal s1) (wal s) /\
    (forall addr, addr ∈ new ->
       accounts (wal s) !! addr = None /\
       exists (l : loc) a, accounts (wal s1) !! addr = Some l /\ heap s1 !! l = Some a) /\
    (forall addr, addr ∉ new -> accounts (wal s1) !! addr = accounts (wal s) !! addr).
Proof.
  induction k as [|k IH]; intros batch0 s s1 batch H; cbn [probe] in H.
  - injection H as <- <-. exists []. rewrite app_nil_r.
    split; [reflexivity|]. split; [reflexivity|]. split; [constructor|].
    split; [exists []; now rewrite app_nil_r|]. split; [reflexivity|].
    split; [apply same_config_refl|].
    split; [intros addr Hin; inversion Hin | reflexivity].
  - destruct (NewAccount env fuel None s) as [[s' [l|e]]|] eqn:Hnew; try discriminate.
    destruct (NewAccount_next _ _ _ _ _ Hnew)
      as ((ex1 & Hheap1) & Hlog1 & Hcfg1 & a & Ha & Hfree & Hacc).
    rewrite Ha in H.
    apply IH in H as (new & -> & Hlen & Hnd & (ex2 & Hheap2) & Hlog2 & Hcfg2 & Hin & Hout).
    assert (Hnotin : address a ∉ new).
    { intros Hi. destruct (Hin _ Hi) as (Hnone & _).
      rewrite Hacc, lookup_insert_eq in Hnone. discriminate. }
    exists (address a :: new).
    split; [now rewrite <- app_assoc|]. split; [cbn; now rewrite Hlen|].
    split; [now constructor|].
    split; [exists (ex1 ++ ex2); now rewrite Hheap2, Hheap1, <- app_assoc|].
    split; [congruence|]. split; [eapply same_config_trans; eauto|].
    split.
    + intros addr Hi. apply elem_of_cons in Hi as [->|Hi].
      * split; [exact Hfree|]. exists l, a.
        rewrite (Hout _ Hnotin), Hacc, lookup_insert_eq. split; [reflexivity|].
        rewrite Hheap2. now apply lookup_app_l_Some.
      * destruct (Hin _ Hi) as (Hnone & l' & a' & Hl' & Ha').
        split; [|eauto]. rewrite Hacc in Hnone.
        destruct (decide (address a = addr)) as [<-|Hne]; [contradiction|].
        now rewrite lookup_insert_ne in Hnone.
    + intros addr Hni. apply not_elem_of_cons in Hni as [Hne Hni].
      rewrite (Hout _ Hni), Hacc. now apply lookup_insert_ne.
Qed.

(** The downward scan stops at an account that has something to receive. *)
Lemma scanDown_stop batch balances frontiers s i addr b :
  batch !! i = Some addr -> balances !! addr = Some b ->
  0 < AccountBalance.Pending b ->
  scanDown (S i) batch balances frontiers s = (s, Ok (Z.of_nat i)).
Proof.
  intros Hi Hb Hp. cbn [scanDown]. rewrite Hi, Hb.
  apply Z.ltb_lt in Hp. now rewrite Hp.
Qed.

(** One unused, registered account is evicted and the scan goes on. *)
Lemma scanDown_step batch balances frontiers s i addr (l : loc) a :
  batch !! i = Some addr -> unused balances frontiers addr = true ->
  accounts (wal s) !! addr = Some l -> heap s !! l = Some a ->
  scanDown (S i) batch balances frontiers s =
  scanDown i batch balances frontiers
    (mkWorld (heap s)
       (set_accounts (set_nextIndex (wal s) (index a)) (delete addr (accounts (wal s))))
       (log s)).
Proof.
  intros Hi Hu Hl Ha. cbn [scanDown]. rewrite Hi. unfold unused in Hu.
  destruct (balances !! addr) as [b|]; [|discriminate].
  apply andb_prop in Hu as [Hp Hf]. apply negb_true_iff in Hp. rewrite Hp.
  destruct (frontiers !! addr) as [[f|]|]; try discriminate; now rewrite Hl, Ha.
Qed.

(** The scan evicts the slots [j .. j + m - 1] when they are unused: what
    is left to scan is the slots below [j], in a world that has lost these
    [m] entries and whose [nextIndex] is the index of the account of slot
    [j]. *)
Lemma scanDown_evicts batch balances frontiers j : forall m s,
  NoDup batch ->
  (j + m <= length batch)%nat ->
  (forall i addr, (j <= i < j + m)%nat -> batch !! i = Some addr ->
     unused balances frontiers addr = true /\
     exists (l : loc) a, accounts (wal s) !! addr = Some l /\ heap s !! l = Some a) ->
  exists s',
    scanDown (j + m) batch balances frontiers s = scanDown j batch balances frontiers s' /\
    heap s' = heap s /\ log s' = log s /\ same_config (wal s') (wal s) /\
    (forall i addr, (j <= i < j + m)%nat -> batch !! i = Some addr ->
       accounts (wal s') !! addr = None) /\
    (forall addr, (forall i, (j <= i < j + m)%nat -> batch !! i <> Some addr) ->
       accounts (wal s') !! addr = accounts (wal s) !! addr) /\
    (m = O -> s' = s) /\
    ((0 < m)%nat ->
       exists addr (l : loc) a,
         batch !! j = Some addr /\ accounts (wal s) !! addr = Some l /\
         heap s !! l = Some a /\ nextIndex (wal s') = index a).
Proof.
  induction m as [|m IH]; intros s Hnd Hlen Hslots.
  - exists s. rewrite Nat.add_0_r. split; [reflexivity|]. split; [reflexivity|].
    split; [reflexivity|]. split; [apply same_config_refl|].
    split; [intros; lia|]. split; [reflexivity|]. split; [reflexivity|lia].
  - destruct (lookup_lt_is_Some_2 batch (j + m)) as [addr Haddr]; [lia|].
    destruct (Hslots (j + m)%nat addr) as (Hu & l & a & Hl & Ha); [lia|exact Haddr|].
    set (s0 := mkWorld (heap s)
                 (set_accounts (set_nextIndex (wal s) (index a))
                    (delete addr (accounts (wal s)))) (log s)).
    assert (Hother : forall i addr', (j <= i < j + m)%nat -> batch !! i = Some addr' ->
              addr' <> addr).
    { intros i addr' Hi Hb ->. pose proof (NoDup_lookup _ _ _ _ Hnd Hb Haddr). lia. }
    destruct (IH s0 Hnd) as (s' & Hscan & Hheap & Hlog & Hcfg & Hgone & Hkept & Hzero & Hnext).
    { lia. }
    { intros i addr' Hi Hb. destruct (Hslots i addr') as (Hu' & l' & a' & Hl' & Ha');
        [lia|exact Hb|]. split; [exact Hu'|]. exists l', a'. split; [|exact Ha'].
      cbn. rewrite lookup_delete_ne; [exact Hl'|].
      intros Heq. symmetry in Heq. exact (Hother i addr' Hi Hb Heq). }
    exists s'. replace (j + S m)%nat with (S (j + m)) by lia.
    rewrite (scanDown_step _ _ _ _ _ _ _ _ Haddr Hu Hl Ha). fold s0.
    split; [exact Hscan|]. split; [exact Hheap|]. split; [exact Hlog|].
    split; [eapply same_config_trans; [exact Hcfg|repeat split]|].
    split.
    { intros i addr' Hi Hb. destruct (decide (i = j + m)%nat) as [->|Hne].
      - rewrite Haddr in Hb. injection Hb as <-.
        rewrite Hkept; [cbn; apply lookup_delete_eq|].
        intros i Hi' Hb'. exact (Hother i addr Hi' Hb' eq_refl).
      - apply (Hgone i); [lia|exact Hb]. }
    split.
    { intros addr' Hno. rewrite Hkept by (intros i Hi; apply Hno; lia).
      cbn. apply lookup_delete_ne. intros Heq. subst addr'.
      apply (Hno (j + m)%nat); [lia|exact Haddr]. }
    split; [discriminate|]. intros _.
    destruct m as [|m'].
    + rewrite (Hzero eq_refl). rewrite Nat.add_0_r in Haddr. exists addr, l, a.
      split; [exact Haddr|]. split; [exact Hl|]. split; [exact Ha|]. reflexivity.
    + destruct Hnext as (addr' & l' & a' & Hb' & Hl' & Ha' & Hn'); [lia|].
      exists addr', l', a'. split; [exact Hb'|]. cbn in Hl'.
      rewrite lookup_delete_ne in Hl'.
      * split; [exact Hl'|]. split; [exact Ha'|exact Hn'].
      * intros Heq. symmetry in Heq. apply (Hother j addr'); [lia|exact Hb'|exact Heq].
Qed.

Lemma forallb_lookup {A} (f : A -> bool) (l : list A) i x :
  forallb f l = true -> l !! i = Some x -> f x = true.
Proof.
  intros H Hi. rewrite forallb_forall in H. apply H.
  apply list_elem_of_In. eapply list_elem_of_lookup_2; eauto.
Qed.

(** [ScanForAccounts] up to the downward scan. *)
Lemma ScanForAccounts_probed env fuel s s1 batch balances frontiers :
  probe env fuel 10 [] s = Some (s1, Ok batch) ->
  RPC_AccountsBalances env batch = Fine balances ->
  RPC_AccountsFrontiers env batch = Fine frontiers ->
  ScanForAccounts env (S fuel) s =
  match scanDown 10 batch balances frontiers
          (mkWorld (heap s1) (wal s1)
             ((log s1 ++ [EvAccountsBalances batch]) ++ [EvAccountsFrontiers batch])) with
  | (s2, Err e) => Some (s2, Err e)
  | (s2, Ok i) => if i <? 5 then Some (s2, Ok tt) else ScanForAccounts env fuel s2
  end.
Proof.
  intros Hp Hb Hf. cbn [ScanForAccounts]. rewrite Hp.
  cbv beta iota zeta. cbn [heap wal log]. rewrite Hb.
  cbv beta iota zeta. cbn [heap wal log]. rewrite Hf. reflexivity.
Qed.

(** C4, as amended.  After a probe of 10 new accounts: if all of them are
    unused, the scan evicts all ten, which leaves the registry as it was
    before the probe, sets [nextIndex] to the index of the first account of
    the batch, and returns without asking the ledger again; if the account of
    slot 7 has something to receive and those of slots 8 and 9 are unused,
    the scan evicts the accounts of slots 9 and 8 and no other, sets
    [nextIndex] to the index of the account of slot 8, and goes on as a new
    scan from there. *)
Theorem ScanForAccounts_gap env fuel s s1 batch balances frontiers :
  probe env fuel 10 [] s = Some (s1, Ok batch) ->
  RPC_AccountsBalances env batch = Fine balances ->
  RPC_AccountsFrontiers env batch = Fine frontiers ->
  let asked := log s ++ [EvAccountsBalances batch; EvAccountsFrontiers batch] in
  (forallb (unused balances frontiers) batch = true ->
   exists s2,
     ScanForAccounts env (S fuel) s = Some (s2, Ok tt) /\
     (forall addr, addr ∈ batch ->
        is_Some (accounts (wal s1) !! addr) /\ accounts (wal s2) !! addr = None) /\
     accounts (wal s2) = accounts (wal s) /\
     (exists addr (l : loc) a,
        batch !! O = Some addr /\ accounts (wal s1) !! addr = Some l /\
        heap s1 !! l = Some a /\ nextIndex (wal s2) = index a) /\
     log s2 = asked) /\
  (forall a7 b7,
     batch !! 7%nat = Some a7 -> balances !! a7 = Some b7 ->
     0 < AccountBalance.Pending b7 ->
     forallb (unused balances frontiers) (drop 8 batch) = true ->
     exists s2,
       ScanForAccounts env (S fuel) s = ScanForAccounts env fuel s2 /\
       (forall i addr, (8 <= i)%nat -> batch !! i = Some addr ->
          is_Some (accounts (wal s1) !! addr) /\ accounts (wal s2) !! addr = None) /\
       (forall i addr, (i < 8)%nat -> batch !! i = Some addr ->
          is_Some (accounts (wal s2) !! addr) /\
          accounts (wal s2) !! addr = accounts (wal s1) !! addr) /\
       (forall addr, addr ∉ batch -> accounts (wal s2) !! addr = accounts (wal s) !! addr) /\
       (exists addr (l : loc) a,
          batch !! 8%nat = Some addr /\ accounts (wal s1) !! addr = Some l /\
          heap s1 !! l = Some a /\ nextIndex (wal s2) = index a) /\
       log s2 = asked).
Proof.
  intros Hprobe Hbal Hfr asked.
  pose proof (ScanForAccounts_probed _ _ _ _ _ _ _ Hprobe Hbal Hfr) as Hscan.
  destruct (probe_spec _ _ _ _ _ _ _ Hprobe)
    as (new & Hbatch & Hlen & Hnd & _ & Hlog & _ & Hin & Hout).
  cbn [app] in Hbatch. subst new.
  set (s1' := mkWorld (heap s1) (wal s1)
                ((log s1 ++ [EvAccountsBalances batch]) ++ [EvAccountsFrontiers batch])) in *.
  assert (Hasked : log s1' = asked).
  { subst asked. cbn. now rewrite Hlog, <- app_assoc. }
  assert (Hreg : forall i addr, batch !! i = Some addr ->
            exists (l : loc) a, accounts (wal s1') !! addr = Some l /\ heap s1' !! l = Some a).
  { intros i addr Hi. apply list_elem_of_lookup_2 in Hi. now destruct (Hin _ Hi). }
  split.
  - (* the whole batch is unused *)
    intros Hall.
    destruct (scanDown_evicts batch balances frontiers 0 10 s1' Hnd)
      as (s2 & Hdown & _ & Hlog2 & _ & Hgone & Hkept & _ & Hnext).
    { lia. }
    { intros i addr _ Hi. split; [exact (forallb_lookup _ _ _ _ Hall Hi) | exact (Hreg _ _ Hi)]. }
    exists s2.
    split; [rewrite Hscan; change (0 + 10)%nat with 10%nat in Hdown; rewrite Hdown; reflexivity|].
    assert (Hnone : forall addr, addr ∈ batch -> accounts (wal s2) !! addr = None).
    { intros addr Ha. apply list_elem_of_lookup_1 in Ha as [i Hi].
      apply (Hgone i); [|exact Hi]. apply lookup_lt_Some in Hi. lia. }
    split.
    { intros addr Ha. split; [|now apply Hnone].
      destruct (Hin _ Ha) as (_ & l & a & Hl & _). eauto. }
    split.
    { apply map_eq. intros addr. destruct (decide (addr ∈ batch)) as [Ha|Ha].
      - rewrite (Hnone _ Ha). symmetry. now destruct (Hin _ Ha).
      - rewrite Hkept; [now apply Hout|].
        intros i _ Hi. apply Ha. eapply list_elem_of_lookup_2; eauto. }
    split; [apply Hnext; lia|]. congruence.
  - (* slot 7 has something to receive *)
    intros a7 b7 H7 Hb7 Hp7 Hall.
    destruct (scanDown_evicts batch balances frontiers 8 2 s1' Hnd)
      as (s2 & Hdown & _ & Hlog2 & _ & Hgone & Hkept & _ & Hnext).
    { lia. }
    { intros i addr Hi Hb. split; [|exact (Hreg _ _ Hb)].
      apply (forallb_lookup _ _ (i - 8) _ Hall). rewrite lookup_drop.
      now replace (8 + (i - 8))%nat with i by lia. }
    exists s2.
    split.
    { rewrite Hscan. change (8 + 2)%nat with 10%nat in Hdown.
      rewrite Hdown, (scanDown_stop _ _ _ _ _ _ _ H7 Hb7 Hp7). reflexivity. }
    split.
    { intros i addr Hi Hb. split.
      - destruct (Hreg _ _ Hb) as (l & a & Hl & _). eauto.
      - apply (Hgone i); [|exact Hb]. apply lookup_lt_Some in Hb. lia. }
    assert (Hsame : forall i addr, (i < 8)%nat -> batch !! i = Some addr ->
              accounts (wal s2) !! addr = accounts (wal s1) !! addr).
    { intros i addr Hi Hb. apply Hkept. intros k Hk Hbk.
      pose proof (NoDup_lookup _ _ _ _ Hnd Hb Hbk). lia. }
    split.
    { intros i addr Hi Hb. split; [|now apply (Hsame i)].
      rewrite (Hsame i) by assumption. destruct (Hreg _ _ Hb) as (l & a & Hl & _). eauto. }
    split.
    { intros addr Ha. rewrite Hkept; [now apply Hout|].
      intros i _ Hi. apply Ha. eapply list_elem_of_lookup_2; eauto. }
    split; [apply Hnext; lia|]. congruence.
Qed.

Lemma ScanForAccounts_gap_witness :
  (ScanForAccounts (Scenario.ledger []) 2 Scenario.world0
     = Some (Scenario.scanned [] 2, Ok tt) /\
   accounts (wal (Scenario.scanned [] 2)) = ∅ /\
   length (log (Scenario.scanned [] 2)) = 2%nat) /\
  (exists s2,
     ScanForAccounts (Scenario.ledger [Scenario.address_of 7]) 2 Scenario.world0
       = ScanForAccounts (Scenario.ledger [Scenario.address_of 7]) 1 s2 /\
     accounts (wal s2) !! Scenario.address_of 9 = None /\
     accounts (wal s2) !! Scenario.address_of 8 = None /\
     is_Some (accounts (wal s2) !! Scenario.address_of 7) /\
     length (log s2) = 2%nat).
Proof.
  split.
  - assert (Hp : probe (Scenario.ledger []) 1 10 [] Scenario.world0
                 = Some (Scenario.probed [], Ok Scenario.batch0))
      by (vm_compute; reflexivity).
    pose proof (ScanForAccounts_gap (Scenario.ledger []) 1 Scenario.world0
                (Scenario.probed []) Scenario.batch0
                (Scenario.balances_of [] Scenario.batch0) ∅
                Hp eq_refl eq_refl) as H.
    cbv zeta in H.
    destruct H as [H _].
    destruct H as (s2 & Hrun & _ & Hacc & _ & Hlog); [vm_compute; reflexivity|].
    assert (Hs2 : s2 = Scenario.scanned [] 2).
    { unfold Scenario.scanned. rewrite Hrun. reflexivity. }
    subst s2. split; [exact Hrun|]. split; [exact Hacc|]. rewrite Hlog. reflexivity.
  - assert (Hp : probe (Scenario.ledger [Scenario.address_of 7]) 1 10 [] Scenario.world0
                 = Some (Scenario.probed [Scenario.address_of 7], Ok Scenario.batch0))
      by (vm_compute; reflexivity).
    pose proof (ScanForAccounts_gap (Scenario.ledger [Scenario.address_of 7]) 1
                Scenario.world0 (Scenario.probed [Scenario.address_of 7]) Scenario.batch0
                (Scenario.balances_of [Scenario.address_of 7] Scenario.batch0) ∅
                Hp eq_refl eq_refl) as H.
    cbv zeta in H. destruct H as [_ H].
    destruct (H (Scenario.address_of 7) (AccountBalance.mk 0 1))
      as (s2 & Hrun & Hgone & Hkept & _ & _ & Hlog);
      [vm_compute; reflexivity | vm_compute; reflexivity | reflexivity
      | vm_compute; reflexivity |].
    exists s2. split; [exact Hrun|].
    split; [apply (Hgone 9%nat); [lia | vm_compute; reflexivity]|].
    split; [apply (Hgone 8%nat); [lia | vm_compute; reflexivity]|].
    split; [apply (Hkept 7%nat); [lia | vm_compute; reflexivity]|].
    rewrite Hlog. reflexivity.
Defined.

(** C4 as stated fails where the whole batch is unused: on a ledger without
    any activity, a scan of an empty wallet ends with an empty registry (all
    ten accounts of the batch are evicted, not five), with [nextIndex] at 0,
    and after a single probe (two requests to the ledger for one batch). *)
Lemma ScanForAccounts_unused_batch_evicted :
  ScanForAccounts (Scenario.ledger []) 2 Scenario.world0
    = Some (Scenario.scanned [] 2, Ok tt) /\
  accounts (wal (Scenario.scanned [] 2)) = ∅ /\
  nextIndex (wal (Scenario.scanned [] 2)) = 0 /\
  map index (heap (Scenario.scanned [] 2)) = [0; 1; 2; 3; 4; 5; 6; 7; 8; 9] /\
  log (Scenario.scanned [] 2)
    = [EvAccountsBalances Scenario.batch0; EvAccountsFrontiers Scenario.batch0] /\
  length Scenario.batch0 = 10%nat.
Proof.
  split; [vm_compute; reflexivity|]. split; [vm_compute; reflexivity|].
  split; [vm_compute; reflexivity|]. split; [vm_compute; reflexivity|].
  split; vm_compute; reflexivity.
Qed.

(** With something to receive on the account of index 7, the scan of an
    empty wallet probes twice and keeps the accounts of the indices 0 to 7. *)
Example ScanForAccounts_pending_at_7 :
  ScanForAccounts (Scenario.ledger [Scenario.address_of 7]) 3 Scenario.world0
    = Some (Scenario.scanned [Scenario.address_of 7] 3, Ok tt) /\
  size (accounts (wal (Scenario.scanned [Scenario.address_of 7] 3))) = 8%nat /\
  nextIndex (wal (Scenario.scanned [Scenario.address_of 7] 3)) = 8 /\
  accounts (wal (Scenario.scanned [Scenario.address_of 7] 3)) !! Scenario.address_of 7
    = Some 7%nat /\
  accounts (wal (Scenario.scanned [Scenario.address_of 7] 3)) !! Scenario.address_of 8 = None /\
  length (log (Scenario.scanned [Scenario.address_of 7] 3)) = 4%nat.
Proof.
  split; [vm_compute; reflexivity|]. split; [vm_compute; reflexivity|].
  split; [vm_compute; reflexivity|]. split; [vm_compute; reflexivity|].
  split; vm_compute; reflexivity.
Qed.

End ScanFacts.

Module PowRaceFacts.
Import Bytes Pow PowRace BytesFacts PowFacts.

#[local] Arguments candidate : simpl never.
#[local] Arguments accepts : simpl never.
#[local] Arguments wrap64 : simpl never.
#[local] Arguments can_send : simpl never.

(** *** The channel never holds more than [n] buffers *)

Lemma count_senders_insert d : forall (l : list worker) i w w',
  l !! i = Some w ->
  (count_senders d (<[i := w']> l) + (if can_send d w then 1 else 0)
   = count_senders d l + (if can_send d w' then 1 else 0))%nat.
Proof.
  induction l as [|v l IH]; intros [|i] w w' H; simpl in *; try discriminate.
  - injection H as ->. destruct (can_send d w), (can_send d w'); lia.
  - specialize (IH _ _ w' H).
    destruct (can_send d v), (can_send d w), (can_send d w'); lia.
Qed.

Lemma count_senders_done (l : list worker) :
  (count_senders true l <= count_senders false l)%nat.
Proof.
  induction l as [|w l IH]; cbn; [lia|].
  unfold can_send. destruct (wpc w); cbn; lia.
Qed.

Lemma count_senders_le d (l : list worker) :
  (count_senders true l <= count_senders d l)%nat.
Proof. destruct d; [lia | apply count_senders_done]. Qed.

Lemma count_senders_fresh (f : nat -> worker) (l : list nat) :
  (forall i, wpc (f i) = AtCond) -> count_senders false (map f l) = length l.
Proof.
  intros Hf. induction l as [|i l IH]; [reflexivity|].
  cbn [map count_senders length]. unfold can_send at 1. rewrite Hf, IH. reflexivity.
Qed.

Lemma senders_init n x0 : senders (init n x0) = n.
Proof.
  unfold senders, init. cbn [workers done].
  rewrite count_senders_fresh by reflexivity. apply length_seq.
Qed.

Section Budget.
Variable data : list byte.
Variable target : Z.
Variable n : nat.
Variable x0 : Z.

Lemma budget_step st t :
  (senders (step data target n st t) + sent (step data target n st t)
   <= senders st + sent st)%nat.
Proof.
  destruct t as [|i]; cbn [step].
  - unfold step_main. destruct (ret st) eqn:Hr; [lia|].
    destruct (ch st) as [|j rest] eqn:Hc; [lia|].
    unfold senders, sent. cbn [workers done ch ret]. rewrite Hr, Hc. cbn [length].
    destruct (wbuf <$> workers st !! j); lia.
  - unfold step_worker. destruct (workers st !! i) as [w|] eqn:Hw; [|lia].
    destruct (wpc w) eqn:Hpc.
    + unfold senders, sent. cbn [workers done ch ret].
      pose proof (count_senders_insert (done st) _ _ _
        (mkWorker (wx w) (if done st then Exited else InBody) (wbuf w)) Hw) as H.
      unfold can_send in H. cbn [wpc] in H. rewrite Hpc in H.
      destruct (done st); cbn in H; lia.
    + destruct (accepts data target (candidate (wx w))).
      * unfold senders, sent. cbn [workers done ch ret]. rewrite length_app. cbn [length].
        pose proof (count_senders_insert true _ _ _
          (mkWorker (wrap64 (wx w + Z.of_nat n)) AtCond (candidate (wx w))) Hw) as H.
        unfold can_send in H. cbn [wpc] in H. rewrite Hpc in H. cbn in H.
        pose proof (count_senders_le (done st) (workers st)). lia.
      * unfold senders, sent. cbn [workers done ch ret].
        pose proof (count_senders_insert (done st) _ _ _
          (mkWorker (wrap64 (wx w + Z.of_nat n)) AtCond (candidate (wx w))) Hw) as H.
        unfold can_send in H. cbn [wpc] in H. rewrite Hpc in H.
        destruct (done st); cbn in H; lia.
    + lia.
Qed.

Lemma budget_fold sched st :
  (senders (fold_left (step data target n) sched st)
   + sent (fold_left (step data target n) sched st) <= senders st + sent st)%nat.
Proof.
  revert st. induction sched as [|t sched IH]; intros st; [cbn; lia|].
  cbn [fold_left]. pose proof (IH (step data target n st t)).
  pose proof (budget_step st t). lia.
Qed.

(** X1.  Whatever the interleaving, the buffers sent (waiting in the channel or
    received by the main goroutine) and the workers that can still send are
    at most [n] together: the channel, made with capacity [n], never holds
    more than [n] buffers, so no send blocks. *)
Theorem channel_within_capacity sched :
  (length (ch (exec data target n x0 sched)) <= n)%nat /\
  (sent (exec data target n x0 sched) + senders (exec data target n x0 sched) <= n)%nat.
Proof.
  pose proof (budget_fold sched (init n x0)) as H.
  rewrite senders_init in H. unfold exec.
  assert (Hs : sent (init n x0) = O) by reflexivity. rewrite Hs in H.
  split; [|lia]. unfold sent in H. lia.
Qed.

(** *** Cancellation *)

Lemma done_step st t : done st = true -> done (step data target n st t) = true.
Proof.
  intros Hd. destruct t as [|i]; cbn [step].
  - unfold step_main. destruct (ret st); [exact Hd|]. destruct (ch st); exact Hd.
  - unfold step_worker. destruct (workers st !! i) as [w|]; [|exact Hd].
    destruct (wpc w); [exact Hd| |exact Hd].
    destruct (accepts data target (candidate (wx w))); [reflexivity|exact Hd].
Qed.

(** The program counter of worker [i] after a step, when [done] is set. *)
Lemma pc_step st t i :
  done st = true ->
  (wpc <$> workers st !! i) <> Some InBody ->
  (wpc <$> workers (step data target n st t) !! i) <> Some InBody.
Proof.
  intros Hd Hpc. destruct t as [|j]; cbn [step].
  - unfold step_main. destruct (ret st); [exact Hpc|]. destruct (ch st); exact Hpc.
  - unfold step_worker. destruct (workers st !! j) as [w|] eqn:Hw; [|exact Hpc].
    pose proof (lookup_lt_Some _ _ _ Hw) as Hlt.
    destruct (decide (j = i)) as [->|Hne].
    + rewrite Hw in Hpc. cbn in Hpc.
      destruct (wpc w) eqn:E; [|congruence|rewrite Hw; cbn; rewrite E; discriminate].
      cbn [workers]. rewrite list_lookup_insert_eq by exact Hlt. cbn. rewrite Hd. discriminate.
    + destruct (wpc w); [| |exact Hpc].
      * cbn [workers]. now rewrite list_lookup_insert_ne by exact Hne.
      * destruct (accepts data target (candidate (wx w))); cbn [workers];
          now rewrite list_lookup_insert_ne by exact Hne.
Qed.

Lemma pc_body_step st i :
  (wpc <$> workers st !! i) = Some InBody ->
  (wpc <$> workers (step data target n st (Worker i)) !! i) <> Some InBody.
Proof.
  intros Hpc. cbn [step]. unfold step_worker.
  destruct (workers st !! i) as [w|] eqn:Hw; [|discriminate].
  pose proof (lookup_lt_Some _ _ _ Hw) as Hlt.
  cbn in Hpc. injection Hpc as Hpc. rewrite Hpc.
  destruct (accepts data target (candidate (wx w))); cbn [workers];
    rewrite list_lookup_insert_eq by exact Hlt; discriminate.
Qed.

Lemma hashes_quiet i sched : forall st,
  done st = true -> (wpc <$> workers st !! i) <> Some InBody ->
  hashes data target n i sched st = O.
Proof.
  induction sched as [|t sched IH]; intros st Hd Hpc; [reflexivity|].
  cbn [hashes]. rewrite (IH _ (done_step _ t Hd) (pc_step _ t _ Hd Hpc)).
  destruct t as [|j]; [reflexivity|].
  destruct (wpc <$> workers st !! i) as [[]|]; try reflexivity. congruence.
Qed.


(** *** The buffer that was sent *)

Lemma wbuf_step st t i :
  done st = true -> (wpc <$> workers st !! i) <> Some InBody ->
  wbuf <$> workers (step data target n st t) !! i = wbuf <$> workers st !! i.
Proof.
  intros Hd Hpc. destruct t as [|j]; cbn [step].
  - unfold step_main. destruct (ret st); [reflexivity|]. destruct (ch st); reflexivity.
  - unfold step_worker. destruct (workers st !! j) as [w|] eqn:Hw; [|reflexivity].
    pose proof (lookup_lt_Some _ _ _ Hw) as Hlt.
    destruct (decide (j = i)) as [->|Hne].
    + rewrite Hw in Hpc |- *. cbn in Hpc.
      destruct (wpc w) eqn:E; [|congruence|rewrite Hw; reflexivity].
      cbn [workers]. rewrite list_lookup_insert_eq by exact Hlt. reflexivity.
    + destruct (wpc w); [| |reflexivity].
      * cbn [workers]. now rewrite list_lookup_insert_ne by exact Hne.
      * destruct (accepts data target (candidate (wx w))); cbn [workers];
          now rewrite list_lookup_insert_ne by exact Hne.
Qed.

Lemma wbuf_fold i sched : forall st,
  done st = true -> (wpc <$> workers st !! i) <> Some InBody ->
  wbuf <$> workers (fold_left (step data target n) sched st) !! i = wbuf <$> workers st !! i.
Proof.
  induction sched as [|t sched IH]; intros st Hd Hpc; [reflexivity|].
  cbn [fold_left]. rewrite (IH _ (done_step _ t Hd) (pc_step _ t _ Hd Hpc)).
  now apply wbuf_step.
Qed.

(** X3.  A worker whose buffer is in the channel never writes to it again,
    whatever the threads do afterwards: the slice that the main goroutine
    receives, and that [Generate] reverses in place, stays the accepted
    candidate. *)
Theorem sent_buffer_is_final i sched sched' :
  i ∈ ch (exec data target n x0 sched) ->
  exists buf,
    wbuf <$> workers (exec data target n x0 sched) !! i = Some buf /\
    wbuf <$> workers (exec data target n x0 (sched ++ sched')) !! i = Some buf /\
    winning data target n x0 buf.
Proof.
  intros Hi. destruct (Inv_exec data target n x0 sched) as (Hch & _ & _).
  destruct (Hch i Hi) as (w & Hw & Hpc & Hd & Hwin).
  exists (wbuf w). unfold exec in *. rewrite fold_left_app.
  rewrite (wbuf_fold i sched' _ Hd) by (rewrite Hw; cbn; congruence).
  rewrite Hw. auto.
Qed.

(** *** The candidates of the workers *)

(** X4.  In their first [2^64 / n] iterations no two workers, and no two
    iterations of a worker, hash the same candidate. *)
Theorem counters_disjoint i j k k' :
  (i < n)%nat -> (j < n)%nat ->
  Z.of_nat (S k) * Z.of_nat n <= 2 ^ 64 ->
  Z.of_nat (S k') * Z.of_nat n <= 2 ^ 64 ->
  i <> j \/ k <> k' ->
  counter n x0 i k <> counter n x0 j k'.
Proof.
  intros Hi Hj Hk Hk' Hne H. unfold counter, wrap64 in H.
  set (A := Z.of_nat i + Z.of_nat k * Z.of_nat n) in *.
  set (B := Z.of_nat j + Z.of_nat k' * Z.of_nat n) in *.
  assert (HA : 0 <= A < 2 ^ 64) by (subst A; nia).
  assert (HB : 0 <= B < 2 ^ 64) by (subst B; nia).
  assert (E : A = B).
  { replace (x0 + Z.of_nat i + Z.of_nat k * Z.of_nat n) with (x0 + A) in H by (subst A; lia).
    replace (x0 + Z.of_nat j + Z.of_nat k' * Z.of_nat n) with (x0 + B) in H by (subst B; lia).
    assert (Hm : (A - B) mod 2 ^ 64 = 0).
    { replace (A - B) with ((x0 + A) - (x0 + B)) by lia.
      rewrite Zminus_mod, H, Z.sub_diag. reflexivity. }
    apply Z.mod_divide in Hm; [|lia]. destruct Hm as [q Hq]. nia. }
  subst A B.
  assert (Hkk : Z.of_nat k = Z.of_nat k') by nia.
  lia.
Qed.

End Budget.

Lemma channel_and_senders_example :
  senders late = 1%nat /\ sent late = 1%nat.
Proof. vm_compute. split; reflexivity. Qed.


Lemma sent_buffer_is_final_witness :
  exists buf,
    wbuf <$> workers (exec zero_data 0 1 1 [Worker O; Worker O]) !! O = Some buf /\
    wbuf <$> workers (exec zero_data 0 1 1 ([Worker O; Worker O] ++ [Worker O; Main; Worker O])) !! O
      = Some buf /\
    winning zero_data 0 1 1 buf.
Proof.
  apply (sent_buffer_is_final zero_data 0 1 1 O [Worker O; Worker O] [Worker O; Main; Worker O]).
  vm_compute. left.
Defined.

Lemma counters_disjoint_witness :
  counter 4 (2 ^ 64 - 1) 0 1 = 3 /\ counter 4 (2 ^ 64 - 1) 3 0 = 2 /\
  counter 4 (2 ^ 64 - 1) 0 1 <> counter 4 (2 ^ 64 - 1) 3 0.
Proof.
  split; [reflexivity|]. split; [reflexivity|].
  apply (counters_disjoint 4 (2 ^ 64 - 1) 0 3 1 0); [lia | lia | lia | lia | left; lia].
Defined.

(** *** The difficulty *)

Lemma decode_length : forall (m : nat) (src : list byte),
  (length src <= m)%nat -> (2 * length (Hex.decode src) <= length src)%nat.
Proof.
  induction m as [|m IH]; intros src Hm.
  - destruct src; [cbn; lia | cbn in Hm; lia].
  - destruct src as [|p [|q rest]]; [cbn; lia | cbn; lia |].
    cbn [Hex.decode].
    destruct (Hex.fromHexChar p), (Hex.fromHexChar q); cbn [length]; try lia.
    assert (length rest <= m)%nat by (cbn in Hm; lia).
    specialize (IH rest H). lia.
Qed.

Lemma list_byte_of_string_length s :
  length (list_byte_of_string s) = String.length s.
Proof.
  unfold list_byte_of_string.
  induction s as [|c s IH]; [reflexivity|]. cbn. now rewrite IH.
Qed.



End PowRaceFacts.

(** ** Sending *)

Module SendFacts.
Import Bytes rpc wallet Spec account AccountFacts BlockFacts.

#[local] Arguments signBlock : simpl never.
#[local] Arguments generate_with : simpl never.
#[local] Arguments cache_representative : simpl never.

(** [Send], step by step. *)
Lemma Send_run env w account amount s :
  Send env w account amount s =
  match SendBlock env w account amount s with
  | (s1, Err e) => (s1, Err e)
  | (s1, Ok block) =>
      match generate_with env (Hex.DecodeString (WorkDifficulty w))
              (bytes_of (Block.Previous block)) s1 with
      | (s2, Err e) => (s2, Err e)
      | (s2, Ok work) => Process env (set_Work block work) "send" s2
      end
  end.
Proof.
  unfold Send, workGenerate. unfold bind at 1.
  destruct (SendBlock env w account amount s) as [s1 [block|e]]; [|reflexivity].
  unfold bind at 1. destruct (generate_with env _ _ s1) as [s2 [work|e]]; reflexivity.
Qed.



(** X7.  When the amount is not covered, [Send] stops after the answer of the
    ledger: it asks for no work and submits nothing. *)
Theorem Send_without_funds env w account amount a tr link info :
  AddressToPubkey env account = Fine link ->
  RPC_AccountInfo env (address a) = Fine info ->
  AccountInfo.Balance info < amount ->
  Send env w account amount (mkSt a tr) =
  (mkSt (cached a (AccountInfo.Representative info)) (tr ++ [EvAccountInfo (address a)]),
   Err EInsufficientFunds).
Proof.
  intros Hl Hi Hlt. rewrite Send_run, SendBlock_run, Hl, Hi. cbv zeta.
  assert (E : (AccountInfo.Balance info - amount <? 0) = true) by (apply Z.ltb_lt; lia).
  now rewrite E.
Qed.

Lemma Send_without_funds_witness :
  Send (Scenario.ledger []) Scenario.wallet0 "nano_dest" 501 (mkSt Scenario.account0 []) =
  (mkSt (cached Scenario.account0 "nano_rep") ([] ++ [EvAccountInfo (address Scenario.account0)]),
   Err EInsufficientFunds).
Proof.
  apply (Send_without_funds (Scenario.ledger []) Scenario.wallet0 "nano_dest" 501
           Scenario.account0 [] (list_byte_of_string "dest")
           (AccountInfo.mk (Some Scenario.frontier0) "nano_rep" 500)).
  - reflexivity.
  - reflexivity.
  - cbn. lia.
Defined.

(** *** The cached representative *)

Lemma cached_kept a r : representative a <> "" -> cached a r = a.
Proof. intros H. unfold cached. destruct (decide (representative a = "")); congruence. Qed.

Lemma received_kept a info : representative a <> "" -> received a info = a.
Proof. intros H. unfold received. destruct (decide (representative a = "")); congruence. Qed.

Lemma SendBlocks_loop_acct env w r dests : forall frontier balance acc a tr,
  acct (fst (SendBlocks_loop env w r dests frontier balance acc (mkSt a tr))) = a \/
  acct (fst (SendBlocks_loop env w r dests frontier balance acc (mkSt a tr))) = cached a r.
Proof.
  induction dests as [|d rest IH]; intros frontier balance acc a tr; [now left|].
  rewrite SendBlocks_loop_cons.
  destruct (AddressToPubkey env (dAccount d)) as [link|msg]; [|now left].
  cbv zeta. destruct (balance - dAmount d <? 0); [now right|].
  destruct (signBlock env w _ _) as [block|e]; [|now right].
  destruct (Block_Hash env block) as [h|msg]; [|now right].
  right. destruct (IH (Some h) (balance - dAmount d) (acc ++ [block]) (cached a r) tr) as [H|H];
    rewrite H; [reflexivity | apply cached_idem].
Qed.

Lemma SendBlock_keeps_representative env w a tr account amount :
  representative a <> "" ->
  acct (fst (SendBlock env w account amount (mkSt a tr))) = a /\
  forall block, snd (SendBlock env w account amount (mkSt a tr)) = Ok block ->
    Block.Representative block = representative a.
Proof.
  intros Hrep. rewrite SendBlock_run.
  destruct (AddressToPubkey env account) as [link|msg]; [|split; [reflexivity|discriminate]].
  cbv zeta. destruct (RPC_AccountInfo env (address a)) as [info|msg];
    [|split; [reflexivity|discriminate]].
  rewrite (cached_kept a _ Hrep).
  destruct (AccountInfo.Balance info - amount <? 0); [split; [reflexivity|discriminate]|].
  split; [reflexivity|]. cbn [snd]. intros block Hs.
  apply signBlock_fields in Hs as (sig & ->). reflexivity.
Qed.

(** X8.  An account that has a representative keeps it: [SendBlock],
    [SendBlocks], [Send] and [receivePending] leave the account as it is,
    whatever the ledger reports, and the block that [SendBlock] returns
    carries the representative of the account. *)
Theorem representative_is_kept env w a tr :
  representative a <> "" ->
  (forall account amount,
     acct (fst (SendBlock env w account amount (mkSt a tr))) = a /\
     acct (fst (Send env w account amount (mkSt a tr))) = a /\
     forall block, snd (SendBlock env w account amount (mkSt a tr)) = Ok block ->
       Block.Representative block = representative a) /\
  (forall dests, acct (fst (SendBlocks env w dests (mkSt a tr))) = a) /\
  (forall info link, acct (fst (receivePending env w info link (mkSt a tr))) = a).
Proof.
  intros Hrep. split; [|split].
  - intros account amount.
    destruct (SendBlock_keeps_representative env w a tr account amount Hrep) as [Hacct Hblock].
    split; [exact Hacct|]. split; [|exact Hblock].
    rewrite Send_run.
    destruct (SendBlock env w account amount (mkSt a tr)) as [[a1 tr1] [block|e]];
      cbn [fst acct] in Hacct; subst a1; [|reflexivity].
    destruct (generate_with env _ _ _) as [s2 r2] eqn:Hgen.
    destruct (generate_with_trace _ _ _ _ _ _ _ Hgen) as (Ha2 & _).
    destruct r2 as [work|e]; [|exact Ha2].
    destruct s2 as [a2 tr2]. rewrite Process_run. exact Ha2.
  - intros dests. rewrite SendBlocks_run. cbv zeta.
    destruct (RPC_AccountInfo env (address a)) as [info|msg]; [|reflexivity].
    destruct (SendBlocks_loop_acct env w (AccountInfo.Representative info) dests
                (AccountInfo.Frontier info) (AccountInfo.Balance info) [] a
                (tr ++ [EvAccountInfo (address a)])) as [H|H]; rewrite H;
      [reflexivity | now apply cached_kept].
  - intros info link. rewrite receivePending_run. cbv zeta.
    rewrite (received_kept a info Hrep).
    destruct (signBlock env w _ _) as [signed|e]; [|reflexivity].
    destruct (generate_with env _ _ _) as [s1 r1] eqn:Hgen.
    destruct (generate_with_trace _ _ _ _ _ _ _ Hgen) as (Ha1 & _).
    destruct r1 as [work|e]; [|exact Ha1].
    destruct s1 as [a1 tr1]. rewrite Process_run. exact Ha1.
Qed.

Lemma representative_is_kept_witness :
  (forall account amount,
     acct (fst (SendBlock (Scenario.ledger []) Scenario.wallet0 account amount
                  (mkSt (set_representative Scenario.account0 "nano_mine") [])))
       = set_representative Scenario.account0 "nano_mine" /\
     acct (fst (Send (Scenario.ledger []) Scenario.wallet0 account amount
                  (mkSt (set_representative Scenario.account0 "nano_mine") [])))
       = set_representative Scenario.account0 "nano_mine" /\
     forall block,
       snd (SendBlock (Scenario.ledger []) Scenario.wallet0 account amount
              (mkSt (set_representative Scenario.account0 "nano_mine") [])) = Ok block ->
       Block.Representative block
         = representative (set_representative Scenario.account0 "nano_mine")) /\
  (forall dests,
     acct (fst (SendBlocks (Scenario.ledger []) Scenario.wallet0 dests
                  (mkSt (set_representative Scenario.account0 "nano_mine") [])))
       = set_representative Scenario.account0 "nano_mine") /\
  (forall info link,
     acct (fst (receivePending (Scenario.ledger []) Scenario.wallet0 info link
                  (mkSt (set_representative Scenario.account0 "nano_mine") [])))
       = set_representative Scenario.account0 "nano_mine").
Proof.
  apply (representative_is_kept (Scenario.ledger []) Scenario.wallet0
           (set_representative Scenario.account0 "nano_mine") []).
  cbn. discriminate.
Defined.

(** X9.  [SetRep(r)] with an address that decodes makes [r] the representative
    of the blocks built afterwards: the block of a following [SendBlock]
    carries [r], not the representative that the ledger reports. *)
Theorem SetRep_then_SendBlock env w r a tr s1 account amount s2 block :
  r <> "" ->
  SetRep env r (mkSt a tr) = (s1, Ok tt) ->
  SendBlock env w account amount s1 = (s2, Ok block) ->
  s1 = mkSt (set_representative a r) tr /\
  Block.Representative block = r /\ representative (acct s2) = r.
Proof.
  intros Hr Hset Hsend. unfold SetRep, bind, call, lift, put_representative in Hset.
  destruct (AddressToPubkey env r) as [pk|msg]; [|discriminate].
  cbn in Hset. injection Hset as <-. split; [reflexivity|].
  assert (Hne : representative (set_representative a r) <> "") by exact Hr.
  destruct (SendBlock_keeps_representative env w (set_representative a r) tr account amount Hne)
    as (Hacct & Hblock).
  rewrite Hsend in Hacct, Hblock. cbn [fst snd] in Hacct, Hblock.
  rewrite Hacct. split; [now apply Hblock | reflexivity].
Qed.

Lemma SetRep_then_SendBlock_witness :
  exists s2 block,
    SendBlock (Scenario.ledger []) Scenario.wallet0 "nano_dest" 200
      (mkSt (set_representative Scenario.account0 "nano_mine") []) = (s2, Ok block) /\
    Block.Representative block = "nano_mine" /\ representative (acct s2) = "nano_mine".
Proof.
  assert (exists s2 block,
    SendBlock (Scenario.ledger []) Scenario.wallet0 "nano_dest" 200
      (mkSt (set_representative Scenario.account0 "nano_mine") []) = (s2, Ok block))
    as (s2 & block & Hrun).
  { vm_compute. eexists _, _. reflexivity. }
  exists s2, block. split; [exact Hrun|].
  apply (SetRep_then_SendBlock (Scenario.ledger []) Scenario.wallet0 "nano_mine"
           Scenario.account0 [] (mkSt (set_representative Scenario.account0 "nano_mine") [])
           "nano_dest" 200 s2 block).
  - discriminate.
  - reflexivity.
  - exact Hrun.
Defined.

(** *** One destination, many destinations *)

(** X10.  [SendBlocks] with one destination builds the block of [SendBlock] and
    leaves the same account and the same requests behind; it then hashes
    the signed block once more, and fails when that fails. *)
Theorem SendBlocks_one env w account amount s s1 block :
  SendBlock env w account amount s = (s1, Ok block) ->
  SendBlocks env w [mkDestination account amount] s =
  (s1, match Block_Hash env block with
       | Fine _ => Ok [block]
       | Failed msg => Err (EExternal msg)
       end).
Proof.
  destruct s as [a tr]. rewrite SendBlock_run, SendBlocks_run.
  destruct (AddressToPubkey env account) as [link|msg] eqn:Hl; [|discriminate].
  cbv zeta. destruct (RPC_AccountInfo env (address a)) as [info|msg]; [|discriminate].
  rewrite SendBlocks_loop_cons. cbn [dAccount dAmount]. rewrite Hl. cbv zeta.
  destruct (AccountInfo.Balance info - amount <? 0); [discriminate|].
  intros [= <- Hs]. rewrite Hs.
  destruct (Block_Hash env block); reflexivity.
Qed.

Lemma SendBlocks_one_witness :
  exists s1 block,
    SendBlocks (Scenario.ledger []) Scenario.wallet0 [mkDestination "nano_dest" 200]
      (mkSt Scenario.account0 []) =
    (s1, match Block_Hash (Scenario.ledger []) block with
         | Fine _ => Ok [block]
         | Failed msg => Err (EExternal msg)
         end) /\
    Block.Balance block = 300.
Proof.
  assert (exists s1 block,
    SendBlock (Scenario.ledger []) Scenario.wallet0 "nano_dest" 200
      (mkSt Scenario.account0 []) = (s1, Ok block) /\ Block.Balance block = 300)
    as (s1 & block & Hrun & Hbal).
  { vm_compute. eexists _, _. split; reflexivity. }
  exists s1, block. split; [|exact Hbal].
  apply (SendBlocks_one (Scenario.ledger []) Scenario.wallet0 "nano_dest" 200
           (mkSt Scenario.account0 []) s1 block Hrun).
Defined.

Lemma signBlock_seed env w a b b' :
  signBlock env w a b = Ok b' ->
  impl w = seedImpl /\
  exists hash, Block_Hash env b = Fine hash /\
               b' = set_Signature b (ed25519_Sign env (key a) hash).
Proof.
  unfold signBlock. destruct (impl w); [|discriminate].
  destruct (Block_Hash env b) as [h|msg]; [|discriminate].
  intros [= <-]. eauto.
Qed.

Lemma SendBlocks_loop_fields env w r dests : forall frontier balance acc a tr s' blocks,
  SendBlocks_loop env w r dests frontier balance acc (mkSt a tr) = (s', Ok blocks) ->
  exists new, blocks = acc ++ new /\ Forall2 (sent_to env (cached a r)) dests new.
Proof.
  induction dests as [|d rest IH]; intros frontier balance acc a tr s' blocks H.
  - injection H as <- <-. exists []. split; [now rewrite app_nil_r | constructor].
  - rewrite SendBlocks_loop_cons in H.
    destruct (AddressToPubkey env (dAccount d)) as [link|msg] eqn:Hl; [|discriminate].
    cbv zeta in H. destruct (balance - dAmount d <? 0); [discriminate|].
    destruct (signBlock env w _ _) as [block|e] eqn:Hs; [|discriminate].
    destruct (Block_Hash env block) as [h|msg]; [|discriminate].
    apply IH in H as (new & -> & Hall). rewrite cached_idem in Hall.
    exists (block :: new). split; [now rewrite <- app_assoc|].
    constructor; [|exact Hall].
    apply signBlock_seed in Hs as (_ & hash & Hh & ->).
    destruct (cached_fields a r) as (_ & Hk & _ & Ha).
    unfold sent_to. cbn.
    split; [reflexivity|]. split; [reflexivity|]. split; [reflexivity|].
    split; [eauto|]. split; [reflexivity|]. exists hash. split; [exact Hh | reflexivity].
Qed.

(** X11.  Every block that [SendBlocks] returns is a state block of the account
    with the representative of the account (the one the ledger reports when
    none was cached), linked to the public key of its destination, signed
    with the key of the account over the hash of the block, and without
    work. *)
Theorem SendBlocks_blocks env w a tr dests s' blocks :
  SendBlocks env w dests (mkSt a tr) = (s', Ok blocks) ->
  exists info,
    RPC_AccountInfo env (address a) = Fine info /\
    Forall2 (sent_to env (cached a (AccountInfo.Representative info))) dests blocks.
Proof.
  rewrite SendBlocks_run. cbv zeta.
  destruct (RPC_AccountInfo env (address a)) as [info|msg]; [|discriminate].
  intros H. apply SendBlocks_loop_fields in H as (new & -> & Hall).
  exists info. split; [reflexivity | exact Hall].
Qed.

Lemma SendBlocks_blocks_witness :
  exists s' blocks info,
    SendBlocks (Scenario.ledger []) Scenario.wallet0 Scenario.three_sends
      (mkSt Scenario.account0 []) = (s', Ok blocks) /\
    map Block.Representative blocks = ["nano_rep"; "nano_rep"; "nano_rep"] /\
    RPC_AccountInfo (Scenario.ledger []) (address Scenario.account0) = Fine info /\
    Forall2 (sent_to (Scenario.ledger [])
               (cached Scenario.account0 (AccountInfo.Representative info)))
      Scenario.three_sends blocks.
Proof.
  assert (exists s' blocks,
    SendBlocks (Scenario.ledger []) Scenario.wallet0 Scenario.three_sends
      (mkSt Scenario.account0 []) = (s', Ok blocks) /\
    map Block.Representative blocks = ["nano_rep"; "nano_rep"; "nano_rep"])
    as (s' & blocks & Hrun & Hrep).
  { vm_compute. eexists _, _. split; reflexivity. }
  destruct (SendBlocks_blocks (Scenario.ledger []) Scenario.wallet0 Scenario.account0 []
              Scenario.three_sends s' blocks Hrun) as (info & Hi & Hall).
  exists s', blocks, info. auto.
Defined.

Lemma chained_total env dests : forall frontier balance blocks i b,
  chained env frontier balance dests blocks ->
  blocks !! i = Some b ->
  Block.Balance b = balance - total (take (S i) dests).
Proof.
  induction dests as [|d ds IH]; intros frontier balance [|b0 bs] i b H Hb;
    cbn in H; try contradiction; try discriminate.
  destruct H as (_ & Hbal & _ & h & _ & H).
  destruct i as [|i].
  - injection Hb as <-. rewrite Hbal. change (take 1 (d :: ds)) with [d]. cbn. lia.
  - cbn in Hb. rewrite (IH _ _ _ _ _ H Hb), Hbal.
    change (take (S (S i)) (d :: ds)) with (d :: take (S i) ds).
    cbn [total foldr]. fold (total (take (S i) ds)). lia.
Qed.

(** X12.  The balance of the [i]-th block that [SendBlocks] returns is the
    confirmed balance less the amounts of the destinations up to it, so the
    amounts of the first [i + 1] destinations never exceed the confirmed
    balance together. *)
Theorem SendBlocks_total env w a tr dests s' blocks :
  SendBlocks env w dests (mkSt a tr) = (s', Ok blocks) ->
  exists info,
    RPC_AccountInfo env (address a) = Fine info /\
    forall i b, blocks !! i = Some b ->
      Block.Balance b = AccountInfo.Balance info - total (take (S i) dests) /\
      total (take (S i) dests) <= AccountInfo.Balance info.
Proof.
  rewrite SendBlocks_run. cbv zeta.
  destruct (RPC_AccountInfo env (address a)) as [info|msg]; [|discriminate].
  intros H. apply SendBlocks_loop_chain in H as (_ & new & -> & Hchain). cbn [app].
  exists info. split; [reflexivity|]. intros i b Hb.
  pose proof (chained_total _ _ _ _ _ _ _ Hchain Hb) as Hbal.
  split; [exact Hbal|].
  assert (0 <= Block.Balance b)
    by (eapply chained_nonneg; [exact Hchain | eapply list_elem_of_lookup_2; exact Hb]).
  lia.
Qed.

Lemma SendBlocks_total_witness :
  exists s' blocks info,
    SendBlocks (Scenario.ledger []) Scenario.wallet0 Scenario.three_sends
      (mkSt Scenario.account0 []) = (s', Ok blocks) /\
    total Scenario.three_sends = 500 /\
    RPC_AccountInfo (Scenario.ledger []) (address Scenario.account0) = Fine info /\
    forall i b, blocks !! i = Some b ->
      Block.Balance b = AccountInfo.Balance info - total (take (S i) Scenario.three_sends) /\
      total (take (S i) Scenario.three_sends) <= AccountInfo.Balance info.
Proof.
  assert (exists s' blocks,
    SendBlocks (Scenario.ledger []) Scenario.wallet0 Scenario.three_sends
      (mkSt Scenario.account0 []) = (s', Ok blocks)) as (s' & blocks & Hrun).
  { vm_compute. eexists _, _. reflexivity. }
  destruct (SendBlocks_total (Scenario.ledger []) Scenario.wallet0 Scenario.account0 []
              Scenario.three_sends s' blocks Hrun) as (info & Hi & Hall).
  exists s', blocks, info. split; [exact Hrun|]. split; [reflexivity|]. auto.
Defined.

(** X13.  [SendBlock] does not look at the sign of the amount: for a negative
    amount and a ledger balance that is not negative it never reports
    insufficient funds, and the block it returns has a balance above the
    confirmed one. *)
Theorem SendBlock_negative_amount env w a tr account amount info :
  RPC_AccountInfo env (address a) = Fine info ->
  0 <= AccountInfo.Balance info -> amount < 0 ->
  snd (SendBlock env w account amount (mkSt a tr)) <> Err EInsufficientFunds /\
  forall block, snd (SendBlock env w account amount (mkSt a tr)) = Ok block ->
    AccountInfo.Balance info < Block.Balance block.
Proof.
  intros Hi Hb Hneg. rewrite SendBlock_run.
  destruct (AddressToPubkey env account) as [link|msg]; [|split; discriminate].
  rewrite Hi. cbv zeta.
  assert (E : (AccountInfo.Balance info - amount <? 0) = false) by (apply Z.ltb_ge; lia).
  rewrite E. cbn [snd]. split; [apply signBlock_not_insufficient|].
  intros block Hs. apply signBlock_fields in Hs as (sig & ->). cbn. lia.
Qed.

Lemma SendBlock_negative_amount_witness :
  snd (SendBlock (Scenario.ledger []) Scenario.wallet0 "nano_dest" (-100)
         (mkSt Scenario.account0 [])) <> Err EInsufficientFunds /\
  forall block,
    snd (SendBlock (Scenario.ledger []) Scenario.wallet0 "nano_dest" (-100)
           (mkSt Scenario.account0 [])) = Ok block ->
    AccountInfo.Balance (AccountInfo.mk (Some Scenario.frontier0) "nano_rep" 500)
      < Block.Balance block.
Proof.
  apply (SendBlock_negative_amount (Scenario.ledger []) Scenario.wallet0 Scenario.account0 []
           "nano_dest" (-100) (AccountInfo.mk (Some Scenario.frontier0) "nano_rep" 500)).
  - reflexivity.
  - cbn. lia.
  - lia.
Defined.

End SendFacts.

(** ** Receiving *)

Module ReceiveFacts.
Import Bytes rpc wallet Spec account AccountFacts BlockFacts SendFacts.

#[local] Arguments signBlock : simpl never.
#[local] Arguments generate_with : simpl never.
#[local] Arguments receivePending : simpl never.
#[local] Arguments HexChecked.DecodeString : simpl never.

(** The two models of [hex.Decode] agree on the bytes decoded. *)
Lemma decode_checked_bytes : forall (m : nat) (src : list byte),
  (length src <= m)%nat -> fst (HexChecked.decode src) = Hex.decode src.
Proof.
  induction m as [|m IH]; intros src Hm.
  - destruct src; [reflexivity | cbn in Hm; lia].
  - destruct src as [|p [|q rest]]; [reflexivity | |].
    + cbn. destruct (Hex.fromHexChar p); reflexivity.
    + cbn [HexChecked.decode Hex.decode].
      destruct (Hex.fromHexChar p), (Hex.fromHexChar q); try reflexivity.
      assert (Hr : (length rest <= m)%nat) by (cbn in Hm; lia).
      specialize (IH rest Hr).
      destruct (HexChecked.decode rest) as [bs e]. cbn in *. now rewrite IH.
Qed.

Lemma DecodeString_checked_bytes s :
  fst (HexChecked.DecodeString s) = Hex.DecodeString s.
Proof. apply (decode_checked_bytes _ _ (Nat.le_refl _)). Qed.

Lemma submitted_app tr1 tr2 : submitted (tr1 ++ tr2) = submitted tr1 ++ submitted tr2.
Proof. apply omap_app. Qed.

Lemma submitted_work data difficulty events :
  (forall ev, ev ∈ events -> ev = EvPowGenerate data difficulty) ->
  submitted events = [].
Proof.
  induction events as [|ev events IH]; intros H; [reflexivity|].
  assert (Hev : ev = EvPowGenerate data difficulty) by (apply H; now left).
  subst ev. cbn. apply IH. intros ev Hin. apply H. now right.
Qed.

Lemma receiveRepresentative_nonempty a info : receiveRepresentative a info <> "".
Proof.
  unfold receiveRepresentative.
  destruct (decide (representative a = "")); [|assumption].
  destruct (decide (AccountInfo.Representative info = "")); [discriminate|assumption].
Qed.

Lemma received_nonempty a info : representative (received a info) <> "".
Proof. rewrite received_representative. apply receiveRepresentative_nonempty. Qed.

Lemma received_credit a info amount : received a (credit info amount) = received a info.
Proof. reflexivity. Qed.

(** A [receivePending] that returns a hash: the account, the trace and the
    block that was submitted. *)
Lemma receivePending_ok env w info link a tr s' h :
  receivePending env w info link (mkSt a tr) = (s', Ok h) ->
  exists sig work events,
    let block := set_Work (set_Signature (receiveBlock (received a info) info link) sig) work in
    acct s' = received a info /\
    trace s' = tr ++ events ++ [EvProcess block "receive"] /\
    submitted events = [] /\
    RPC_Process env block "receive" = Fine h.
Proof.
  rewrite receivePending_run. cbv zeta.
  destruct (signBlock env w _ _) as [signed|e] eqn:Hs; [|discriminate].
  apply signBlock_fields in Hs as (sig & ->).
  destruct (generate_with env _ _ _) as [s1 [work|e]] eqn:Hgen; [|discriminate].
  destruct (generate_with_trace _ _ _ _ _ _ _ Hgen) as (Hacct & events & Htr & Hev).
  destruct s1 as [a1 tr1]. cbn in Hacct, Htr. subst a1 tr1.
  rewrite Process_run. intros H.
  destruct (RPC_Process env _ "receive") as [h'|msg] eqn:Hp; [|discriminate].
  injection H as <- <-.
  exists sig, work, (EvWorkGenerate
                       match AccountInfo.Frontier info with
                       | Some f => f
                       | None => pubkey a
                       end (Hex.DecodeString (ReceiveWorkDifficulty w)) :: events).
  cbv zeta. split; [reflexivity|]. split; [cbn; now rewrite <- app_assoc|].
  split; [|exact Hp]. cbn. eapply submitted_work. exact Hev.
Qed.

Lemma receivePendings_loop_cons env w hash amount rest info s :
  receivePendings_loop env w ((hash, amount) :: rest) info s =
  match HexChecked.DecodeString hash with
  | (_, Some e) => (s, Err (EExternal (HexChecked.message e)))
  | (link, None) =>
      match receivePending env w (credit info amount) (Some link) s with
      | (s1, Err e) => (s1, Err e)
      | (s1, Ok frontier) =>
          receivePendings_loop env w rest (set_Frontier (credit info amount) frontier) s1
      end
  end.
Proof.
  cbn [receivePendings_loop].
  destruct (HexChecked.DecodeString hash) as [link [e|]]; [reflexivity|].
  unfold bind. destruct (receivePending env w _ _ s) as [s1 [f|e]]; reflexivity.
Qed.

Lemma receivePendings_loop_drained env w pendings : forall info a tr s',
  representative a <> "" \/ pendings <> [] ->
  receivePendings_loop env w pendings info (mkSt a tr) = (s', Ok tt) ->
  acct s' = received a info /\
  exists events blocks_,
    trace s' = tr ++ events /\
    submitted events = map (fun b => (b, "receive")) blocks_ /\
    drained env (received a info) (AccountInfo.Frontier info) (AccountInfo.Balance info)
      pendings blocks_.
Proof.
  induction pendings as [|[hash amount] rest IH]; intros info a tr s' Hne H.
  - injection H as <-. destruct Hne as [Hne|Hne]; [|contradiction].
    split; [cbn; now rewrite received_kept|].
    exists [], []. split; [now rewrite app_nil_r|]. split; [reflexivity|exact I].
  - rewrite receivePendings_loop_cons in H.
    destruct (HexChecked.DecodeString hash) as [link [e|]] eqn:Hhex; [discriminate|].
    destruct (receivePending env w _ _ _) as [s1 [frontier|e]] eqn:Hrun; [|discriminate].
    apply receivePending_ok in Hrun as (sig & work & events & Hacct & Htr & Hsub & Hp).
    cbv zeta in Htr, Hp. rewrite received_credit in Hacct, Htr, Hp.
    destruct s1 as [a1 tr1]. cbn [acct trace] in Hacct, Htr. subst a1 tr1.
    apply IH in H; [|left; apply received_nonempty].
    destruct H as (Hacct' & events' & blocks' & Htr' & Hsub' & Hdr).
    rewrite (received_kept _ _ (received_nonempty a info)) in Hacct', Hdr.
    split; [exact Hacct'|].
    eexists (events ++ [EvProcess _ "receive"] ++ events'), (_ :: blocks').
    split; [rewrite Htr'; now rewrite <- !app_assoc|].
    split.
    { rewrite !submitted_app, Hsub, Hsub'. reflexivity. }
    cbn [drained]. cbn.
    split; [exact Hhex|]. split; [eauto|]. split; [reflexivity|]. split; [reflexivity|].
    split; [reflexivity|]. split; [reflexivity|].
    exists frontier. split; [exact Hp | exact Hdr].
Qed.

Lemma receivePendings_nonempty env node w pendings a tr :
  pendings <> [] ->
  receivePendings env node w pendings (mkSt a tr) =
  receivePendings_loop env w pendings (info_or_zero env node (address a))
    (mkSt a (tr ++ [EvAccountInfo (address a)])).
Proof.
  intros Hne. destruct pendings as [|p rest]; [contradiction|].
  unfold receivePendings, AccountInfo_or_zero, bind, get_account, emit, ret. cbn [acct trace].
  unfold info_or_zero.
  destruct (RPC_AccountInfo env (address a)); [reflexivity|].
  destruct (AccountInfo_failed node (address a)); reflexivity.
Qed.

Lemma drained_length env a pendings : forall frontier balance blocks_,
  drained env a frontier balance pendings blocks_ -> length blocks_ = length pendings.
Proof.
  induction pendings as [|[hash amount] rest IH]; intros f bal [|b bs] Hdr;
    cbn in Hdr; try contradiction; [reflexivity|].
  destruct Hdr as (_ & _ & _ & _ & _ & _ & h & _ & Hdr). cbn. f_equal. eauto.
Qed.



(** [ReceivePending], step by step. *)
Lemma ReceivePending_run env node w link a tr :
  ReceivePending env node w link (mkSt a tr) =
  let s1 := mkSt a (tr ++ [EvAccountInfo (address a)]) in
  match RPC_BlockInfo node link with
  | Failed msg => (s1, Err (EExternal msg))
  | Fine amount =>
      receivePending env w (credit (info_or_zero env node (address a)) amount) link s1
  end.
Proof.
  unfold ReceivePending, AccountInfo_or_zero, info_or_zero, bind, get_account, emit, ret,
    call, lift. cbn [acct trace].
  destruct (RPC_BlockInfo node link) as [amount|msg]; cbn [of_ext]; [|reflexivity].
  destruct (RPC_AccountInfo env (address a)); [reflexivity|].
  destruct (AccountInfo_failed node (address a)); reflexivity.
Qed.

(** X15.  The error of [AccountInfo] is not an error of [ReceivePending(link)]:
    when the ledger does not know the account and the call leaves the zero
    value, a hash that [ReceivePending] returns is that of an opening block,
    the one block it submitted: its previous field is the zero hash, its
    balance the amount of the block [link], its representative the cached
    one or else the default. *)
Theorem ReceivePending_opens env node w link a tr msg s' h :
  RPC_AccountInfo env (address a) = Failed msg ->
  AccountInfo_failed node (address a) = (None, "") ->
  ReceivePending env node w link (mkSt a tr) = (s', Ok h) ->
  exists amount block events,
    RPC_BlockInfo node link = Fine amount /\
    trace s' = tr ++ EvAccountInfo (address a) :: events ++ [EvProcess block "receive"] /\
    submitted events = [] /\
    RPC_Process env block "receive" = Fine h /\
    Block.Previous block = Some (repeat x00 32) /\
    Block.Balance block = amount /\
    Block.Link block = link /\
    Block.Representative block =
      (if decide (representative a = "") then defaultRepresentative else representative a).
Proof.
  intros Hinfo Hzero. rewrite ReceivePending_run. cbv zeta.
  destruct (RPC_BlockInfo node link) as [amount|m]; [|discriminate].
  unfold info_or_zero. rewrite Hinfo, Hzero. cbn [fst snd]. intros H.
  apply receivePending_ok in H as (sig & work & events & _ & Htr & Hsub & Hp).
  cbv zeta in Htr, Hp.
  eexists amount, _, events. split; [reflexivity|].
  split; [rewrite Htr; now rewrite <- app_assoc|]. split; [exact Hsub|].
  split; [exact Hp|]. cbn.
  split; [reflexivity|]. split; [reflexivity|]. split; [reflexivity|].
  rewrite received_representative. unfold receiveRepresentative. cbn.
  destruct (decide (representative a = "")); reflexivity.
Qed.

Lemma ReceivePending_opens_witness :
  exists s' h amount block events,
    ReceivePending (Examples.unknown (Scenario.ledger [])) Examples.node0 Scenario.wallet0
      Scenario.source (mkSt Scenario.account0 []) = (s', Ok h) /\
    RPC_BlockInfo Examples.node0 Scenario.source = Fine amount /\
    trace s' = [] ++ EvAccountInfo (address Scenario.account0)
                 :: events ++ [EvProcess block "receive"] /\
    Block.Previous block = Some (repeat x00 32) /\
    Block.Balance block = amount /\
    Block.Representative block = defaultRepresentative.
Proof.
  assert (exists s' h,
    ReceivePending (Examples.unknown (Scenario.ledger [])) Examples.node0 Scenario.wallet0
      Scenario.source (mkSt Scenario.account0 []) = (s', Ok h)) as (s' & h & Hrun).
  { vm_compute. eexists _, _. reflexivity. }
  destruct (ReceivePending_opens (Examples.unknown (Scenario.ledger [])) Examples.node0
              Scenario.wallet0 Scenario.source Scenario.account0 [] "Account not found" s' h)
    as (amount & block & events & Hb & Htr & _ & _ & Hprev & Hbal & _ & Hrep).
  - reflexivity.
  - reflexivity.
  - exact Hrun.
  - exists s', h, amount, block, events. split; [exact Hrun|]. split; [exact Hb|].
    split; [exact Htr|]. split; [exact Hprev|]. split; [exact Hbal | exact Hrep].
Defined.

(** X16.  [ReceiveAndReturnPendings] does what [ReceivePendings] does, with the
    same requests, the same account afterwards and the same error; what it
    returns besides is the list of the node for the account, whole, also when
    the receiving stopped at an error. *)
Theorem ReceiveAndReturnPendings_agrees env node w threshold s :
  let run := ReceivePendings env node w threshold s in
  let run' := ReceiveAndReturnPendings env node w threshold s in
  fst run' = fst run /\
  snd (snd run') = match snd run with Ok _ => None | Err e => Some e end /\
  forall pendings,
    RPC_AccountsPending node [address (acct s)] (-1) threshold = Fine pendings ->
    fst (snd run') = pendings_of (acct s) pendings.
Proof.
  cbv zeta. unfold ReceivePendings, ReceiveAndReturnPendings, bind, get_account, call, lift.
  destruct (RPC_AccountsPending node [address (acct s)] (-1) threshold) as [pendings|msg];
    cbn [of_ext].
  - destruct (receivePendings env node w (pendings_of (acct s) pendings) s) as [s' [[]|e]];
      cbn [fst snd]; (split; [reflexivity|]); (split; [reflexivity|]);
      intros p [= <-]; reflexivity.
  - cbn [fst snd]. split; [reflexivity|]. split; [reflexivity|]. discriminate.
Qed.

End ReceiveFacts.

(** ** The pipeline of [SendMultiple] *)

Module PipelineFacts.
Import Bytes rpc wallet Spec account BytesFacts AccountFacts BlockFacts SendFacts ReceiveFacts.

#[local] Arguments workGenerate : simpl never.
#[local] Arguments Process : simpl never.

Lemma workGenerate_run env w data a tr :
  workGenerate env w data (mkSt a tr) =
  let difficulty := Hex.DecodeString (WorkDifficulty w) in
  match RPCWork_WorkGenerate env data difficulty with
  | Fine work => (mkSt a (tr ++ [EvWorkGenerate data difficulty]), Ok work)
  | Failed _ =>
      (mkSt a (tr ++ [EvWorkGenerate data difficulty; EvPowGenerate data difficulty]),
       of_ext (pow_Generate env data difficulty))
  end.
Proof. unfold workGenerate. apply generate_with_run. Qed.

Lemma workGenerate_trace env w data s s' r :
  workGenerate env w data s = (s', r) ->
  acct s' = acct s /\ exists events, trace s' = trace s ++ events /\ submitted events = [].
Proof.
  destruct s as [a tr]. rewrite workGenerate_run. cbv zeta.
  destruct (RPCWork_WorkGenerate env data _); intros [= <- <-]; cbn;
    (split; [reflexivity|]); eexists; (split; [reflexivity|]); reflexivity.
Qed.

Section Pipeline.
Variable env : Env.
Variable w : Wallet.
Variable a : Account.
Variable tr0 : list event.
Variable blocks0 : list Block.t.

Local Abbreviation orderly := (account.orderly env w a tr0 blocks0).
Local Abbreviation step := (account.step env w).

Lemma orderly_start : orderly (start blocks0 (mkSt a tr0)).
Proof.
  exists [], []. cbn. split; [reflexivity|]. split; [now rewrite app_nil_r|].
  split; [reflexivity|]. split; [constructor|]. split; [reflexivity|].
  split; [lia|]. split; [auto|]. split; [discriminate|constructor].
Qed.

Lemma orderly_producer p : orderly p -> orderly (step_producer env w p).
Proof.
  intros HI. unfold step_producer. destruct (prod p) as [i|e|] eqn:Hprod; try exact HI.
  destruct HI as (sent_ & events & Ha & Htr & Hsub & Hall & Hbl & Hlen & Hpr & Hcl & Hout).
  cbv zeta in *. rewrite Hprod in Hpr. destruct Hpr as [-> Hopen].
  set (ready := sent_ ++ blocksWithWorkChan p) in *.
  destruct (blocks p !! length ready) as [block|] eqn:Hb.
  - (* one more block *)
    assert (Hb0 : blocks0 !! length ready = Some block).
    { rewrite Hbl, lookup_app_r in Hb by lia.
      rewrite Nat.sub_diag, lookup_drop, Nat.add_0_r in Hb. exact Hb. }
    pose proof (lookup_lt_Some _ _ _ Hb0) as Hlt.
    destruct (workGenerate env w (bytes_of (Block.Previous block)) (store p))
      as [s [work|e]] eqn:Hgen;
      destruct (workGenerate_trace _ _ _ _ _ _ Hgen) as (Hacct & evs & Hevs & Hnone).
    + exists sent_, (events ++ evs). cbv zeta.
      cbn [store blocksWithWorkChan blocks prod closed out hashes].
      assert (Hr : sent_ ++ blocksWithWorkChan p ++ [set_Work block work]
                   = ready ++ [set_Work block work])
        by (subst ready; now rewrite app_assoc).
      rewrite !Hr.
      assert (Hlen' : length (ready ++ [set_Work block work]) = S (length ready))
        by (rewrite length_app; cbn; lia).
      rewrite !Hlen'.
      split; [congruence|]. split; [rewrite Hevs, Htr; now rewrite app_assoc|].
      split; [rewrite submitted_app, Hnone, app_nil_r; exact Hsub|].
      split.
      { rewrite (take_S_r _ _ _ Hb0). apply Forall2_app; [exact Hall|].
        constructor; [|constructor]. exists work, (store p), s. auto. }
      split.
      { rewrite Hbl, (drop_S _ _ _ Hb0), insert_middle. now rewrite <- app_assoc. }
      split; [lia|]. split; [auto|]. split; [congruence|exact Hout].
    + exists sent_, (events ++ evs). cbv zeta.
      cbn [store blocksWithWorkChan blocks prod closed out hashes]. fold ready.
      split; [congruence|]. split; [rewrite Hevs, Htr; now rewrite app_assoc|].
      split; [rewrite submitted_app, Hnone, app_nil_r; exact Hsub|].
      split; [exact Hall|]. split; [exact Hbl|]. split; [exact Hlen|].
      split; [exact Hopen|]. split; [exact Hcl | exact Hout].
  - (* the channel is closed *)
    assert (Hend : length ready = length blocks0).
    { apply lookup_ge_None in Hb. rewrite Hbl, length_app, length_drop in Hb. lia. }
    exists sent_, events. cbv zeta.
    cbn [store blocksWithWorkChan blocks prod closed out hashes]. fold ready.
    split; [exact Ha|]. split; [exact Htr|]. split; [exact Hsub|]. split; [exact Hall|].
    split; [exact Hbl|]. split; [exact Hlen|]. split; [exact I|]. split; [auto|exact Hout].
Qed.

Lemma orderly_take_block p : orderly p -> orderly (step_take_block env p).
Proof.
  intros HI. unfold step_take_block. destruct (out p) as [r|] eqn:Hout; [exact HI|].
  destruct HI as (sent_ & events & Ha & Htr & Hsub & Hall & Hbl & Hlen & Hpr & Hcl & Hh).
  cbv zeta in *. rewrite Hout in Hh.
  destruct (blocksWithWorkChan p) as [|block rest] eqn:Hch.
  - destruct (closed p) eqn:Hclosed.
    + exists sent_, events. cbn [store blocksWithWorkChan blocks prod closed out hashes].
      rewrite app_nil_r in *.
      split; [exact Ha|]. split; [exact Htr|]. split; [exact Hsub|]. split; [exact Hall|].
      split; [exact Hbl|]. split; [exact Hlen|].
      split; [destruct (prod p); [destruct Hpr; congruence | congruence | exact I]|].
      split; [auto|]. split; [exact Hh | auto].
    + exists sent_, events. rewrite Hch, Hout, Hclosed. cbv zeta.
      split; [exact Ha|]. split; [exact Htr|]. split; [exact Hsub|]. split; [exact Hall|].
      split; [exact Hbl|]. split; [exact Hlen|]. split; [exact Hpr|].
      split; [exact Hcl | exact Hh].
  - destruct (store p) as [a1 tr1] eqn:Hst. cbn [acct trace] in Ha, Htr. subst a1 tr1.
    rewrite Process_run.
    assert (Hready : (sent_ ++ [block]) ++ rest = sent_ ++ block :: rest)
      by now rewrite <- app_assoc.
    destruct (RPC_Process env block "send") as [h|msg] eqn:Hp; cbn [of_ext].
    + exists (sent_ ++ [block]), (events ++ [EvProcess block "send"]).
      cbn [store blocksWithWorkChan blocks prod closed out hashes acct trace].
      rewrite Hready.
      split; [reflexivity|]. split; [now rewrite app_assoc|].
      split; [rewrite submitted_app, Hsub, map_app; reflexivity|].
      split; [exact Hall|]. split; [exact Hbl|]. split; [exact Hlen|]. split; [exact Hpr|].
      split; [exact Hcl|].
      apply Forall2_app; [exact Hh|]. constructor; [exact Hp|constructor].
    + exists (sent_ ++ [block]), (events ++ [EvProcess block "send"]).
      cbn [store blocksWithWorkChan blocks prod closed out hashes acct trace].
      rewrite Hready.
      split; [reflexivity|]. split; [now rewrite app_assoc|].
      split; [rewrite submitted_app, Hsub, map_app; reflexivity|].
      split; [exact Hall|]. split; [exact Hbl|]. split; [exact Hlen|]. split; [exact Hpr|].
      split; [exact Hcl | exact I].
Qed.

Lemma orderly_take_error p : orderly p -> orderly (step_take_error p).
Proof.
  intros HI. unfold step_take_error. destruct (out p) as [r|] eqn:Hout; [exact HI|].
  destruct (prod p) as [i|e|] eqn:Hprod; try exact HI.
  destruct HI as (sent_ & events & Ha & Htr & Hsub & Hall & Hbl & Hlen & Hpr & Hcl & Hh).
  exists sent_, events. cbn [store blocksWithWorkChan blocks prod closed out hashes]. cbv zeta in *.
  split; [exact Ha|]. split; [exact Htr|]. split; [exact Hsub|]. split; [exact Hall|].
  split; [exact Hbl|]. split; [exact Hlen|]. split; [exact I|]. split; [exact Hcl | exact I].
Qed.

Lemma orderly_step p m : orderly p -> orderly (step p m).
Proof.
  destruct m; [apply orderly_producer | apply orderly_take_block | apply orderly_take_error].
Qed.

Lemma orderly_fold sched : forall p, orderly p -> orderly (fold_left step sched p).
Proof.
  induction sched as [|m sched IH]; intros p H; [exact H|].
  cbn [fold_left]. apply IH, orderly_step, H.
Qed.

End Pipeline.



(** *** The main goroutine returns *)

Section Progress.
Variable env : Env.
Variable w : Wallet.

Local Abbreviation step := (account.step env w).

Lemma out_step p m r : out p = Some r -> out (step p m) = Some r.
Proof.
  intros H. destruct m; cbn [account.step].
  - unfold step_producer. destruct (prod p); [|exact H|exact H].
    destruct (blocks p !! i); [|exact H].
    destruct (workGenerate env w _ _) as [s [work|e]]; exact H.
  - unfold step_take_block. now rewrite H.
  - unfold step_take_error. now rewrite H.
Qed.

Lemma out_stable sched : forall p r, out p = Some r -> out (fold_left step sched p) = Some r.
Proof.
  induction sched as [|m sched IH]; intros p r H; [exact H|].
  cbn [fold_left]. apply IH, out_step, H.
Qed.

Lemma produce_idle k : forall p,
  (forall i, prod p <> Working i) -> fold_left step (repeat Produce k) p = p.
Proof.
  induction k as [|k IH]; intros p H; [reflexivity|].
  cbn [repeat fold_left account.step].
  assert (E : step_producer env w p = p).
  { unfold step_producer. destruct (prod p) eqn:E; [now destruct (H i)|reflexivity|reflexivity]. }
  rewrite E. apply IH, H.
Qed.

Lemma produce_runs m : forall p i k,
  prod p = Working i -> length (blocks p) = (i + m)%nat -> (m < k)%nat ->
  let p' := fold_left step (repeat Produce k) p in
  out p' = out p /\
  (forall j, prod p' <> Working j) /\
  (closed p' = true \/ exists e, prod p' = Offering e) /\
  (length (blocksWithWorkChan p') <= length (blocksWithWorkChan p) + m)%nat.
Proof.
  induction m as [|m IH]; intros p i k Hprod Hlen Hk; (destruct k as [|k]; [lia|]);
    cbv zeta; cbn [repeat fold_left account.step];
    remember (step_producer env w p) as p1 eqn:Hp1;
    unfold step_producer in Hp1; rewrite Hprod in Hp1.
  - rewrite (proj2 (lookup_ge_None (blocks p) i)) in Hp1 by lia. subst p1.
    rewrite produce_idle by (cbn; discriminate). cbn.
    split; [reflexivity|]. split; [discriminate|]. split; [now left | lia].
  - destruct (blocks p !! i) as [block|] eqn:Hb;
      [|apply lookup_ge_None in Hb; lia].
    destruct (workGenerate env w _ _) as [s [work|e]]; subst p1.
    + edestruct (IH (mkPipeline (<[i := set_Work block work]> (blocks p)) (Working (S i))
                       (blocksWithWorkChan p ++ [set_Work block work]) (closed p)
                       (hashes p) (out p) s) (S i) k) as (H1 & H2 & H3 & H4);
        [reflexivity | cbn; rewrite length_insert; lia | lia |].
      cbv zeta in *. cbn [out blocksWithWorkChan] in H1, H4.
      rewrite length_app in H4. cbn in H4.
      split; [exact H1|]. split; [exact H2|]. split; [exact H3 | lia].
    + rewrite produce_idle by (cbn; discriminate). cbn.
      split; [reflexivity|]. split; [discriminate|]. split; [eauto | lia].
Qed.

Lemma take_runs k : forall p,
  out p = None -> (forall i, prod p <> Working i) ->
  (closed p = true \/ exists e, prod p = Offering e) ->
  (length (blocksWithWorkChan p) <= k)%nat ->
  exists r, out (fold_left step (repeat TakeBlock (S k) ++ [TakeError]) p) = Some r.
Proof.
  induction k as [|k IH]; intros p Hout Hprod Hend Hlen.
  - cbn [repeat app fold_left account.step].
    destruct (blocksWithWorkChan p) eqn:Hch; [|cbn in Hlen; lia].
    unfold step_take_block. rewrite Hout, Hch.
    destruct (closed p) eqn:Hcl.
    + unfold step_take_error. cbn. eauto.
    + destruct Hend as [|[e He]]; [discriminate|].
      unfold step_take_error. rewrite Hout, He. cbn. eauto.
  - change (repeat TakeBlock (S (S k)) ++ [TakeError])
      with (TakeBlock :: (repeat TakeBlock (S k) ++ [TakeError])).
    cbn [fold_left account.step].
    remember (step_take_block env p) as p1 eqn:Hp1.
    unfold step_take_block in Hp1. rewrite Hout in Hp1.
    destruct (blocksWithWorkChan p) as [|block rest] eqn:Hch.
    + destruct (closed p) eqn:Hcl; subst p1.
      * eexists. apply out_stable. reflexivity.
      * apply IH; [exact Hout | exact Hprod | rewrite Hcl; exact Hend | rewrite Hch; cbn; lia].
    + destruct (Process env block "send" (store p)) as [s [h|e]]; subst p1.
      * apply IH; cbn; [reflexivity | exact Hprod | exact Hend | cbn in Hlen; lia].
      * eexists. apply out_stable. reflexivity.
Qed.

End Progress.

(** X18.  Under the interleaving that lets the producer run first,
    [SendMultiple] returns, whatever the collaborators answer. *)
Theorem SendMultiple_returns env w dests s :
  exists r, out (SendMultiple env w dests (producer_first (length dests)) s) = Some r.
Proof.
  unfold SendMultiple. destruct (SendBlocks env w dests s) as [s0 [blocks0|e]] eqn:Hrun;
    [|cbn; eauto].
  assert (Hlen0 : length blocks0 = length dests).
  { destruct s as [a tr]. revert Hrun. rewrite SendBlocks_run. cbv zeta.
    destruct (RPC_AccountInfo env (address a)); [|discriminate].
    intros H. apply SendBlocks_loop_chain in H as (_ & new & -> & Hc).
    eapply chained_length; exact Hc. }
  unfold producer_first. rewrite fold_left_app.
  destruct (produce_runs env w (length dests) (start blocks0 s0) O (S (length dests)))
    as (H1 & H2 & H3 & H4); [reflexivity | cbn; lia | lia |].
  cbv zeta in *. cbn in H1, H4.
  apply take_runs; [exact H1 | exact H2 | exact H3 | exact H4].
Qed.

(** *** Errors *)

Lemma workGenerate_result env w data s s' :
  snd (workGenerate env w data s) = snd (workGenerate env w data s').
Proof.
  destruct s as [a tr], s' as [a' tr']. rewrite !workGenerate_run. cbv zeta.
  destruct (RPCWork_WorkGenerate env data _); reflexivity.
Qed.

Lemma submitted_drop tr events :
  submitted (drop (length tr) (tr ++ events)) = submitted events.
Proof. now rewrite drop_app_length. Qed.

(** X19.  When the work of the second block cannot be generated, [SendMultiple]
    returns that error, but whether the first block has been submitted by
    then depends on the interleaving: [select] may take the error before or
    after the block that waits in the channel. *)
Theorem SendMultiple_partial env w dests s s0 b0 b1 rest work0 h0 e :
  SendBlocks env w dests s = (s0, Ok (b0 :: b1 :: rest)) ->
  snd (workGenerate env w (bytes_of (Block.Previous b0)) s0) = Ok work0 ->
  snd (workGenerate env w (bytes_of (Block.Previous b1)) s0) = Err e ->
  RPC_Process env (set_Work b0 work0) "send" = Fine h0 ->
  let early := SendMultiple env w dests [Produce; Produce; TakeError] s in
  let late := SendMultiple env w dests [Produce; TakeBlock; Produce; TakeError] s in
  out early = Some (Err e) /\ out late = Some (Err e) /\
  submitted (drop (length (trace s0)) (trace (store early))) = [] /\
  submitted (drop (length (trace s0)) (trace (store late))) = [(set_Work b0 work0, "send")].
Proof.
  intros Hrun Hw0 Hw1 Hp. cbv zeta. unfold SendMultiple. rewrite Hrun.
  destruct (workGenerate env w (bytes_of (Block.Previous b0)) s0) as [s1 r1] eqn:Hg0.
  cbn [snd] in Hw0. subst r1.
  destruct (workGenerate_trace _ _ _ _ _ _ Hg0) as (_ & ev1 & Ht1 & Hn1).
  set (p1 := mkPipeline (set_Work b0 work0 :: b1 :: rest) (Working 1)
               [set_Work b0 work0] false [] None s1).
  assert (E1 : step_producer env w (start (b0 :: b1 :: rest) s0) = p1).
  { unfold step_producer, start. cbn. now rewrite Hg0. }
  (* the producer fails on the second block, from any state *)
  assert (Hfail : forall p, prod p = Working 1 -> blocks p = blocks p1 ->
    exists s2 events,
      step_producer env w p =
        mkPipeline (blocks p) (Offering e) (blocksWithWorkChan p) (closed p)
          (hashes p) (out p) s2 /\
      trace s2 = trace (store p) ++ events /\ submitted events = []).
  { intros p Hprod Hbl. unfold step_producer. rewrite Hprod, Hbl. cbn.
    pose proof (workGenerate_result env w (bytes_of (Block.Previous b1)) (store p) s0) as Hr.
    rewrite Hw1 in Hr.
    destruct (workGenerate env w (bytes_of (Block.Previous b1)) (store p)) as [s2 r2] eqn:Hg1.
    cbn [snd] in Hr. subst r2.
    destruct (workGenerate_trace _ _ _ _ _ _ Hg1) as (_ & ev2 & Ht2 & Hn2).
    exists s2, ev2. auto. }
  (* the early interleaving *)
  destruct (Hfail p1 eq_refl eq_refl) as (s2 & ev2 & E2 & Ht2 & Hn2).
  (* the late interleaving *)
  set (p2 := mkPipeline (blocks p1) (Working 1) [] false [h0] None
               (mkSt (acct s1) (trace s1 ++ [EvProcess (set_Work b0 work0) "send"]))).
  assert (E3 : step_take_block env p1 = p2).
  { unfold step_take_block, p1. cbn [out blocksWithWorkChan store].
    destruct s1 as [a1 tr1]. rewrite Process_run, Hp. reflexivity. }
  destruct (Hfail p2 eq_refl eq_refl) as (s3 & ev3 & E4 & Ht3 & Hn3).
  cbn [fold_left account.step]. rewrite E1, E2, E3, E4.
  unfold step_take_error, p2, p1 in *.
  cbn [out prod store trace blocks blocksWithWorkChan closed hashes] in *.
  split; [reflexivity|]. split; [reflexivity|]. split.
  - rewrite Ht2, Ht1, <- app_assoc, submitted_drop, submitted_app, Hn1, Hn2. reflexivity.
  - rewrite Ht3, Ht1, <- !app_assoc, submitted_drop.
    rewrite !submitted_app, Hn1, Hn3. reflexivity.
Qed.

Lemma SendMultiple_partial_witness :
  let early := SendMultiple (Examples.fussy true) Scenario.wallet0 Examples.two_sends
                 [Produce; Produce; TakeError] (mkSt Scenario.account0 []) in
  let late := SendMultiple (Examples.fussy true) Scenario.wallet0 Examples.two_sends
                [Produce; TakeBlock; Produce; TakeError] (mkSt Scenario.account0 []) in
  out early = Some (Err (EExternal "no work found")) /\
  out late = Some (Err (EExternal "no work found")) /\
  submitted (drop (length (trace (fst Examples.two_blocks))) (trace (store early))) = [] /\
  submitted (drop (length (trace (fst Examples.two_blocks))) (trace (store late)))
    = [(set_Work Examples.first_block (repeat x00 8), "send")].
Proof.
  assert (Hrun :
    SendBlocks (Examples.fussy true) Scenario.wallet0 Examples.two_sends
      (mkSt Scenario.account0 [])
    = (fst Examples.two_blocks, Ok [Examples.first_block; Examples.second_block]))
    by (vm_compute; reflexivity).
  assert (Hw0 :
    snd (workGenerate (Examples.fussy true) Scenario.wallet0
           (bytes_of (Block.Previous Examples.first_block)) (fst Examples.two_blocks))
    = Ok (repeat x00 8)) by (vm_compute; reflexivity).
  assert (Hw1 :
    snd (workGenerate (Examples.fussy true) Scenario.wallet0
           (bytes_of (Block.Previous Examples.second_block)) (fst Examples.two_blocks))
    = Err (EExternal "no work found")) by (vm_compute; reflexivity).
  assert (exists h0,
    RPC_Process (Examples.fussy true) (set_Work Examples.first_block (repeat x00 8)) "send"
    = Fine h0) as (h0 & Hp) by (vm_compute; eexists; reflexivity).
  apply (SendMultiple_partial (Examples.fussy true) Scenario.wallet0 Examples.two_sends
           (mkSt Scenario.account0 []) (fst Examples.two_blocks)
           Examples.first_block Examples.second_block [] (repeat x00 8) h0
           (EExternal "no work found") Hrun Hw0 Hw1 Hp).
Defined.

(** X20.  Once the main goroutine has returned, a producer that fails to
    generate work stays blocked on [errChan] for good: no step of any
    goroutine changes the pipeline any more. *)
Theorem SendMultiple_producer_blocked env w dests sched sched' s e :
  let p := SendMultiple env w dests sched s in
  out p <> None -> prod p = Offering e ->
  SendMultiple env w dests (sched ++ sched') s = p.
Proof.
  cbv zeta. unfold SendMultiple.
  destruct (SendBlocks env w dests s) as [s0 [blocks0|e0]]; [|reflexivity].
  rewrite fold_left_app. generalize (fold_left (account.step env w) sched (start blocks0 s0)).
  intros p Hout Hprod. induction sched' as [|m sched' IH]; [reflexivity|].
  cbn [fold_left].
  assert (Hm : account.step env w p m = p).
  { destruct m; cbn [account.step].
    - unfold step_producer. now rewrite Hprod.
    - unfold step_take_block. destruct (out p); [reflexivity|congruence].
    - unfold step_take_error. destruct (out p); [reflexivity|congruence]. }
  rewrite Hm. exact IH.
Qed.

Lemma SendMultiple_producer_blocked_witness :
  out (SendMultiple (Examples.fussy false) Scenario.wallet0 Examples.two_sends
         [Produce; TakeBlock; Produce] (mkSt Scenario.account0 []))
    = Some (Err (EExternal "rejected")) /\
  SendMultiple (Examples.fussy false) Scenario.wallet0 Examples.two_sends
    ([Produce; TakeBlock; Produce] ++ [Produce; TakeError; TakeBlock])
    (mkSt Scenario.account0 []) =
  SendMultiple (Examples.fussy false) Scenario.wallet0 Examples.two_sends
    [Produce; TakeBlock; Produce] (mkSt Scenario.account0 []).
Proof.
  split; [vm_compute; reflexivity|].
  apply (SendMultiple_producer_blocked (Examples.fussy false) Scenario.wallet0
           Examples.two_sends [Produce; TakeBlock; Produce] [Produce; TakeError; TakeBlock]
           (mkSt Scenario.account0 []) (EExternal "no work found")).
  - vm_compute. discriminate.
  - vm_compute. reflexivity.
Defined.

End PipelineFacts.

(** ** The wallet: constructors, registry and scan *)

Module WalletFacts.
Import Bytes rpc wallet Spec registry RegistryFacts ScanFacts ReceiveFacts.

(** *** The constructors *)

(** X28.  Nano and Banano wallets made from the same seed, or from the same
    mnemonic and password, derive the same keys for every account: the
    derivation does not look at the kind of coin, which only chooses the
    coding of the address.  The BIP39 constructors fail together, with the
    error of the seed derivation. *)
Theorem banano_wallets_share_keys env newBip39Seed seed_ mnemonic password a :
  deriveAccount env (NewBananoWallet seed_) a = deriveAccount env (NewWallet seed_) a /\
  pubkeyToAddress env (NewBananoWallet seed_) = PubkeyToBananoAddress env /\
  pubkeyToAddress env (NewWallet seed_) = PubkeyToAddress env /\
  match NewBip39Wallet newBip39Seed mnemonic password,
        NewBip39BananoWallet newBip39Seed mnemonic password with
  | Ok w, Ok wb =>
      deriveAccount env wb a = deriveAccount env w a /\
      isBip39 w = true /\ isBip39 wb = true /\
      pubkeyToAddress env wb = PubkeyToBananoAddress env /\
      pubkeyToAddress env w = PubkeyToAddress env
  | Err e, Err eb => e = eb /\ exists msg, newBip39Seed mnemonic password = Failed msg
  | _, _ => False
  end.
Proof.
  split; [reflexivity|]. split; [reflexivity|]. split; [reflexivity|].
  unfold NewBip39Wallet, NewBip39BananoWallet.
  destruct (newBip39Seed mnemonic password) as [sd|msg].
  - repeat split.
  - split; [reflexivity | eauto].
Qed.

(** *** Ledger wallets *)

(** X21.  A wallet on a Ledger device derives and signs nothing: [NewAccount]
    returns "ledger support not available" and leaves the wallet as it is,
    [ScanForAccounts] returns the same error before it asks the node
    anything, and no block is ever signed. *)
Theorem ledger_wallet_is_inert env fuel index_ s :
  impl (wal s) = ledgerImpl ->
  (exists a,
     NewAccount env (S fuel) index_ s =
     Some (mkWorld (heap s ++ [a]) (wal s) (log s), Err ELedgerSupport)) /\
  (exists s',
     ScanForAccounts env (S (S fuel)) s = Some (s', Err ELedgerSupport) /\
     wal s' = wal s /\ log s' = log s) /\
  (forall a block, signBlock env (wal s) a block = Err ELedgerSupport).
Proof.
  intros Himpl.
  assert (Hnew : forall fuel index_, exists a,
    NewAccount env (S fuel) index_ s =
    Some (mkWorld (heap s ++ [a]) (wal s) (log s), Err ELedgerSupport)).
  { intros fuel' idx. cbn [NewAccount]. unfold deriveAccount. rewrite Himpl. eauto. }
  split; [apply Hnew|]. split.
  - destruct (Hnew fuel None) as (a & Ha).
    cbn [ScanForAccounts probe]. rewrite Ha. eauto.
  - intros a block. unfold signBlock. now rewrite Himpl.
Qed.

Lemma ledger_wallet_is_inert_witness :
  (exists a,
     NewAccount (Scenario.ledger []) 1 None (fresh NewLedgerWallet) =
     Some (mkWorld (heap (fresh NewLedgerWallet) ++ [a]) (wal (fresh NewLedgerWallet))
             (log (fresh NewLedgerWallet)), Err ELedgerSupport)) /\
  (exists s',
     ScanForAccounts (Scenario.ledger []) 2 (fresh NewLedgerWallet)
       = Some (s', Err ELedgerSupport) /\
     wal s' = wal (fresh NewLedgerWallet) /\ log s' = log (fresh NewLedgerWallet)) /\
  (forall a block,
     signBlock (Scenario.ledger []) (wal (fresh NewLedgerWallet)) a block = Err ELedgerSupport).
Proof.
  apply (ledger_wallet_is_inert (Scenario.ledger []) O None (fresh NewLedgerWallet)).
  reflexivity.
Defined.

(** *** The registry only grows under [NewAccount] *)

(** X22.  [NewAccount] never removes or replaces an entry of the registry and
    never touches an account that was allocated before; when it returns an
    error, the registry is what it was. *)
Theorem NewAccount_keeps_entries env fuel index_ s s' r :
  NewAccount env fuel index_ s = Some (s', r) ->
  (forall addr (l : loc), accounts (wal s) !! addr = Some l ->
     accounts (wal s') !! addr = Some l) /\
  (forall (l : loc) a, heap s !! l = Some a -> heap s' !! l = Some a) /\
  (forall e, r = Err e -> accounts (wal s') = accounts (wal s)).
Proof.
  intros H. apply NewAccount_spec in H as ((extra & Hheap) & _ & _ & _ & Hr).
  split; [|split].
  - intros addr l Hl. destruct r as [l'|e]; [|now rewrite Hr].
    destruct Hr as (a & _ & _ & _ & _ & [[Hfresh ->]|(_ & _ & -> & _)]); [|exact Hl].
    rewrite lookup_insert_ne; [exact Hl|]. intros <-. congruence.
  - intros l a Hl. rewrite Hheap. now apply lookup_app_l_Some.
  - intros e ->. exact Hr.
Qed.

Lemma NewAccount_keeps_entries_witness :
  accounts (wal Scenario.world2) !! Scenario.address_of 1 = Some 0%nat /\
  (forall addr (l : loc), accounts (wal Scenario.world2) !! addr = Some l ->
     accounts (wal Scenario.world3) !! addr = Some l) /\
  (forall (l : loc) a, heap Scenario.world2 !! l = Some a -> heap Scenario.world3 !! l = Some a).
Proof.
  split; [vm_compute; reflexivity|].
  destruct (NewAccount_keeps_entries (Scenario.ledger []) 2 None Scenario.world2
              Scenario.world3 (Ok 3%nat)) as (H1 & H2 & _).
  - vm_compute. reflexivity.
  - split; [exact H1 | exact H2].
Defined.

(** *** [NewAccount(nil)] skips the indices that are taken *)

Lemma addressOf_Some env w i addr :
  addressOf env w i = Some addr ->
  exists a, deriveAccount env w (mkAccount i [] [] "" "") = (a, None) /\
            pubkeyToAddress env w (pubkey a) = Fine addr.
Proof.
  unfold addressOf.
  destruct (deriveAccount env w (mkAccount i [] [] "" "")) as [a [e|]]; [discriminate|].
  destruct (pubkeyToAddress env w (pubkey a)) as [addr'|msg] eqn:Ha; [|discriminate].
  intros [= <-]. exists a. split; [reflexivity | exact Ha].
Qed.

Lemma wrap32_succ n j : wrap32 (wrap32 (n + 1) + Z.of_nat j) = wrap32 (n + Z.of_nat (S j)).
Proof.
  unfold wrap32. rewrite Zplus_mod_idemp_l. f_equal. lia.
Qed.

Lemma NewAccount_retry env fuel s taken a (l0 : loc) :
  deriveAccount env (wal s) (mkAccount (nextIndex (wal s)) [] [] "" "") = (a, None) ->
  pubkeyToAddress env (wal s) (pubkey a) = Fine taken ->
  accounts (wal s) !! taken = Some l0 ->
  NewAccount env (S fuel) None s =
  NewAccount env fuel None
    (mkWorld (heap s ++ [mkAccount (index a) (key a) (pubkey a) taken (representative a)])
       (set_nextIndex (wal s) (wrap32 (nextIndex (wal s) + 1))) (log s)).
Proof.
  intros Hd Ha Hl0. cbn [NewAccount]. rewrite Hd, Ha.
  change (accounts (set_nextIndex (wal s) (wrap32 (nextIndex (wal s) + 1))))
    with (accounts (wal s)).
  now rewrite Hl0.
Qed.

Lemma NewAccount_skips env k : forall fuel s addr,
  (forall j, (j < k)%nat ->
     exists taken,
       addressOf env (wal s) (wrap32 (nextIndex (wal s) + Z.of_nat j)) = Some taken /\
       is_Some (accounts (wal s) !! taken)) ->
  addressOf env (wal s) (wrap32 (nextIndex (wal s) + Z.of_nat k)) = Some addr ->
  accounts (wal s) !! addr = None ->
  nextIndex (wal s) = wrap32 (nextIndex (wal s)) ->
  exists s',
    NewAccount env (S k + fuel) None s = Some (s', Ok (length (heap s) + k)%nat) /\
    length (heap s') = (length (heap s) + S k)%nat /\
    nextIndex (wal s') = wrap32 (nextIndex (wal s) + Z.of_nat k + 1) /\
    accounts (wal s') = <[addr := (length (heap s) + k)%nat]> (accounts (wal s)) /\
    index <$> heap s' !! (length (heap s) + k)%nat
      = Some (wrap32 (nextIndex (wal s) + Z.of_nat k)).
Proof.
  induction k as [|k IH]; intros fuel s addr Htaken Hfree Hnone Hrange.
  - rewrite Z.add_0_r, <- Hrange in Hfree. rewrite Z.add_0_r, Nat.add_0_r.
    apply addressOf_Some in Hfree as (a & Hd & Ha).
    pose proof (deriveAccount_index _ _ _ _ _ Hd) as Hidx. cbn [index] in Hidx.
    cbn [NewAccount Nat.add]. rewrite Hd, Ha.
    change (accounts (set_nextIndex (wal s) (wrap32 (nextIndex (wal s) + 1))))
      with (accounts (wal s)).
    rewrite Hnone.
    eexists. split; [reflexivity|]. cbn [wal heap nextIndex accounts set_accounts set_nextIndex].
    split; [rewrite length_app; cbn; lia|].
    split; [reflexivity|]. split; [reflexivity|].
    rewrite lookup_app_r, Nat.sub_diag by lia. cbn. now rewrite Hidx, <- Hrange.
  - destruct (Htaken O) as (taken & Hof & [l0 Hl0]); [lia|].
    rewrite Z.add_0_r, <- Hrange in Hof.
    apply addressOf_Some in Hof as (a & Hd & Ha).
    cbn [Nat.add]. rewrite (NewAccount_retry _ _ _ _ _ _ Hd Ha Hl0).
    set (w1 := set_nextIndex (wal s) (wrap32 (nextIndex (wal s) + 1))).
    set (s1 := mkWorld _ w1 _).
    assert (Hcfg : same_config w1 (wal s)) by (subst w1; repeat split).
    destruct (IH fuel s1 addr) as (s' & Hrun & Hlen & Hnext & Hacc & Hidx).
    + intros j Hj. destruct (Htaken (S j)) as (t & Ht & Hs); [lia|].
      exists t. cbn [wal]. rewrite (addressOf_config _ _ _ _ Hcfg).
      subst s1 w1. cbn [wal nextIndex accounts set_nextIndex]. rewrite wrap32_succ. auto.
    + cbn [wal]. rewrite (addressOf_config _ _ _ _ Hcfg).
      subst s1 w1. cbn [wal nextIndex set_nextIndex]. now rewrite wrap32_succ.
    + exact Hnone.
    + subst s1 w1. cbn [wal nextIndex set_nextIndex]. unfold wrap32. now rewrite Zmod_mod.
    + exists s'. subst s1 w1. cbn [wal heap nextIndex accounts set_nextIndex] in *.
      rewrite length_app in *. cbn [length] in *.
      replace (length (heap s) + 1 + k)%nat with (length (heap s) + S k)%nat in * by lia.
      split; [exact Hrun|]. split; [lia|].
      split.
      { rewrite Hnext, <- Z.add_assoc. unfold wrap32.
        rewrite Zplus_mod_idemp_l. f_equal. lia. }
      split; [exact Hacc|]. now rewrite Hidx, wrap32_succ.
Qed.

(** X23.  When the addresses of the next [k] indices are registered already and
    that of the index after them is free, [NewAccount(nil)] allocates an
    account for each index it tries, registers the last one only, and
    leaves [nextIndex] behind it; indices count modulo 2^32. *)
Theorem NewAccount_skips_taken env k fuel s addr :
  (forall j, (j < k)%nat ->
     exists taken,
       addressOf env (wal s) (wrap32 (nextIndex (wal s) + Z.of_nat j)) = Some taken /\
       is_Some (accounts (wal s) !! taken)) ->
  addressOf env (wal s) (wrap32 (nextIndex (wal s) + Z.of_nat k)) = Some addr ->
  accounts (wal s) !! addr = None ->
  0 <= nextIndex (wal s) < 2 ^ 32 ->
  exists s',
    NewAccount env (S k + fuel) None s = Some (s', Ok (length (heap s) + k)%nat) /\
    length (heap s') = (length (heap s) + S k)%nat /\
    nextIndex (wal s') = wrap32 (nextIndex (wal s) + Z.of_nat k + 1) /\
    accounts (wal s') = <[addr := (length (heap s) + k)%nat]> (accounts (wal s)) /\
    index <$> heap s' !! (length (heap s) + k)%nat
      = Some (wrap32 (nextIndex (wal s) + Z.of_nat k)).
Proof.
  intros Htaken Hfree Hnone Hrange.
  apply NewAccount_skips; try assumption.
  unfold wrap32. now rewrite Z.mod_small.
Qed.

Lemma NewAccount_skips_taken_witness :
  exists s',
    NewAccount (Scenario.ledger []) (2 + 0) None Scenario.world2
      = Some (s', Ok (length (heap Scenario.world2) + 1)%nat) /\
    length (heap s') = (length (heap Scenario.world2) + 2)%nat /\
    nextIndex (wal s') = wrap32 (nextIndex (wal Scenario.world2) + Z.of_nat 1 + 1) /\
    accounts (wal s') =
      <[Scenario.address_of 2 := (length (heap Scenario.world2) + 1)%nat]>
        (accounts (wal Scenario.world2)) /\
    index <$> heap s' !! (length (heap Scenario.world2) + 1)%nat
      = Some (wrap32 (nextIndex (wal Scenario.world2) + Z.of_nat 1)).
Proof.
  apply (NewAccount_skips_taken (Scenario.ledger []) 1 0 Scenario.world2
           (Scenario.address_of 2)).
  - intros j Hj. assert (j = O) as -> by lia. exists (Scenario.address_of 1).
    split; [vm_compute; reflexivity|]. exists O. vm_compute. reflexivity.
  - vm_compute. reflexivity.
  - vm_compute. reflexivity.
  - vm_compute. split; [discriminate | reflexivity].
Defined.

(** *** [GetAccounts] *)

(** X24.  In a wallet whose registry is sound, [GetAccounts] lists each
    registered account once: as many pointers as there are addresses, no
    pointer twice, and exactly those that [GetAccount] returns for some
    address. *)
Theorem GetAccounts_lists_each_once env s :
  RegInv env s ->
  NoDup (GetAccounts s) /\
  length (GetAccounts s) = size (accounts (wal s)) /\
  forall l : loc, l ∈ GetAccounts s <-> exists addr, GetAccount s addr = Some l.
Proof.
  intros Hinv. unfold GetAccounts, GetAccount. split; [|split].
  - apply NoDup_fmap_2_strong; [|apply NoDup_map_to_list].
    intros [addr1 l1] [addr2 l2] H1 H2 Heq. cbn in Heq. subst l2.
    apply elem_of_map_to_list in H1, H2.
    destruct (Hinv _ _ H1) as (a1 & Ha1 & Haddr1 & _).
    destruct (Hinv _ _ H2) as (a2 & Ha2 & Haddr2 & _).
    f_equal. congruence.
  - now rewrite length_fmap, length_map_to_list.
  - intros l. rewrite list_elem_of_fmap. split.
    + intros ([addr l'] & -> & Hin). apply elem_of_map_to_list in Hin. eauto.
    + intros (addr & Hl). exists (addr, l). split; [reflexivity|].
      now apply elem_of_map_to_list.
Qed.

Lemma world3_RegInv : RegInv (Scenario.ledger []) Scenario.world3.
Proof.
  apply reachable_RegInv.
  eapply (reach_NewAccount _ Scenario.world2 2 None); [|vm_compute; reflexivity].
  eapply (reach_NewAccount _ Scenario.world1 1 None); [|vm_compute; reflexivity].
  eapply (reach_NewAccount _ Scenario.world0 1 (Some 1)); [|vm_compute; reflexivity].
  apply reach_empty. reflexivity.
Qed.

Lemma GetAccounts_lists_each_once_witness :
  map index (heap Scenario.world3) = [1; 0; 1; 2] /\
  NoDup (GetAccounts Scenario.world3) /\
  length (GetAccounts Scenario.world3) = size (accounts (wal Scenario.world3)) /\
  forall l : loc,
    l ∈ GetAccounts Scenario.world3 <-> exists addr, GetAccount Scenario.world3 addr = Some l.
Proof.
  split; [vm_compute; reflexivity|].
  apply (GetAccounts_lists_each_once (Scenario.ledger []) Scenario.world3).
  apply world3_RegInv.
Defined.

(** *** The scan keeps the registry sound *)

Lemma RegInv_log env s tr : RegInv env s -> RegInv env (mkWorld (heap s) (wal s) tr).
Proof. intros H. exact H. Qed.

Lemma RegInv_probe env fuel k : forall batch s s' r,
  probe env fuel k batch s = Some (s', r) -> RegInv env s -> RegInv env s'.
Proof.
  induction k as [|k IH]; intros batch s s' r H Hinv; cbn [probe] in H.
  - now injection H as <- _.
  - destruct (NewAccount env fuel None s) as [[s1 [l|e]]|] eqn:Hnew; [| |discriminate].
    + pose proof (RegInv_NewAccount _ _ _ _ _ _ Hnew Hinv) as Hinv1.
      destruct (heap s1 !! l); [eapply IH; eauto|].
      now injection H as <- _.
    + injection H as <- _. eapply RegInv_NewAccount; eauto.
Qed.

Lemma RegInv_scanDown env k batch balances frontiers : forall s s' r,
  scanDown k batch balances frontiers s = (s', r) -> RegInv env s -> RegInv env s'.
Proof.
  induction k as [|i IH]; intros s s' r H Hinv; cbn [scanDown] in H.
  - now injection H as <- _.
  - destruct (batch !! i) as [addr|]; [|now injection H as <- _].
    destruct (balances !! addr) as [b|]; [|now injection H as <- _].
    destruct (0 <? AccountBalance.Pending b); [now injection H as <- _|].
    assert (Hevict : forall (l : loc) a,
      accounts (wal s) !! addr = Some l -> heap s !! l = Some a ->
      RegInv env (mkWorld (heap s)
        (set_accounts (set_nextIndex (wal s) (index a)) (delete addr (accounts (wal s))))
        (log s))).
    { intros l a _ _ addr' l' Hl'. cbn in Hl'.
      apply lookup_delete_Some in Hl' as [_ Hl'].
      destruct (Hinv _ _ Hl') as (a' & Ha' & Haddr & Hof).
      exists a'. cbn [heap wal]. split; [exact Ha'|]. split; [exact Haddr|].
      rewrite (addressOf_config env _ (wal s)); [exact Hof | repeat split]. }
    destruct (frontiers !! addr) as [[f|]|]; [now injection H as <- _| |];
      (destruct (accounts (wal s) !! addr) as [l|] eqn:Hl; [|now injection H as <- _]);
      (destruct (heap s !! l) as [a|] eqn:Ha; [|now injection H as <- _]);
      eapply IH; eauto.
Qed.

(** X25.  A scan leaves a sound registry sound, whether it returns an error or
    not: every entry still points at an account that carries the address
    it is registered under, and no account is registered twice. *)
Theorem ScanForAccounts_keeps_registry env fuel : forall s s' r,
  RegInv env s ->
  ScanForAccounts env fuel s = Some (s', r) ->
  RegInv env s' /\ unique_registry s'.
Proof.
  assert (H : forall s s' r, RegInv env s ->
            ScanForAccounts env fuel s = Some (s', r) -> RegInv env s').
  { induction fuel as [|fuel IH]; intros s s' r Hinv H; [discriminate|].
    cbn [ScanForAccounts] in H.
    destruct (probe env fuel 10 [] s) as [[s1 [batch|e]]|] eqn:Hp; [| |discriminate].
    - pose proof (RegInv_probe _ _ _ _ _ _ _ Hp Hinv) as Hinv1.
      cbv beta iota zeta in H. cbn [heap wal log] in H.
      destruct (RPC_AccountsBalances env batch) as [balances|msg];
        [|injection H as <- _; exact Hinv1].
      cbv beta iota zeta in H. cbn [heap wal log] in H.
      destruct (RPC_AccountsFrontiers env batch) as [frontiers|msg];
        [|injection H as <- _; exact Hinv1].
      destruct (scanDown 10 batch balances frontiers _) as [s2 [i|e]] eqn:Hd.
      + assert (Hinv2 : RegInv env s2)
          by (eapply RegInv_scanDown; [exact Hd | exact Hinv1]).
        destruct (i <? 5); [now injection H as <- _ | eapply IH; eauto].
      + injection H as <- _. eapply RegInv_scanDown; [exact Hd | exact Hinv1].
    - injection H as <- _. eapply RegInv_probe; eauto. }
  intros s s' r Hinv Hrun. split; [eauto|]. eapply RegInv_unique; eauto.
Qed.

Lemma ScanForAccounts_keeps_registry_witness :
  size (accounts (wal Examples.scanned3)) = 4%nat /\
  RegInv (Scenario.ledger [Scenario.address_of 3]) Examples.scanned3 /\
  unique_registry Examples.scanned3.
Proof.
  split; [vm_compute; reflexivity|].
  apply (ScanForAccounts_keeps_registry (Scenario.ledger [Scenario.address_of 3]) 2
           Scenario.world0 Examples.scanned3 (Ok tt)).
  - intros addr l Hl. discriminate.
  - vm_compute. reflexivity.
Defined.

(** *** The gap limit *)

Lemma scanDown_used batch balances frontiers s i addr b :
  batch !! i = Some addr -> balances !! addr = Some b ->
  unused balances frontiers addr = false ->
  scanDown (S i) batch balances frontiers s = (s, Ok (Z.of_nat i)).
Proof.
  intros Hi Hb Hu. cbn [scanDown]. rewrite Hi, Hb. unfold unused in Hu. rewrite Hb in Hu.
  destruct (0 <? AccountBalance.Pending b); [reflexivity|].
  destruct (frontiers !! addr) as [[f|]|]; [reflexivity|discriminate|discriminate].
Qed.

(** X26.  After a probe of 10 new accounts, let slot [j] hold the last account
    of the batch that is in use (something to receive, or a frontier).
    The scan evicts the accounts of the slots above [j] and no other, and
    leaves [nextIndex] at the index of the account of slot [j + 1]; it
    returns when [j < 5], and goes on as a new scan otherwise. *)
Theorem ScanForAccounts_gap_limit env fuel s s1 batch balances frontiers j aj bj :
  probe env fuel 10 [] s = Some (s1, Ok batch) ->
  RPC_AccountsBalances env batch = Fine balances ->
  RPC_AccountsFrontiers env batch = Fine frontiers ->
  batch !! j = Some aj -> balances !! aj = Some bj ->
  unused balances frontiers aj = false ->
  forallb (unused balances frontiers) (drop (S j) batch) = true ->
  exists s2,
    ScanForAccounts env (S fuel) s =
      (if (j <? 5)%nat then Some (s2, Ok tt) else ScanForAccounts env fuel s2) /\
    (forall i addr, (j < i)%nat -> batch !! i = Some addr ->
       accounts (wal s2) !! addr = None) /\
    (forall i addr, (i <= j)%nat -> batch !! i = Some addr ->
       is_Some (accounts (wal s2) !! addr) /\
       accounts (wal s2) !! addr = accounts (wal s1) !! addr) /\
    (forall addr, addr ∉ batch -> accounts (wal s2) !! addr = accounts (wal s) !! addr) /\
    ((j < 9)%nat ->
       exists addr (l : loc) a,
         batch !! S j = Some addr /\ accounts (wal s1) !! addr = Some l /\
         heap s1 !! l = Some a /\ nextIndex (wal s2) = index a) /\
    log s2 = log s ++ [EvAccountsBalances batch; EvAccountsFrontiers batch].
Proof.
  intros Hprobe Hbal Hfr Hj Hbj Hused Hall.
  pose proof (ScanForAccounts_probed _ _ _ _ _ _ _ Hprobe Hbal Hfr) as Hscan.
  destruct (probe_spec _ _ _ _ _ _ _ Hprobe)
    as (new & Hbatch & Hlen & Hnd & _ & Hlog & _ & Hin & Hout).
  cbn [app] in Hbatch. subst new.
  pose proof (lookup_lt_Some _ _ _ Hj) as Hj10. rewrite Hlen in Hj10.
  set (s1' := mkWorld (heap s1) (wal s1)
                ((log s1 ++ [EvAccountsBalances batch]) ++ [EvAccountsFrontiers batch])) in *.
  assert (Hreg : forall i addr, batch !! i = Some addr ->
            exists (l : loc) a, accounts (wal s1') !! addr = Some l /\ heap s1' !! l = Some a).
  { intros i addr Hi. apply list_elem_of_lookup_2 in Hi. now destruct (Hin _ Hi). }
  destruct (scanDown_evicts batch balances frontiers (S j) (9 - j) s1' Hnd)
    as (s2 & Hdown & _ & Hlog2 & _ & Hgone & Hkept & _ & Hnext).
  { lia. }
  { intros i addr Hi Hb. split; [|exact (Hreg _ _ Hb)].
    apply (forallb_lookup _ _ (i - S j) _ Hall). rewrite lookup_drop.
    now replace (S j + (i - S j))%nat with i by lia. }
  replace (S j + (9 - j))%nat with 10%nat in * by lia.
  exists s2. split.
  { rewrite Hscan, Hdown, (scanDown_used _ _ _ _ _ _ _ Hj Hbj Hused).
    destruct (j <? 5)%nat eqn:E.
    - apply Nat.ltb_lt in E. assert (E' : (Z.of_nat j <? 5) = true) by (apply Z.ltb_lt; lia).
      now rewrite E'.
    - apply Nat.ltb_ge in E. assert (E' : (Z.of_nat j <? 5) = false) by (apply Z.ltb_ge; lia).
      now rewrite E'. }
  split.
  { intros i addr Hi Hb. apply (Hgone i); [|exact Hb]. apply lookup_lt_Some in Hb. lia. }
  assert (Hsame : forall i addr, (i <= j)%nat -> batch !! i = Some addr ->
            accounts (wal s2) !! addr = accounts (wal s1) !! addr).
  { intros i addr Hi Hb. apply Hkept. intros k Hk Hbk.
    pose proof (NoDup_lookup _ _ _ _ Hnd Hb Hbk). lia. }
  split.
  { intros i addr Hi Hb. split; [|now apply (Hsame i)].
    rewrite (Hsame i) by assumption. destruct (Hreg _ _ Hb) as (l & a & Hl & _). eauto. }
  split.
  { intros addr Ha. rewrite Hkept; [now apply Hout|].
    intros i _ Hi. apply Ha. eapply list_elem_of_lookup_2; eauto. }
  split; [intros Hj9; apply Hnext; lia|].
  rewrite Hlog2. cbn. now rewrite Hlog, <- app_assoc.
Qed.

Lemma ScanForAccounts_gap_limit_witness :
  exists s2,
    ScanForAccounts (Scenario.ledger [Scenario.address_of 3]) 2 Scenario.world0
      = Some (s2, Ok tt) /\
    accounts (wal s2) !! Scenario.address_of 4 = None /\
    is_Some (accounts (wal s2) !! Scenario.address_of 3) /\
    length (log s2) = 2%nat.
Proof.
  assert (Hp : probe (Scenario.ledger [Scenario.address_of 3]) 1 10 [] Scenario.world0
               = Some (Scenario.probed [Scenario.address_of 3], Ok Scenario.batch0))
    by (vm_compute; reflexivity).
  destruct (ScanForAccounts_gap_limit (Scenario.ledger [Scenario.address_of 3]) 1
              Scenario.world0 (Scenario.probed [Scenario.address_of 3]) Scenario.batch0
              (Scenario.balances_of [Scenario.address_of 3] Scenario.batch0) ∅
              3%nat (Scenario.address_of 3) (AccountBalance.mk 0 1)
              Hp eq_refl eq_refl)
    as (s2 & Hrun & Hgone & Hkept & _ & _ & Hlog);
    [vm_compute; reflexivity | vm_compute; reflexivity | vm_compute; reflexivity
    | vm_compute; reflexivity |].
  exists s2. split; [exact Hrun|].
  split; [apply (Hgone 4%nat); [lia | vm_compute; reflexivity]|].
  split; [apply (Hkept 3%nat); [lia | vm_compute; reflexivity]|].
  rewrite Hlog. reflexivity.
Defined.

(** *** A scan that cannot reach the node *)

(** X27.  When the node does not answer the request for the balances, the scan
    returns the error and undoes nothing: the ten accounts of the probe
    stay registered, under addresses that were free before, and
    [nextIndex] stays where the probe left it. *)
Theorem ScanForAccounts_no_rollback env fuel s s1 batch msg :
  probe env fuel 10 [] s = Some (s1, Ok batch) ->
  RPC_AccountsBalances env batch = Failed msg ->
  ScanForAccounts env (S fuel) s =
    Some (mkWorld (heap s1) (wal s1) (log s ++ [EvAccountsBalances batch]),
          Err (EExternal msg)) /\
  length batch = 10%nat /\ NoDup batch /\
  forall addr, addr ∈ batch ->
    accounts (wal s) !! addr = None /\ is_Some (accounts (wal s1) !! addr).
Proof.
  intros Hp Hb.
  destruct (probe_spec _ _ _ _ _ _ _ Hp)
    as (new & Hbatch & Hlen & Hnd & _ & Hlog & _ & Hin & _).
  cbn [app] in Hbatch. subst new.
  split.
  { cbn [ScanForAccounts]. rewrite Hp. cbv beta iota zeta. cbn [heap wal log].
    now rewrite Hb, Hlog. }
  split; [exact Hlen|]. split; [exact Hnd|].
  intros addr Ha. destruct (Hin _ Ha) as (Hnone & l & a & Hl & _). eauto.
Qed.

Lemma ScanForAccounts_no_rollback_witness :
  ScanForAccounts Examples.offline 2 Scenario.world0 =
    Some (mkWorld (heap Examples.probed_offline) (wal Examples.probed_offline)
            (log Scenario.world0 ++ [EvAccountsBalances Scenario.batch0]),
          Err (EExternal "connection refused")) /\
  size (accounts (wal Examples.probed_offline)) = 10%nat /\
  nextIndex (wal Examples.probed_offline) = 10.
Proof.
  destruct (ScanForAccounts_no_rollback Examples.offline 1 Scenario.world0
              Examples.probed_offline Scenario.batch0 "connection refused") as (H & _).
  - vm_compute. reflexivity.
  - reflexivity.
  - split; [exact H|]. split; vm_compute; reflexivity.
Defined.

(** *** [ReceivePendings] of a wallet *)

(** What [receivePendings] adds to the trace when it returns without an
    error: one receive block for each pending block. *)
Lemma receivePendings_count env node w pendings a tr s' :
  account.receivePendings env node w pendings (mkSt a tr) = (s', Ok tt) ->
  exists events,
    trace s' = tr ++ events /\
    length (account.submitted events) = length pendings /\
    forall b st, (b, st) ∈ account.submitted events -> st = "receive".
Proof.
  destruct pendings as [|p rest].
  - intros [= <-]. exists []. cbn. split; [now rewrite app_nil_r|].
    split; [reflexivity|]. intros b st H. inversion H.
  - intros H. rewrite receivePendings_nonempty in H by discriminate.
    apply receivePendings_loop_drained in H; [|right; discriminate].
    destruct H as (_ & events & blocks_ & Htr & Hsub & Hdr).
    pose proof (drained_length _ _ _ _ _ _ Hdr) as Hlen.
    exists (EvAccountInfo (address a) :: events).
    split; [rewrite Htr; now rewrite <- app_assoc|].
    change (account.submitted (EvAccountInfo (address a) :: events))
      with (account.submitted events).
    rewrite Hsub. split; [now rewrite length_map|].
    intros b st Hin. apply list_elem_of_fmap in Hin as (b' & [= -> ->] & _). reflexivity.
Qed.

Lemma receive_listed_counts env node listed : forall copy s s',
  receive_listed env node listed copy s = (s', Ok tt) ->
  wal s' = wal s /\
  (forall account_ ps, (account_, ps) ∈ listed -> ps <> [] -> is_Some (copy !! account_)) /\
  exists events,
    log s' = log s ++ events /\
    length (account.submitted events) = sum_list (length ∘ snd <$> listed) /\
    forall b st, (b, st) ∈ account.submitted events -> st = "receive".
Proof.
  induction listed as [|[account_ ps] rest IH]; intros copy s s' H; cbn [receive_listed] in H.
  - injection H as <-. split; [reflexivity|].
    split; [intros ? ? Hin; inversion Hin|].
    exists []. split; [now rewrite app_nil_r|]. split; [reflexivity|].
    intros b st Hin. inversion Hin.
  - destruct (copy !! account_) as [l|] eqn:Hl.
    + unfold at_account in H. destruct (heap s !! l) as [a|]; [|discriminate].
      destruct (account.receivePendings env node (wal s) ps (mkSt a (log s)))
        as [st1 [[]|e]] eqn:Hrun; [|discriminate].
      apply receivePendings_count in Hrun as (ev1 & Htr1 & Hlen1 & Hsub1).
      apply IH in H as (Hwal & Hreg & ev2 & Htr2 & Hlen2 & Hsub2). cbn [wal log] in *.
      split; [exact Hwal|]. split.
      { intros acc ps' Hin Hne. apply elem_of_cons in Hin as [[= -> ->]|Hin]; [eauto|].
        eapply Hreg; eauto. }
      exists (ev1 ++ ev2). split; [rewrite Htr2, Htr1; now rewrite app_assoc|].
      rewrite submitted_app, length_app, Hlen1, Hlen2. split; [reflexivity|].
      intros b st Hin. apply elem_of_app in Hin as [Hin|Hin]; eauto.
    + destruct ps as [|p ps]; [|discriminate].
      apply IH in H as (Hwal & Hreg & ev2 & Htr2 & Hlen2 & Hsub2).
      split; [exact Hwal|]. split.
      { intros acc ps' Hin Hne. apply elem_of_cons in Hin as [[= -> ->]|Hin];
          [contradiction|]. eapply Hreg; eauto. }
      exists ev2. split; [exact Htr2|]. split; [exact Hlen2 | exact Hsub2].
Qed.

(** X29.  When [ReceivePendings] of a wallet returns without an error, in
    whatever order it visited the answer of the node: every account that
    the node listed with something to receive is registered, the wallet
    itself is unchanged, and the blocks submitted are receive blocks, as
    many as there were pending blocks in the answer. *)
Theorem Wallet_ReceivePendings_receives env node threshold keys order s s' :
  registry.ReceivePendings env node threshold keys order s = (s', Ok tt) ->
  exists pendings events,
    account.RPC_AccountsPending node keys (-1) threshold = Fine pendings /\
    wal s' = wal s /\
    (forall account_ ps, (account_, ps) ∈ order pendings -> ps <> [] ->
       is_Some (accounts (wal s) !! account_)) /\
    log s' = log s ++ events /\
    length (account.submitted events) = sum_list (length ∘ snd <$> order pendings) /\
    forall b st, (b, st) ∈ account.submitted events -> st = "receive".
Proof.
  unfold registry.ReceivePendings.
  destruct (account.RPC_AccountsPending node keys (-1) threshold) as [pendings|msg];
    [|discriminate].
  intros H. apply receive_listed_counts in H as (Hwal & Hreg & events & Htr & Hlen & Hsub).
  exists pendings, events. auto 10.
Qed.

Lemma Wallet_ReceivePendings_receives_witness :
  exists events,
    wal Examples.pocketed = wal Scenario.world2 /\
    log Examples.pocketed = log Scenario.world2 ++ events /\
    length (account.submitted events) = 2%nat /\
    forall b st, (b, st) ∈ account.submitted events -> st = "receive".
Proof.
  destruct (Wallet_ReceivePendings_receives (Scenario.ledger []) Examples.node0 0
              [Scenario.address_of 1; Scenario.address_of 0] map_to_list
              Scenario.world2 Examples.pocketed)
    as (pendings & events & Hp & Hwal & _ & Hlog & Hlen & Hsub).
  - vm_compute. reflexivity.
  - exists events. split; [exact Hwal|]. split; [exact Hlog|]. split; [|exact Hsub].
    rewrite Hlen. injection Hp as <-. vm_compute. reflexivity.
Defined.

End WalletFacts.
